(** * DWARFRewriter: a shallow embedding of bolt/src/DWARFRewriter.cpp

    The development follows the source file function by function.  Integers
    of the source are modelled as [Z] with their wrap-around written out,
    raw section contents as lists of bytes, the rewriter's members as one
    record that is threaded through the operations, and the DWARF parser of
    LLVM (which the rewriter only consumes) as already-decoded records. *)

From Stdlib Require Import ZArith Lia.
From Stdlib.Strings Require Import Byte Ascii.
From stdpp Require Import gmap strings list fin_maps pretty sorting.

Local Open Scope Z_scope.

(** ** Machine integers *)

Definition to_uint32 (x : Z) : Z := x mod 2 ^ 32.
Definition to_uint64 (x : Z) : Z := x mod 2 ^ 64.
Definition to_int32 (x : Z) : Z := (x + 2 ^ 31) mod 2 ^ 32 - 2 ^ 31.

(** ** Raw bytes and the little-endian accessors of llvm/Support/Endian.h *)

Definition byte_of_Z (z : Z) : byte :=
  default x00 (Byte.of_N (Z.to_N (z mod 256))).
Definition Z_of_byte (b : byte) : Z := Z.of_N (Byte.to_N b).

Fixpoint writeLE (n : nat) (v : Z) : list byte :=
  match n with
  | O => []
  | S n' => byte_of_Z v :: writeLE n' (v / 256)
  end.

Fixpoint readLE (bs : list byte) : Z :=
  match bs with
  | [] => 0
  | b :: bs' => Z_of_byte b + 256 * readLE bs'
  end.

Definition write32le (v : Z) : list byte := writeLE 4 v.
Definition write64le (v : Z) : list byte := writeLE 8 v.

(** ** Outcomes of code that can stop the process

    [ExitWith] is [errs() << msg; exit(1)]; [OutOfBounds] marks a read or a
    copy that would leave the buffer it works on (undefined in the source);
    [AssertFail] is a failing [assert]. *)

Inductive Result (A : Type) : Type :=
| Ok (a : A)
| ExitWith (msg : string)
| OutOfBounds
| AssertFail (msg : string).
Arguments Ok {A} a.
Arguments ExitWith {A} msg.
Arguments OutOfBounds {A}.
Arguments AssertFail {A} msg.

Global Instance Result_bind : MBind Result := λ A B k m,
  match m with
  | Ok a => k a
  | ExitWith msg => ExitWith msg
  | OutOfBounds => OutOfBounds
  | AssertFail msg => AssertFail msg
  end.

(** [slice bs off len] is the range [bs[off .. off+len)], when it exists. *)
Definition slice (bs : list byte) (off len : Z) : Result (list byte) :=
  if bool_decide (0 ≤ off ∧ 0 ≤ len ∧ off + len ≤ Z.of_nat (length bs))
  then Ok (take (Z.to_nat len) (drop (Z.to_nat off) bs))
  else OutOfBounds.

Definition read32le (bs : list byte) (off : Z) : Result Z :=
  b ← slice bs off 4; Ok (readLE b).
Definition read64le (bs : list byte) (off : Z) : Result Z :=
  b ← slice bs off 8; Ok (readLE b).

(** ** Address ranges (DebugData.h: two [uint64_t] fields, zero by default) *)

Record DebugAddressRange : Type := mkRange { LowPC : Z; HighPC : Z }.

Global Instance DebugAddressRange_eq_dec : EqDecision DebugAddressRange.
Proof. solve_decision. Defined.

Definition DebugAddressRangesVector : Type := list DebugAddressRange.

(** The value-initialised range of [DebugAddressRange()]. *)
Definition DebugAddressRange_default : DebugAddressRange := mkRange 0 0.

Global Instance DebugAddressRange_countable : Countable DebugAddressRange.
Proof.
  refine (inj_countable' (λ r, (LowPC r, HighPC r)) (λ p, mkRange p.1 p.2) _).
  by intros [].
Defined.

(** ** The DWARF constants the rewriter tests for (llvm/BinaryFormat/Dwarf.def) *)

Module dwarf.

Inductive Tag : Type :=
| DW_TAG_null
| DW_TAG_compile_unit
| DW_TAG_subprogram
| DW_TAG_lexical_block
| DW_TAG_inlined_subroutine
| DW_TAG_try_block
| DW_TAG_catch_block
| DW_TAG_other (code : Z).

Inductive Attribute : Type :=
| DW_AT_location
| DW_AT_low_pc
| DW_AT_high_pc
| DW_AT_ranges
| DW_AT_comp_dir
| DW_AT_GNU_dwo_name
| DW_AT_GNU_ranges_base
| DW_AT_GNU_addr_base
| DW_AT_other (code : Z).

Inductive Form : Type :=
| DW_FORM_addr
| DW_FORM_block
| DW_FORM_data4
| DW_FORM_data8
| DW_FORM_udata
| DW_FORM_indirect
| DW_FORM_sec_offset
| DW_FORM_exprloc
| DW_FORM_GNU_addr_index
| DW_FORM_other (code : Z).

(** The numeric value of a form, as written into a DIE in front of a value
    of an attribute whose declared form is [DW_FORM_indirect]. *)
Definition FormCode (F : Form) : Z :=
  match F with
  | DW_FORM_addr => 1
  | DW_FORM_block => 9
  | DW_FORM_data4 => 6
  | DW_FORM_data8 => 7
  | DW_FORM_udata => 15
  | DW_FORM_indirect => 22
  | DW_FORM_sec_offset => 23
  | DW_FORM_exprloc => 24
  | DW_FORM_GNU_addr_index => 7937
  | DW_FORM_other code => code
  end.

(** A form of LLVM's own that the rewriter refuses in a low-pc (Dwarf.def:
    0x2001). *)
Definition DW_FORM_LLVM_addrx_offset : Form := DW_FORM_other 8193.

(** The form classes [updateUnitDebugInfo] and [addToPendingRanges] ask
    about ([DWARFFormValue::isFormClass]); forms outside the list above
    are in none of them. *)
Definition isConstantClass (F : Form) : bool :=
  match F with
  | DW_FORM_data4 | DW_FORM_data8 | DW_FORM_udata => true
  | _ => false
  end.
Definition isSectionOffsetClass (F : Form) : bool :=
  match F with
  | DW_FORM_sec_offset => true
  | _ => false
  end.
Definition isExprlocOrBlockClass (F : Form) : bool :=
  match F with
  | DW_FORM_exprloc | DW_FORM_block => true
  | _ => false
  end.

End dwarf.
Export dwarf.

Global Instance Tag_eq_dec : EqDecision Tag.
Proof. solve_decision. Defined.
Global Instance Attribute_eq_dec : EqDecision Attribute.
Proof. solve_decision. Defined.
Global Instance Form_eq_dec : EqDecision Form.
Proof. solve_decision. Defined.

(** ** Abbreviation declarations, units and entries, as the parser hands
    them to the rewriter *)

Record AttributeSpec : Type := mkAttributeSpec {
  Attr : Attribute;
  SpecForm : Form
}.

(** A declaration is shared by the entries that use it; the rewriter keys
    its tables by the declaration's address, [AbbrevPtr]. *)
Record DWARFAbbreviationDeclaration : Type := mkAbbrev {
  AbbrevPtr : Z;
  AbbrevTag : Tag;
  hasChildren : bool;
  AttributeSpecs : list AttributeSpec
}.

Fixpoint findAttributeIndex_from (Index : nat) (Specs : list AttributeSpec)
    (A : Attribute) : option nat :=
  match Specs with
  | [] => None
  | Spec :: Specs' =>
      if bool_decide (Attr Spec = A) then Some Index
      else findAttributeIndex_from (S Index) Specs' A
  end.

Definition findAttributeIndex (AbbrevDecl : DWARFAbbreviationDeclaration)
    (A : Attribute) : option nat :=
  findAttributeIndex_from 0%nat (AttributeSpecs AbbrevDecl) A.

Definition findAttribute (AbbrevDecl : DWARFAbbreviationDeclaration)
    (A : Attribute) : option AttributeSpec :=
  Index ← findAttributeIndex AbbrevDecl A; AttributeSpecs AbbrevDecl !! Index.

(** One operation of a DWARF expression; the rewriter looks only for
    [DW_OP_GNU_addr_index] and its first operand. *)
Record ExprOp : Type := mkExprOp {
  isGNUAddrIndex : bool;
  RawOperand0 : Z
}.

(** A decoded attribute value.  [AsAddress] is the result of
    [getAsAddress], [AsBlock] the operations of an expression block. *)
Record DWARFFormValue : Type := mkFormValue {
  getForm : Form;
  getRawUValue : Z;
  getAsAddress : option Z;
  getAsBlock : list ExprOp
}.

Record AttrInfo : Type := mkAttrInfo {
  V : DWARFFormValue;
  Offset : Z
}.

(** What the rewriter reads from a [DWARFUnit]. *)
Record UnitInfo : Type := mkUnitInfo {
  getOffset : Z;
  getHeaderSize : Z;
  getNextUnitOffset : Z;
  getDWOId : option Z;
  isDWOUnit : bool;
  getBaseAddress : option Z;
  getAddressByteSize : Z;
  getVersion : Z
}.

(** One entry of a unit's stream: its offset, the offset behind it, its
    declaration (absent for a null entry), the values of its attributes in
    the order of the declaration, and what [getLowAndHighPC] and
    [getAddressRanges] decode from them ([None] for the latter is the error
    case of [Expected]). *)
Record DWARFDebugInfoEntry : Type := mkEntry {
  EntryOffset : Z;
  EntryEnd : Z;
  getAbbreviationDeclarationPtr : option DWARFAbbreviationDeclaration;
  AttrValues : list AttrInfo;
  getLowAndHighPC : option (Z * Z);
  getAddressRanges : option DebugAddressRangesVector
}.

Record DWARFDie : Type := mkDie {
  getDwarfUnit : UnitInfo;
  Die : DWARFDebugInfoEntry
}.

Definition getTag (DIE : DWARFDie) : Tag :=
  match getAbbreviationDeclarationPtr (Die DIE) with
  | Some AbbrevDecl => AbbrevTag AbbrevDecl
  | None => DW_TAG_null
  end.

(** Lines 65-84. *)
Definition findAttributeInfo (DIE : DWARFDie) (A : Attribute)
    : option AttrInfo :=
  AbbrevDecl ← getAbbreviationDeclarationPtr (Die DIE);
  Index ← findAttributeIndex AbbrevDecl A;
  AttrValues (Die DIE) !! Index.

(** [DWARFDie::find]. *)
Definition find (DIE : DWARFDie) (A : Attribute) : option DWARFFormValue :=
  V <$> findAttributeInfo DIE A.

(** Lines 161-163. *)
Definition isHighPcFormEightBytes (DwarfForm : Form) : bool :=
  bool_decide (DwarfForm = DW_FORM_addr) || bool_decide (DwarfForm = DW_FORM_data8).

(** ** The writers of DebugData.h, which the rewriter drives *)

(** *** Byte Patch List *)

Inductive Patch : Type :=
| LE64Patch (PatchOffset : Z) (NewValue : Z)
| LE32Patch (PatchOffset : Z) (NewValue : Z)
| UDataPatch (PatchOffset : Z) (NewValue : Z) (Size : Z).

Global Instance Patch_eq_dec : EqDecision Patch.
Proof. solve_decision. Defined.

(** Modelled from the spec: [SimpleBinaryPatcher] (DebugData.h and
    DebugData.cpp are not among the sources).  The spec describes it as an
    "ordered, offset-addressed list of intent-to-overwrite operations over a
    section's raw bytes" that "supports fixed-width little-endian integers
    and variable-width (ULEB-like) values with an explicit byte-count" and
    is "applied in one pass at finalize time".  [RangeBase] and
    [WasRangeBaseUsed] are the members behind the calls [setRangeBase],
    [getRangeBase] and [getWasRangBasedUsed] of the rewriter. *)
Record SimpleBinaryPatcher : Type := mkPatcher {
  Patches : list Patch;
  RangeBase : Z;
  WasRangeBaseUsed : bool
}.

Definition emptyPatcher : SimpleBinaryPatcher := mkPatcher [] 0 false.

Definition addPatch (P : SimpleBinaryPatcher) (p : Patch) : SimpleBinaryPatcher :=
  mkPatcher (Patches P ++ [p]) (RangeBase P) (WasRangeBaseUsed P).

(** The arguments are converted to the parameter types of the C++ methods:
    a 64-bit and a 32-bit unsigned value. *)
Definition addLE64Patch (P : SimpleBinaryPatcher) (Offset NewValue : Z)
    : SimpleBinaryPatcher :=
  addPatch P (LE64Patch Offset (to_uint64 NewValue)).
Definition addLE32Patch (P : SimpleBinaryPatcher) (Offset NewValue : Z)
    : SimpleBinaryPatcher :=
  addPatch P (LE32Patch Offset (to_uint32 NewValue)).
Definition addUDataPatch (P : SimpleBinaryPatcher) (Offset NewValue Size : Z)
    : SimpleBinaryPatcher :=
  addPatch P (UDataPatch Offset (to_uint64 NewValue) Size).

Definition setRangeBase (P : SimpleBinaryPatcher) (Rb : Z) : SimpleBinaryPatcher :=
  mkPatcher (Patches P) Rb false.
Definition getRangeBase (P : SimpleBinaryPatcher) : Z * SimpleBinaryPatcher :=
  (RangeBase P, mkPatcher (Patches P) (RangeBase P) true).
Definition getWasRangBasedUsed (P : SimpleBinaryPatcher) : bool :=
  WasRangeBaseUsed P.

(** A ULEB128 value laid out on exactly [Size] bytes: every byte but the
    last carries the continuation bit. *)
Fixpoint encodeULEB128 (Size : nat) (Value : Z) : list byte :=
  match Size with
  | O => []
  | S O => [byte_of_Z (Value mod 128)]
  | S Size' => byte_of_Z (Value mod 128 + 128) :: encodeULEB128 Size' (Value / 128)
  end.

Definition patchOffsetOf (p : Patch) : Z :=
  match p with
  | LE64Patch o _ | LE32Patch o _ | UDataPatch o _ _ => o
  end.

Definition patchBytes (p : Patch) : list byte :=
  match p with
  | LE64Patch _ v => write64le v
  | LE32Patch _ v => write32le v
  | UDataPatch _ v Size => encodeULEB128 (Z.to_nat Size) v
  end.

(** The number of bytes a patch overwrites. *)
Definition patchWidth (p : Patch) : Z :=
  match p with
  | LE64Patch _ _ => 8
  | LE32Patch _ _ => 4
  | UDataPatch _ _ Size => Z.max 0 Size
  end.

(** Overwrites [bs[off .. off + |new|)]; a patch that runs over the end of
    the contents has no meaning. *)
Definition overwrite (bs : list byte) (off : Z) (new : list byte)
    : Result (list byte) :=
  if bool_decide (0 ≤ off ∧ off + Z.of_nat (length new) ≤ Z.of_nat (length bs))
  then Ok (take (Z.to_nat off) bs ++ new ++
           drop (Z.to_nat off + length new) bs)
  else OutOfBounds.

Fixpoint applyPatches (Ps : list Patch) (DWPOffset : Z)
    (BinaryContents : list byte) : Result (list byte) :=
  match Ps with
  | [] => Ok BinaryContents
  | p :: Ps' =>
      BinaryContents' ←
        overwrite BinaryContents (patchOffsetOf p - DWPOffset) (patchBytes p);
      applyPatches Ps' DWPOffset BinaryContents'
  end.

(** [patchBinary(BinaryContents, DWPOffset)]: the patches, in the order they
    were added, over the contents of a section that starts at [DWPOffset] of
    the section the offsets refer to. *)
Definition patchBinary (P : SimpleBinaryPatcher) (BinaryContents : list byte)
    (DWPOffset : Z) : Result (list byte) :=
  applyPatches (Patches P) DWPOffset BinaryContents.

(** *** Ranges writer *)

(** Modelled from the spec: [DebugRangesSectionWriter] (DebugData.cpp is not
    among the sources).  "Accumulates address-range lists into an output
    ranges section"; the section is "sequences of (low,high) pairs
    terminated by a zero pair, per list", with 8-byte addresses.  Offset 0
    holds the reserved empty list that [getEmptyRangesOffset] returns
    "regardless of cache contents"; an empty list is never stored again (the
    walk writes "the result (or an explicit empty-list marker)", and blocks
    whose translated ranges are empty point "at the shared empty-ranges
    offset, not at a newly allocated entry"). *)
Record DebugRangesSectionWriter : Type := mkRangesWriter {
  AddedRanges : list DebugAddressRangesVector
}.

Definition rangesByteSize (Ranges : DebugAddressRangesVector) : Z :=
  16 * (Z.of_nat (length Ranges) + 1).

Definition rangesSectionSize (Lists : list DebugAddressRangesVector) : Z :=
  foldr (λ Ranges acc, rangesByteSize Ranges + acc) 16 Lists.

Definition getSectionOffset (W : DebugRangesSectionWriter) : Z :=
  rangesSectionSize (AddedRanges W).

Definition getEmptyRangesOffset (W : DebugRangesSectionWriter) : Z := 0.

(** [addRanges(Ranges)]: "appends and returns a new offset". *)
Definition addRanges (W : DebugRangesSectionWriter)
    (Ranges : DebugAddressRangesVector) : Z * DebugRangesSectionWriter :=
  if bool_decide (Ranges = []) then (getEmptyRangesOffset W, W)
  else (getSectionOffset W, mkRangesWriter (AddedRanges W ++ [Ranges])).

(** [addRanges(Ranges, CachedRanges)]: "if an equivalent list (by value) was
    already added within the current cache scope ..., returns the previous
    offset; otherwise appends and returns a new offset". *)
Definition addRangesCached (W : DebugRangesSectionWriter)
    (Ranges : DebugAddressRangesVector)
    (CachedRanges : gmap DebugAddressRangesVector Z)
    : Z * DebugRangesSectionWriter * gmap DebugAddressRangesVector Z :=
  if bool_decide (Ranges = []) then (getEmptyRangesOffset W, W, CachedRanges)
  else
    match CachedRanges !! Ranges with
    | Some EntryOffset => (EntryOffset, W, CachedRanges)
    | None =>
        let '(EntryOffset, W') := addRanges W Ranges in
        (EntryOffset, W', <[Ranges := EntryOffset]> CachedRanges)
    end.

Definition writeAddressRanges (Ranges : DebugAddressRangesVector) : list byte :=
  flat_map (λ R, write64le (LowPC R) ++ write64le (HighPC R)) Ranges ++
  write64le 0 ++ write64le 0.

Definition finalizeRanges (W : DebugRangesSectionWriter) : list byte :=
  writeAddressRanges [] ++ flat_map writeAddressRanges (AddedRanges W).

(** *** Address table writer *)

(** Modelled from the spec: [DebugAddrWriter] (DebugData.cpp is not among
    the sources): "registers address at index within that split unit's
    private index space; if an index was already used for a different
    address, the newest write wins"; it "tracks whether any entry was ever
    added". *)
Record DebugAddrWriter : Type := mkAddrWriter {
  AddressMaps : gmap Z (gmap Z Z)
}.

Definition addIndexAddress (W : DebugAddrWriter) (Address Index DWOId : Z)
    : DebugAddrWriter :=
  mkAddrWriter
    (<[DWOId := <[Index := Address]> (default ∅ (AddressMaps W !! DWOId))]>
       (AddressMaps W)).

Definition AddrWriter_isInitialized (W : DebugAddrWriter) : bool :=
  bool_decide (AddressMaps W ≠ ∅).

(** *** Abbreviation writer *)

Record AbbrevPatchInfo : Type := mkAbbrevPatch {
  PatchUnit : Z;
  PatchAbbrev : Z;
  OldAttrTag : Attribute;
  NewAttrTag : Attribute;
  NewAttrForm : Form
}.

Global Instance AbbrevPatchInfo_eq_dec : EqDecision AbbrevPatchInfo.
Proof. solve_decision. Defined.

(** Modelled from the spec: [DebugAbbrevWriter] (DebugData.cpp is not among
    the sources): it "supports swapping one attribute's (attribute-kind,
    encoding-form) pair for a declaration" and keeps the units whose
    abbreviations it has to emit.  The requests are kept in the order they
    were made. *)
Record DebugAbbrevWriter : Type := mkAbbrevWriter {
  AbbrevPatches : list AbbrevPatchInfo;
  AbbrevUnits : list Z
}.

Definition emptyAbbrevWriter : DebugAbbrevWriter := mkAbbrevWriter [] [].

Definition addAttributePatch (W : DebugAbbrevWriter) (Unit : UnitInfo)
    (Abbrev : DWARFAbbreviationDeclaration) (AttrTag NewAttrTag : Attribute)
    (NewAttrForm : Form) : DebugAbbrevWriter :=
  mkAbbrevWriter
    (AbbrevPatches W ++
       [mkAbbrevPatch (getOffset Unit) (AbbrevPtr Abbrev) AttrTag NewAttrTag
                      NewAttrForm])
    (AbbrevUnits W).

Definition addUnitAbbreviations (W : DebugAbbrevWriter) (Unit : UnitInfo)
    : DebugAbbrevWriter :=
  mkAbbrevWriter (AbbrevPatches W) (AbbrevUnits W ++ [getOffset Unit]).

(** *** Location-list writers *)

Record DebugLocationEntry : Type := mkLocationEntry {
  LocLowPC : Z;
  LocHighPC : Z;
  LocExpr : list byte
}.

Definition DebugLocationsVector : Type := list DebugLocationEntry.

(** Modelled from the spec: [DebugLocWriter] and its split-unit variant
    [DebugLoclistWriter] (DebugData.cpp is not among the sources).  The
    writer "accumulates per-unit lists of (range, expression) into a
    location-list section"; [isDebugLoclistWriter] tells the split-unit
    variant, which "use[s] a distinct (index, length)-addressed entry
    encoding". *)
Record DebugLocWriter : Type := mkLocWriter {
  isDebugLoclistWriter : bool;
  LocBuffer : list byte
}.

(** The "reserved sentinel" of [addList] and the offset of the empty list
    that opens the final section. *)
Definition EmptyListTag : Z := 2 ^ 64 - 1.
Definition EmptyListOffset : Z := 0.

Definition finalizeLoc (W : DebugLocWriter) : list byte := LocBuffer W.

(** *** String pool *)

(** Modelled from the spec: [DebugStrWriter] (DebugData.cpp is not among the
    sources), a "deduplicating table mapping string → byte offset in an
    accumulated string section; append-only; offset of a string is stable
    once assigned". *)
Record DebugStrWriter : Type := mkStrWriter {
  StrOffsets : gmap string Z;
  StrSize : Z
}.

Definition addString (W : DebugStrWriter) (Str : string) : Z * DebugStrWriter :=
  match StrOffsets W !! Str with
  | Some Offset => (Offset, W)
  | None =>
      (StrSize W,
       mkStrWriter (<[Str := StrSize W]> (StrOffsets W))
                   (StrSize W + Z.of_nat (String.length Str) + 1))
  end.

(** ** The collaborators: options, functions and the binary context *)

Record Options : Type := mkOptions {
  Verbosity : Z;
  OutputFilename : string;
  KeepARanges : bool;
  DwarfOutputPath : string;
  WriteDWP : bool
}.

(** What the rewriter asks of a relocated function. *)
Record BinaryFunction : Type := mkBinaryFunction {
  getOutputAddressRanges : DebugAddressRangesVector;
  translateInputToOutputRanges : DebugAddressRangesVector → DebugAddressRangesVector;
  translateInputToOutputLocationList : DebugLocationsVector → DebugLocationsVector;
  translateInputToOutputAddress : Z → Z
}.

(** The kinds of location-list entries the walk accepts. *)
Inductive LocationEntryKind : Type :=
| DW_LLE_end_of_list
| DW_LLE_base_address
| DW_LLE_offset_pair
| DW_LLE_startx_length
| DW_LLE_other.

Record DWARFLocationEntry : Type := mkDWARFLocationEntry {
  Kind : LocationEntryKind;
  Value0 : Z;
  Value1 : Z;
  SectionIndexIsUndef : bool;
  Loc : list byte
}.

(** A section of a split-unit object file. *)
Record SectionRef : Type := mkSectionRef {
  SectionName : string;
  SectionContents : list byte
}.

Inductive DWARFSectionKind : Type :=
| DW_SECT_EXT_unknown
| DW_SECT_INFO
| DW_SECT_EXT_TYPES
| DW_SECT_ABBREV
| DW_SECT_LINE
| DW_SECT_EXT_LOC
| DW_SECT_STR_OFFSETS.

Global Instance DWARFSectionKind_eq_dec : EqDecision DWARFSectionKind.
Proof. solve_decision. Defined.

(** A unit with the entries [extractFast] yields from its first entry on
    (the walk stops where the list ends), the location lists
    [visitLocationList] decodes at an offset together with the error flag
    it returns, and the address-table items of the input.  [UnitDWOName] and
    [UnitShortName] are the name attributes of the unit's root entry.  For a
    split unit, [DWOFileSections] are the sections of the object file it was
    loaded from. *)
Record DWARFUnit : Type := mkUnit {
  Info : UnitInfo;
  Entries : list DWARFDebugInfoEntry;
  visitLocationList : Z → list DWARFLocationEntry * bool;
  getAddrOffsetSectionItem : Z → option Z;
  UnitDWOName : string;
  UnitShortName : option string;
  getCompilationDir : string;
  DWOFileSections : list SectionRef
}.

Record BinaryContext : Type := mkBinaryContext {
  compile_units : list DWARFUnit;
  getDWOCU : Z → option DWARFUnit;
  getBinaryFunctionAtAddress : Z → option BinaryFunction;
  getBinaryFunctionContainingAddress : Z → option BinaryFunction;
  translateModuleAddressRanges : DebugAddressRangesVector → DebugAddressRangesVector;
  getGdbIndexSection : option (list byte);
  IsDWP : bool;
  getFromHash : Z → option (DWARFSectionKind → Z * Z)
}.

(** ** The rewriter *)

Record LocListDebugInfoPatchType : Type := mkLocListPatch {
  DebugInfoOffset : Z;
  PatchCUIndex : Z;
  CUWriterOffset : Z
}.

(** The members of [DWARFRewriter] (DWARFRewriter.h) the functions below
    work on, and the diagnostic stream. *)
Record DWARFRewriter : Type := mkRewriter {
  ARangesSectionWriter : gmap Z DebugAddressRangesVector;
  RangesSectionWriter : DebugRangesSectionWriter;
  StrWriter : DebugStrWriter;
  AddrWriter : DebugAddrWriter;
  AbbrevWriter : DebugAbbrevWriter;
  BinaryDWOAbbrevWriters : gmap Z DebugAbbrevWriter;
  DebugInfoPatcher : SimpleBinaryPatcher;
  BinaryDWODebugInfoPatchers : gmap Z SimpleBinaryPatcher;
  LocListWritersByCU : gmap Z DebugLocWriter;
  LocListDebugInfoPatches : list LocListDebugInfoPatchType;
  DwoLocListDebugInfoPatches : gmap Z (list LocListDebugInfoPatchType);
  ConvertedRangesAbbrevs : gset Z;
  PendingRanges : gmap Z (list (DWARFDie * DebugAddressRange));
  errs : list string
}.

Definition set_ARangesSectionWriter (v : gmap Z DebugAddressRangesVector)
    (R : DWARFRewriter) : DWARFRewriter :=
  mkRewriter v (RangesSectionWriter R) (StrWriter R) (AddrWriter R)
    (AbbrevWriter R) (BinaryDWOAbbrevWriters R) (DebugInfoPatcher R)
    (BinaryDWODebugInfoPatchers R) (LocListWritersByCU R)
    (LocListDebugInfoPatches R) (DwoLocListDebugInfoPatches R)
    (ConvertedRangesAbbrevs R) (PendingRanges R) (errs R).
Definition set_RangesSectionWriter (v : DebugRangesSectionWriter)
    (R : DWARFRewriter) : DWARFRewriter :=
  mkRewriter (ARangesSectionWriter R) v (StrWriter R) (AddrWriter R)
    (AbbrevWriter R) (BinaryDWOAbbrevWriters R) (DebugInfoPatcher R)
    (BinaryDWODebugInfoPatchers R) (LocListWritersByCU R)
    (LocListDebugInfoPatches R) (DwoLocListDebugInfoPatches R)
    (ConvertedRangesAbbrevs R) (PendingRanges R) (errs R).
Definition set_StrWriter (v : DebugStrWriter)
    (R : DWARFRewriter) : DWARFRewriter :=
  mkRewriter (ARangesSectionWriter R) (RangesSectionWriter R) v (AddrWriter R)
    (AbbrevWriter R) (BinaryDWOAbbrevWriters R) (DebugInfoPatcher R)
    (BinaryDWODebugInfoPatchers R) (LocListWritersByCU R)
    (LocListDebugInfoPatches R) (DwoLocListDebugInfoPatches R)
    (ConvertedRangesAbbrevs R) (PendingRanges R) (errs R).
Definition set_AddrWriter (v : DebugAddrWriter)
    (R : DWARFRewriter) : DWARFRewriter :=
  mkRewriter (ARangesSectionWriter R) (RangesSectionWriter R) (StrWriter R) v
    (AbbrevWriter R) (BinaryDWOAbbrevWriters R) (DebugInfoPatcher R)
    (BinaryDWODebugInfoPatchers R) (LocListWritersByCU R)
    (LocListDebugInfoPatches R) (DwoLocListDebugInfoPatches R)
    (ConvertedRangesAbbrevs R) (PendingRanges R) (errs R).
Definition set_AbbrevWriter (v : DebugAbbrevWriter)
    (R : DWARFRewriter) : DWARFRewriter :=
  mkRewriter (ARangesSectionWriter R) (RangesSectionWriter R) (StrWriter R)
    (AddrWriter R) v (BinaryDWOAbbrevWriters R) (DebugInfoPatcher R)
    (BinaryDWODebugInfoPatchers R) (LocListWritersByCU R)
    (LocListDebugInfoPatches R) (DwoLocListDebugInfoPatches R)
    (ConvertedRangesAbbrevs R) (PendingRanges R) (errs R).
Definition set_BinaryDWOAbbrevWriters (v : gmap Z DebugAbbrevWriter)
    (R : DWARFRewriter) : DWARFRewriter :=
  mkRewriter (ARangesSectionWriter R) (RangesSectionWriter R) (StrWriter R)
    (AddrWriter R) (AbbrevWriter R) v (DebugInfoPatcher R)
    (BinaryDWODebugInfoPatchers R) (LocListWritersByCU R)
    (LocListDebugInfoPatches R) (DwoLocListDebugInfoPatches R)
    (ConvertedRangesAbbrevs R) (PendingRanges R) (errs R).
Definition set_DebugInfoPatcher (v : SimpleBinaryPatcher)
    (R : DWARFRewriter) : DWARFRewriter :=
  mkRewriter (ARangesSectionWriter R) (RangesSectionWriter R) (StrWriter R)
    (AddrWriter R) (AbbrevWriter R) (BinaryDWOAbbrevWriters R) v
    (BinaryDWODebugInfoPatchers R) (LocListWritersByCU R)
    (LocListDebugInfoPatches R) (DwoLocListDebugInfoPatches R)
    (ConvertedRangesAbbrevs R) (PendingRanges R) (errs R).
Definition set_BinaryDWODebugInfoPatchers (v : gmap Z SimpleBinaryPatcher)
    (R : DWARFRewriter) : DWARFRewriter :=
  mkRewriter (ARangesSectionWriter R) (RangesSectionWriter R) (StrWriter R)
    (AddrWriter R) (AbbrevWriter R) (BinaryDWOAbbrevWriters R)
    (DebugInfoPatcher R) v (LocListWritersByCU R)
    (LocListDebugInfoPatches R) (DwoLocListDebugInfoPatches R)
    (ConvertedRangesAbbrevs R) (PendingRanges R) (errs R).
Definition set_LocListWritersByCU (v : gmap Z DebugLocWriter)
    (R : DWARFRewriter) : DWARFRewriter :=
  mkRewriter (ARangesSectionWriter R) (RangesSectionWriter R) (StrWriter R)
    (AddrWriter R) (AbbrevWriter R) (BinaryDWOAbbrevWriters R)
    (DebugInfoPatcher R) (BinaryDWODebugInfoPatchers R) v
    (LocListDebugInfoPatches R) (DwoLocListDebugInfoPatches R)
    (ConvertedRangesAbbrevs R) (PendingRanges R) (errs R).
Definition set_LocListDebugInfoPatches (v : list LocListDebugInfoPatchType)
    (R : DWARFRewriter) : DWARFRewriter :=
  mkRewriter (ARangesSectionWriter R) (RangesSectionWriter R) (StrWriter R)
    (AddrWriter R) (AbbrevWriter R) (BinaryDWOAbbrevWriters R)
    (DebugInfoPatcher R) (BinaryDWODebugInfoPatchers R) (LocListWritersByCU R)
    v (DwoLocListDebugInfoPatches R)
    (ConvertedRangesAbbrevs R) (PendingRanges R) (errs R).
Definition set_DwoLocListDebugInfoPatches
    (v : gmap Z (list LocListDebugInfoPatchType))
    (R : DWARFRewriter) : DWARFRewriter :=
  mkRewriter (ARangesSectionWriter R) (RangesSectionWriter R) (StrWriter R)
    (AddrWriter R) (AbbrevWriter R) (BinaryDWOAbbrevWriters R)
    (DebugInfoPatcher R) (BinaryDWODebugInfoPatchers R) (LocListWritersByCU R)
    (LocListDebugInfoPatches R) v
    (ConvertedRangesAbbrevs R) (PendingRanges R) (errs R).
Definition set_ConvertedRangesAbbrevs (v : gset Z)
    (R : DWARFRewriter) : DWARFRewriter :=
  mkRewriter (ARangesSectionWriter R) (RangesSectionWriter R) (StrWriter R)
    (AddrWriter R) (AbbrevWriter R) (BinaryDWOAbbrevWriters R)
    (DebugInfoPatcher R) (BinaryDWODebugInfoPatchers R) (LocListWritersByCU R)
    (LocListDebugInfoPatches R) (DwoLocListDebugInfoPatches R)
    v (PendingRanges R) (errs R).
Definition set_PendingRanges (v : gmap Z (list (DWARFDie * DebugAddressRange)))
    (R : DWARFRewriter) : DWARFRewriter :=
  mkRewriter (ARangesSectionWriter R) (RangesSectionWriter R) (StrWriter R)
    (AddrWriter R) (AbbrevWriter R) (BinaryDWOAbbrevWriters R)
    (DebugInfoPatcher R) (BinaryDWODebugInfoPatchers R) (LocListWritersByCU R)
    (LocListDebugInfoPatches R) (DwoLocListDebugInfoPatches R)
    (ConvertedRangesAbbrevs R) v (errs R).
Definition set_errs (v : list string)
    (R : DWARFRewriter) : DWARFRewriter :=
  mkRewriter (ARangesSectionWriter R) (RangesSectionWriter R) (StrWriter R)
    (AddrWriter R) (AbbrevWriter R) (BinaryDWOAbbrevWriters R)
    (DebugInfoPatcher R) (BinaryDWODebugInfoPatchers R) (LocListWritersByCU R)
    (LocListDebugInfoPatches R) (DwoLocListDebugInfoPatches R)
    (ConvertedRangesAbbrevs R) (PendingRanges R) v.

(** [errs() << msg]. *)
Definition warn (msg : string) (R : DWARFRewriter) : DWARFRewriter :=
  set_errs (errs R ++ [msg]) R.

(** The patcher and the abbreviation writer a function is handed by
    reference: those of the main binary, or those of a split unit
    ([getBinaryDWODebugInfoPatcher], [getBinaryDWOAbbrevWriter], which create
    the object on first use). *)
Inductive PatcherRef : Type :=
| MainDebugInfoPatcher
| DWODebugInfoPatcher (DWOId : Z).

Inductive AbbrevWriterRef : Type :=
| MainAbbrevWriter
| DWOAbbrevWriter (DWOId : Z).

Definition getBinaryDWODebugInfoPatcher (R : DWARFRewriter) (DWOId : Z)
    : SimpleBinaryPatcher :=
  default emptyPatcher (BinaryDWODebugInfoPatchers R !! DWOId).

Definition getBinaryDWOAbbrevWriter (R : DWARFRewriter) (DWOId : Z)
    : DebugAbbrevWriter :=
  default emptyAbbrevWriter (BinaryDWOAbbrevWriters R !! DWOId).

Definition getPatcher (R : DWARFRewriter) (Ref : PatcherRef)
    : SimpleBinaryPatcher :=
  match Ref with
  | MainDebugInfoPatcher => DebugInfoPatcher R
  | DWODebugInfoPatcher DWOId => getBinaryDWODebugInfoPatcher R DWOId
  end.

Definition setPatcher (Ref : PatcherRef) (P : SimpleBinaryPatcher)
    (R : DWARFRewriter) : DWARFRewriter :=
  match Ref with
  | MainDebugInfoPatcher => set_DebugInfoPatcher P R
  | DWODebugInfoPatcher DWOId =>
      set_BinaryDWODebugInfoPatchers
        (<[DWOId := P]> (BinaryDWODebugInfoPatchers R)) R
  end.

Definition onPatcher (Ref : PatcherRef)
    (f : SimpleBinaryPatcher → SimpleBinaryPatcher) (R : DWARFRewriter)
    : DWARFRewriter :=
  setPatcher Ref (f (getPatcher R Ref)) R.

Definition getAbbrevWriter (R : DWARFRewriter) (Ref : AbbrevWriterRef)
    : DebugAbbrevWriter :=
  match Ref with
  | MainAbbrevWriter => AbbrevWriter R
  | DWOAbbrevWriter DWOId => getBinaryDWOAbbrevWriter R DWOId
  end.

Definition onAbbrevWriter (Ref : AbbrevWriterRef)
    (f : DebugAbbrevWriter → DebugAbbrevWriter) (R : DWARFRewriter)
    : DWARFRewriter :=
  match Ref with
  | MainAbbrevWriter => set_AbbrevWriter (f (AbbrevWriter R)) R
  | DWOAbbrevWriter DWOId =>
      set_BinaryDWOAbbrevWriters
        (<[DWOId := f (getBinaryDWOAbbrevWriter R DWOId)]>
           (BinaryDWOAbbrevWriters R)) R
  end.

(** ** [.gdb_index] regeneration: [DWARFRewriter::updateGdbIndexSection] *)

Record GdbIndexHeader : Type := mkGdbIndexHeader {
  Version : Z;
  CUListOffset : Z;
  CUTypesOffset : Z;
  AddressTableOffset : Z;
  SymbolTableOffset : Z;
  ConstantPoolOffset : Z
}.

(** Lines 1205-1219: the six 32-bit header fields. *)
Definition parseGdbIndexHeader (Contents : list byte) : Result GdbIndexHeader :=
  Version ← read32le Contents 0;
  CUListOffset ← read32le Contents 4;
  CUTypesOffset ← read32le Contents 8;
  AddressTableOffset ← read32le Contents 12;
  SymbolTableOffset ← read32le Contents 16;
  ConstantPoolOffset ← read32le Contents 20;
  Ok (mkGdbIndexHeader Version CUListOffset CUTypesOffset AddressTableOffset
                       SymbolTableOffset ConstantPoolOffset).

Definition writeGdbIndexHeader (H : GdbIndexHeader) : list byte :=
  write32le (Version H) ++ write32le (CUListOffset H) ++
  write32le (CUTypesOffset H) ++ write32le (AddressTableOffset H) ++
  write32le (SymbolTableOffset H) ++ write32le (ConstantPoolOffset H).

(** Lines 1229-1238: the CU list is compared with the offsets of the units
    the context knows, in index order; [OffsetToIndexMap] is keyed by
    [uint32_t]. *)
Fixpoint verifyCUList (Contents : list byte) (Data : Z) (Index : Z)
    (Units : list Z) (OffsetToIndexMap : gmap Z Z) : Result (gmap Z Z * Z) :=
  match Units with
  | [] => Ok (OffsetToIndexMap, Data)
  | CUOffset :: Units' =>
      Offset ← read64le Contents Data;
      if bool_decide (CUOffset ≠ Offset)
      then ExitWith "BOLT-ERROR: .gdb_index CU offset mismatch"
      else verifyCUList Contents (Data + 16) (Index + 1) Units'
             (<[to_uint32 Offset := Index]> OffsetToIndexMap)
  end.

(** Lines 1246-1250: the size of the new table, accumulated in a
    [uint32_t]. *)
Definition newAddressTableSize
    (CUAddressRanges : list (Z * DebugAddressRangesVector)) : Z :=
  foldl (λ acc CURangesPair,
           to_uint32 (acc + Z.of_nat (length (CURangesPair.2)) * 20))
        0 CUAddressRanges.

(** Lines 1280-1285: one entry of the address table. *)
Definition writeAddressTableEntry (CUIndex : Z) (Range : DebugAddressRange)
    : list byte :=
  write64le (LowPC Range) ++ write64le (HighPC Range) ++ write32le CUIndex.

(** Lines 1276-1286; [OffsetToIndexMap[...]] yields 0 for a missing key. *)
Definition writeAddressTable (OffsetToIndexMap : gmap Z Z)
    (CUAddressRanges : list (Z * DebugAddressRangesVector)) : list byte :=
  flat_map (λ CURangesPair,
              let CUIndex :=
                default 0 (OffsetToIndexMap !! to_uint32 (CURangesPair.1)) in
              flat_map (writeAddressTableEntry CUIndex) (CURangesPair.2))
           CUAddressRanges.

Inductive GdbIndexUpdate : Type :=
| GdbIndexAbsent
| GdbIndexStopped (r : Result unit)
| GdbIndexRegistered (NewGdbIndexContents : list byte) (NewGdbIndexSize : Z).

Definition regenerateGdbIndex (GdbIndexContents : list byte) (Units : list Z)
    (CUAddressRanges : list (Z * DebugAddressRangesVector))
    : Result (list byte * Z) :=
  H ← parseGdbIndexHeader GdbIndexContents;
  if bool_decide (Version H ≠ 7 ∧ Version H ≠ 8)
  then ExitWith "BOLT-ERROR: can only process .gdb_index versions 7 and 8"
  else
    let Data := 24 in
    let CUListSize := to_uint32 (CUTypesOffset H - CUListOffset H) in
    let NumCUs := Z.of_nat (length Units) in
    if bool_decide (CUListSize ≠ to_uint32 (NumCUs * 16))
    then ExitWith "BOLT-ERROR: .gdb_index: CU count mismatch"
    else
      '(OffsetToIndexMap, Data) ←
         verifyCUList GdbIndexContents Data 0 Units ∅;
      let OldAddressTableSize :=
        to_uint32 (SymbolTableOffset H - AddressTableOffset H) in
      let Data := Data + to_uint32 (SymbolTableOffset H - CUTypesOffset H) in
      let NewAddressTableSize := newAddressTableSize CUAddressRanges in
      let Delta := to_int32 (NewAddressTableSize - OldAddressTableSize) in
      let NewGdbIndexSize :=
        to_uint64 (Z.of_nat (length GdbIndexContents) + Delta) in
      let Header :=
        writeGdbIndexHeader
          (mkGdbIndexHeader (Version H) (CUListOffset H) (CUTypesOffset H)
             (AddressTableOffset H) (SymbolTableOffset H + Delta)
             (ConstantPoolOffset H + Delta)) in
      Lists ← slice GdbIndexContents 24
                 (to_uint32 (AddressTableOffset H - CUListOffset H));
      let Table := writeAddressTable OffsetToIndexMap CUAddressRanges in
      let TrailingSize := Z.of_nat (length GdbIndexContents) - Data in
      Trailing ← slice GdbIndexContents Data TrailingSize;
      let Buffer := Header ++ Lists ++ Table ++ Trailing in
      if bool_decide (Z.of_nat (length Buffer) = NewGdbIndexSize)
      then Ok (Buffer, NewGdbIndexSize)
      else AssertFail "size calculation error".

Definition updateGdbIndexSection (GdbIndexSection : option (list byte))
    (Units : list Z) (CUAddressRanges : list (Z * DebugAddressRangesVector))
    : GdbIndexUpdate :=
  match GdbIndexSection with
  | None => GdbIndexAbsent
  | Some GdbIndexContents =>
      match regenerateGdbIndex GdbIndexContents Units CUAddressRanges with
      | Ok (Buffer, Size) => GdbIndexRegistered Buffer Size
      | ExitWith msg => GdbIndexStopped (ExitWith msg)
      | OutOfBounds => GdbIndexStopped OutOfBounds
      | AssertFail msg => GdbIndexStopped (AssertFail msg)
      end
  end.

(** A loop over a container whose body can stop the run. *)
Fixpoint foldlR {S A : Type} (f : S → A → Result S) (s : S) (l : list A)
    : Result S :=
  match l with
  | [] => Ok s
  | a :: l' => s' ← f s a; foldlR f s' l'
  end.

Record RangeAttrData : Type := mkRangeAttrData {
  LowPCOffset : Z;
  HighPCOffset : Z;
  LowPCFormValue : DWARFFormValue;
  HighPCFormValue : DWARFFormValue
}.

(** The two name tables [updateDebugInfo] keeps while it names the
    split-unit outputs (lines 196-197). *)
Record DWONames : Type := mkDWONames {
  NameToIndexMap : gmap string Z;
  DWOIdToName : gmap Z string
}.

(** [getSectionName] (lines 905-911): the name without its leading dots and
    underscores. *)
Fixpoint getSectionName_strip (Name : string) : string :=
  match Name with
  | String c Name' =>
      if bool_decide (c = "."%char ∨ c = "_"%char) then getSectionName_strip Name'
      else Name
  | EmptyString => EmptyString
  end.

Definition getSectionName (Section : SectionRef) : string :=
  getSectionName_strip (SectionName Section).

(** [createKnownSectionsMap] (lines 890-903), by section name. *)
Definition KnownSections (Name : string) : option DWARFSectionKind :=
  if bool_decide (Name = "debug_info.dwo") then Some DW_SECT_INFO
  else if bool_decide (Name = "debug_types.dwo") then Some DW_SECT_EXT_TYPES
  else if bool_decide (Name = "debug_str_offsets.dwo") then Some DW_SECT_STR_OFFSETS
  else if bool_decide (Name = "debug_str.dwo") then Some DW_SECT_EXT_unknown
  else if bool_decide (Name = "debug_loc.dwo") then Some DW_SECT_EXT_LOC
  else if bool_decide (Name = "debug_abbrev.dwo") then Some DW_SECT_ABBREV
  else if bool_decide (Name = "debug_line.dwo") then Some DW_SECT_EXT_unknown
  else None.

(** [getContributionIndex(Kind, 2)] of llvm/DWP: the version-2 number of
    the section kind, counted from [DW_SECT_INFO]. *)
Definition getContributionIndex (Kind : DWARFSectionKind) : Result Z :=
  match Kind with
  | DW_SECT_EXT_unknown =>
      AssertFail "serializeSectionKind(Kind, IndexVersion) >= DW_SECT_INFO"
  | DW_SECT_INFO => Ok 0
  | DW_SECT_EXT_TYPES => Ok 1
  | DW_SECT_ABBREV => Ok 2
  | DW_SECT_LINE => Ok 3
  | DW_SECT_EXT_LOC => Ok 4
  | DW_SECT_STR_OFFSETS => Ok 5
  end.

(** A file written through a [ToolOutputFile]: the byte strings handed to
    [emitBytes], in order; the file stays on disk only if [keep()] was
    called. *)
Record OutputFile : Type := mkOutputFile {
  FilePath : string;
  EmittedBytes : list (list byte);
  Kept : bool
}.

Record UnitIndexEntry : Type := mkUnitIndexEntry {
  EntryDWOName : string;
  EntryName : string;
  Contributions : gmap Z (Z * Z)
}.

Record CompileUnitIdentifiers : Type := mkCUI {
  Signature : Z;
  CUIName : string;
  CUIDWOName : string
}.

(** What [writeDWP] has built: the output file, the running offsets per
    section kind, the pairs of sections handed to [writeStringsAndOffsets],
    the index entries in insertion order, and whether [writeIndex] was
    reached. *)
Record DWPOutput : Type := mkDWPOutput {
  DWPFile : OutputFile;
  ContributionOffsets : gmap Z Z;
  StringsAndOffsets : list (list byte * list byte);
  IndexEntries : list (Z * UnitIndexEntry);
  IndexWritten : bool
}.

Section Rewriter.

(** The binary context and the command-line options are fixed for a run. *)
Variable BC : BinaryContext.
Variable opts : Options.

(** [DebugAddrWriter::getIndexFromAddress(Address, DWOId)] is defined in
    DebugData.cpp, which is not among the sources; the spec calls it a
    "reverse lookup".  The rewriter only writes the index it returns, so the
    function is a parameter of the development. *)
Variable getIndexFromAddress : DebugAddrWriter → Z → Z → Z.

(** The bytes a location-list writer appends for one list (DebugData.cpp);
    the flag tells the split-unit encoding. *)
Variable serializeLocList : bool → DebugLocationsVector → list byte.

(** The contents [DebugAbbrevWriter::finalize] produces (DebugData.cpp). *)
Variable finalizeAbbrev : DebugAbbrevWriter → list byte.

(** Modelled from the spec: [DebugLocWriter::addList] (DebugData.cpp is not
    among the sources) "returns a reserved sentinel if the list is empty;
    otherwise appends and returns an offset scoped to this unit's writer". *)
Definition addList (W : DebugLocWriter) (LocList : DebugLocationsVector)
    : Z * DebugLocWriter :=
  match LocList with
  | [] => (EmptyListTag, W)
  | _ :: _ =>
      (Z.of_nat (length (LocBuffer W)),
       mkLocWriter (isDebugLoclistWriter W)
         (LocBuffer W ++ serializeLocList (isDebugLoclistWriter W) LocList))
  end.

(** Lines 1427-1453.  The two early returns only skip the later check: the
    caller goes on with the offsets and forms it was given. *)
Definition getRangeAttrData (DIE : DWARFDie) (R : DWARFRewriter)
    : Result (RangeAttrData * DWARFRewriter) :=
  match findAttributeInfo DIE DW_AT_low_pc,
        findAttributeInfo DIE DW_AT_high_pc with
  | Some LowPCVal, Some HighPCVal =>
      let D := mkRangeAttrData (Offset LowPCVal) (Offset HighPCVal)
                               (V LowPCVal) (V HighPCVal) in
      let LowForm := getForm (V LowPCVal) in
      let HighForm := getForm (V HighPCVal) in
      if bool_decide ((LowForm ≠ DW_FORM_addr ∧ LowForm ≠ DW_FORM_GNU_addr_index) ∨
                      (HighForm ≠ DW_FORM_addr ∧ HighForm ≠ DW_FORM_data8 ∧
                       HighForm ≠ DW_FORM_data4))
      then Ok (D, warn "BOLT-WARNING: unexpected form value. Cannot update DIE" R)
      else if bool_decide ((Offset LowPCVal = 4294967295 ∨
                            to_uint64 (Offset LowPCVal + 8) ≠ Offset HighPCVal) ∧
                           LowForm ≠ DW_FORM_GNU_addr_index)
      then Ok (D, warn "BOLT-WARNING: high_pc expected immediately after low_pc. Cannot update DIE" R)
      else Ok (D, R)
  | _, _ => AssertFail "Optional has no value"
  end.

(** Lines 1457-1482. *)
Definition patchLowHigh (DIE : DWARFDie) (Range : DebugAddressRange)
    (DebugInfoPatcher : PatcherRef) (R : DWARFRewriter) : Result DWARFRewriter :=
  '(D, R) ← getRangeAttrData DIE R;
  '(TempDebugPatcher, R) ←
    (if bool_decide (getForm (LowPCFormValue D) = DW_FORM_GNU_addr_index)
     then
       let Unit := getDwarfUnit DIE in
       if negb (isDWOUnit Unit)
       then AssertFail "DW_FORM_GNU_addr_index not part of DWO."
       else
         match getDWOId Unit with
         | None => AssertFail "Optional has no value"
         | Some DWOId =>
             let AddressIndex :=
               to_uint32 (getIndexFromAddress (AddrWriter R) (LowPC Range) DWOId) in
             let TempDebugPatcher := DWODebugInfoPatcher DWOId in
             Ok (TempDebugPatcher,
                 onPatcher TempDebugPatcher
                   (λ P, addUDataPatch P (LowPCOffset D) AddressIndex
                           (Z.abs (to_int32 (HighPCOffset D - LowPCOffset D))))
                   R)
         end
     else
       Ok (DebugInfoPatcher,
           onPatcher DebugInfoPatcher
             (λ P, addLE64Patch P (LowPCOffset D) (LowPC Range)) R));
  if isHighPcFormEightBytes (getForm (HighPCFormValue D))
  then Ok (onPatcher TempDebugPatcher
             (λ P, addLE64Patch P (HighPCOffset D) (HighPC Range - LowPC Range)) R)
  else Ok (onPatcher TempDebugPatcher
             (λ P, addLE32Patch P (HighPCOffset D) (HighPC Range - LowPC Range)) R).

(** Lines 1484-1511: the declaration's low-pc/high-pc pair becomes a ranges
    attribute. *)
Definition convertToRanges_Abbrev (Unit : UnitInfo)
    (Abbrev : DWARFAbbreviationDeclaration) (AbbrevWriter : AbbrevWriterRef)
    (RangesBase : option Z) (R : DWARFRewriter) : Result DWARFRewriter :=
  match findAttribute Abbrev DW_AT_high_pc, findAttribute Abbrev DW_AT_low_pc with
  | Some HighPCSpec, Some LowPCSpec =>
      let HighPCForm := SpecForm HighPCSpec in
      let LowPCForm := SpecForm LowPCSpec in
      R ← match RangesBase with
          | Some _ =>
              if bool_decide (LowPCForm = DW_FORM_GNU_addr_index)
              then AssertFail "LowPCForm != dwarf::DW_FORM_GNU_addr_index"
              else Ok (onAbbrevWriter AbbrevWriter
                         (λ W, addAttributePatch W Unit Abbrev DW_AT_low_pc
                                 DW_AT_GNU_ranges_base DW_FORM_indirect) R)
          | None =>
              if bool_decide (LowPCForm ≠ DW_FORM_GNU_addr_index) &&
                 isHighPcFormEightBytes HighPCForm
              then Ok (onAbbrevWriter AbbrevWriter
                         (λ W, addAttributePatch W Unit Abbrev DW_AT_low_pc
                                 DW_AT_low_pc DW_FORM_indirect) R)
              else Ok R
          end;
      Ok (onAbbrevWriter AbbrevWriter
            (λ W, addAttributePatch W Unit Abbrev DW_AT_high_pc DW_AT_ranges
                    DW_FORM_sec_offset) R)
  | _, _ => AssertFail "Optional has no value"
  end.

(** Lines 1522-1530. *)
Definition NumBytesToFill_of (HighPCForm : Form) : Result Z :=
  if isHighPcFormEightBytes HighPCForm then Ok 12
  else if bool_decide (HighPCForm = DW_FORM_data4) then Ok 8
  else AssertFail "unexpected DW_AT_high_pc form".

(** Lines 1513-1559: the entry's two fields are overwritten by a filler and
    the 4-byte offset into the ranges section. *)
Definition convertToRanges_Offset (DIE : DWARFDie) (RangesSectionOffset : Z)
    (DebugInfoPatcher : PatcherRef) (RangesBase : option Z) (R : DWARFRewriter)
    : Result DWARFRewriter :=
  '(D, R) ← getRangeAttrData DIE R;
  if bool_decide (getAddressByteSize (getDwarfUnit DIE) ≠ 8)
  then AssertFail "DIE.getDwarfUnit()->getAddressByteSize() == 8"
  else
    NumBytesToFill ← NumBytesToFill_of (getForm (HighPCFormValue D));
    let '(BaseOffset, R) :=
      if bool_decide (getForm (LowPCFormValue D) = DW_FORM_GNU_addr_index)
      then
        let R := onPatcher DebugInfoPatcher
                   (λ P, addUDataPatch P (LowPCOffset D) 0
                           (to_uint32
                              (Z.abs (to_int32 (HighPCOffset D - LowPCOffset D)) +
                               NumBytesToFill - 8))) R in
        let '(Base, P) := getRangeBase (getPatcher R DebugInfoPatcher) in
        (to_uint32 Base, setPatcher DebugInfoPatcher P R)
      else
        (0,
         match RangesBase with
         | Some RB =>
             onPatcher DebugInfoPatcher
               (λ P, addUDataPatch
                       (addUDataPatch P (LowPCOffset D) (FormCode DW_FORM_udata) 1)
                       (LowPCOffset D + 1) RB (NumBytesToFill - 1)) R
         | None =>
             if bool_decide (NumBytesToFill = 12)
             then onPatcher DebugInfoPatcher
                    (λ P, addLE64Patch
                            (addUDataPatch P (LowPCOffset D) (FormCode DW_FORM_addr) 4)
                            (LowPCOffset D + 4) 0) R
             else onPatcher DebugInfoPatcher
                    (λ P, addLE64Patch P (LowPCOffset D) 0) R
         end) in
    Ok (onPatcher DebugInfoPatcher
          (λ P, addLE32Patch P (HighPCOffset D + NumBytesToFill - 8)
                  (RangesSectionOffset - BaseOffset)) R).

(** Lines 1301-1312. *)
Definition convertToRanges_Ranges (DIE : DWARFDie)
    (Ranges : DebugAddressRangesVector) (DebugInfoPatcher : PatcherRef)
    (R : DWARFRewriter) : Result DWARFRewriter :=
  let '(RangesSectionOffset, W) :=
    if bool_decide (Ranges = [])
    then (getEmptyRangesOffset (RangesSectionWriter R), RangesSectionWriter R)
    else addRanges (RangesSectionWriter R) Ranges in
  convertToRanges_Offset DIE RangesSectionOffset DebugInfoPatcher None
    (set_RangesSectionWriter W R).

(** Lines 1314-1332. *)
Definition convertPending (Unit : UnitInfo)
    (Abbrev : DWARFAbbreviationDeclaration) (DebugInfoPatcher : PatcherRef)
    (AbbrevWriter : AbbrevWriterRef) (R : DWARFRewriter) : Result DWARFRewriter :=
  if bool_decide (AbbrevPtr Abbrev ∈ ConvertedRangesAbbrevs R) then Ok R
  else
    R ← convertToRanges_Abbrev Unit Abbrev AbbrevWriter None R;
    R ← match PendingRanges R !! AbbrevPtr Abbrev with
        | Some Pending =>
            R ← foldlR (λ R Pair,
                          convertToRanges_Ranges Pair.1 [Pair.2] DebugInfoPatcher R)
                       R Pending;
            Ok (set_PendingRanges (delete (AbbrevPtr Abbrev) (PendingRanges R)) R)
        | None => Ok R
        end;
    Ok (set_ConvertedRangesAbbrevs
          ({[AbbrevPtr Abbrev]} ∪ ConvertedRangesAbbrevs R) R).

(** Lines 1334-1362; [FunctionRanges.front()] needs a non-empty vector. *)
Definition addToPendingRanges (Abbrev : DWARFAbbreviationDeclaration)
    (DIE : DWARFDie) (FunctionRanges : DebugAddressRangesVector)
    (DWOId : option Z) (R : DWARFRewriter) : Result DWARFRewriter :=
  let LowPcValue := find DIE DW_AT_low_pc in
  let HighPcValue := find DIE DW_AT_high_pc in
  R ← match LowPcValue with
      | Some LowPc =>
          if bool_decide (getForm LowPc = DW_FORM_GNU_addr_index)
          then
            match DWOId, HighPcValue with
            | Some DWOId, Some HighPc =>
                let IndexL := getRawUValue LowPc in
                let IndexH := getRawUValue HighPc in
                Ok (set_AddrWriter
                      (foldl (λ W Address,
                                let W := addIndexAddress W (LowPC Address) IndexL DWOId in
                                if negb (isConstantClass (getForm HighPc))
                                then addIndexAddress W (HighPC Address) IndexH DWOId
                                else W)
                             (AddrWriter R) FunctionRanges) R)
            | None, _ => AssertFail "Invalid DWO ID."
            | _, None => AssertFail "Low PC exists, but not High PC."
            end
          else Ok R
      | None => Ok R
      end;
  match FunctionRanges with
  | [] => OutOfBounds
  | Front :: _ =>
      Ok (set_PendingRanges
            (<[AbbrevPtr Abbrev :=
                 default [] (PendingRanges R !! AbbrevPtr Abbrev) ++ [(DIE, Front)]]>
               (PendingRanges R)) R)
  end.

(** Lines 1414-1423. *)
Definition flushPendingRanges (DebugInfoPatcher : PatcherRef) (R : DWARFRewriter)
    : Result DWARFRewriter :=
  R ← foldlR (λ R Pending,
                foldlR (λ R RangePair,
                          patchLowHigh RangePair.1 RangePair.2 DebugInfoPatcher R)
                       R Pending.2)
             R (map_to_list (PendingRanges R));
  Ok (set_PendingRanges ∅ R).

(** Lines 369-393 of [updateUnitDebugInfo]: a subprogram that has a
    low-pc/high-pc pair keeps it as long as it can.  The critical section is
    the whole body here: the units are processed one after the other
    ([DeterministicDebugInfo] is on by default). *)
Definition delayConversion (Unit : UnitInfo) (DIE : DWARFDie)
    (FunctionRanges : DebugAddressRangesVector) (DebugInfoPatcher : PatcherRef)
    (AbbrevWriter : AbbrevWriterRef) (R : DWARFRewriter) : Result DWARFRewriter :=
  match getAbbreviationDeclarationPtr (Die DIE) with
  | None => AssertFail "abbrev expected"
  | Some Abbrev =>
      if bool_decide (1 < Z.of_nat (length FunctionRanges))
      then
        R ← convertPending Unit Abbrev DebugInfoPatcher AbbrevWriter R;
        convertToRanges_Ranges DIE FunctionRanges DebugInfoPatcher R
      else if bool_decide (AbbrevPtr Abbrev ∈ ConvertedRangesAbbrevs R)
      then convertToRanges_Ranges DIE FunctionRanges DebugInfoPatcher R
      else
        let FunctionRanges :=
          match FunctionRanges with
          | [] => [DebugAddressRange_default]
          | _ :: _ => FunctionRanges
          end in
        addToPendingRanges Abbrev DIE FunctionRanges (getDWOId Unit) R
  end.

(** Lines 596-675. *)
Definition updateDWARFObjectAddressRanges (DIE : DWARFDie)
    (DebugRangesOffset : Z) (DebugInfoPatcher : PatcherRef)
    (AbbrevWriter : AbbrevWriterRef) (RangesBase : option Z) (R : DWARFRewriter)
    : Result DWARFRewriter :=
  match getAbbreviationDeclarationPtr (Die DIE) with
  | None =>
      Ok (if bool_decide (1 ≤ Verbosity opts)
          then warn "BOLT-WARNING: object's DIE doesn't have an abbreviation: skipping update." R
          else R)
  | Some AbbreviationDecl =>
      let '(RangesBase, R) :=
        match RangesBase with
        | Some RB =>
            match findAttributeInfo DIE DW_AT_GNU_ranges_base with
            | Some RangesBaseAttrInfo =>
                (None, onPatcher DebugInfoPatcher
                         (λ P, addLE32Patch P (Offset RangesBaseAttrInfo) RB) R)
            | None => (Some RB, R)
            end
        | None => (None, R)
        end in
      if bool_decide (is_Some (findAttributeIndex AbbreviationDecl DW_AT_ranges))
      then
        match findAttributeInfo DIE DW_AT_ranges with
        | None => AssertFail "Optional has no value"
        | Some AttrVal =>
            let '(Base, P) := getRangeBase (getPatcher R DebugInfoPatcher) in
            let R := setPatcher DebugInfoPatcher
                       (addLE32Patch P (Offset AttrVal) (DebugRangesOffset - Base)) R in
            match RangesBase with
            | None => Ok R
            | Some RB =>
                match findAttributeInfo DIE DW_AT_low_pc with
                | None =>
                    Ok (warn "BOLT-ERROR: skeleton CU does not have DW_AT_GNU_ranges_base or DW_AT_low_pc to convert to update ranges base" R)
                | Some LowPCAttrInfo =>
                    let R := onAbbrevWriter AbbrevWriter
                               (λ W, addAttributePatch W (getDwarfUnit DIE)
                                       AbbreviationDecl DW_AT_low_pc
                                       DW_AT_GNU_ranges_base DW_FORM_indirect) R in
                    Ok (onPatcher DebugInfoPatcher
                          (λ P, addUDataPatch
                                  (addUDataPatch P (Offset LowPCAttrInfo)
                                     (FormCode DW_FORM_udata) 1)
                                  (Offset LowPCAttrInfo + 1) RB 7) R)
                end
            end
        end
      else if bool_decide (is_Some (findAttributeIndex AbbreviationDecl DW_AT_low_pc)) &&
              bool_decide (is_Some (findAttributeIndex AbbreviationDecl DW_AT_high_pc))
      then
        R ← convertToRanges_Abbrev (getDwarfUnit DIE) AbbreviationDecl AbbrevWriter
              RangesBase R;
        convertToRanges_Offset DIE DebugRangesOffset DebugInfoPatcher RangesBase R
      else
        Ok (if bool_decide (1 ≤ Verbosity opts)
            then warn "BOLT-ERROR: cannot update ranges for DIE" R
            else R)
  end.

(** Modelled from the spec: [DebugARangesSectionWriter::addCURanges]
    (DebugData.cpp is not among the sources); the writer "retains, per
    (non-split) compile unit, its final output range list ..., keyed by the
    unit's input offset". *)
Definition addCURanges (W : gmap Z DebugAddressRangesVector) (CUOffset : Z)
    (Ranges : DebugAddressRangesVector) : gmap Z DebugAddressRangesVector :=
  <[CUOffset := Ranges]> W.

(** Lines 317-334 of [updateUnitDebugInfo]. *)
Definition updateUnitDebugInfo_compile_unit (Unit : DWARFUnit) (DIE : DWARFDie)
    (DebugInfoPatcher : PatcherRef) (AbbrevWriter : AbbrevWriterRef)
    (RangesBase : option Z) (R : DWARFRewriter) : Result DWARFRewriter :=
  match getAddressRanges (Die DIE) with
  | None => Ok R
  | Some ModuleRanges =>
      let OutputRanges := translateModuleAddressRanges BC ModuleRanges in
      let '(RangesSectionOffset, W) :=
        addRanges (RangesSectionWriter R) OutputRanges in
      let R := set_RangesSectionWriter W R in
      let R :=
        if negb (isDWOUnit (Info Unit))
        then set_ARangesSectionWriter
               (addCURanges (ARangesSectionWriter R) (getOffset (Info Unit))
                            OutputRanges) R
        else R in
      updateDWARFObjectAddressRanges DIE RangesSectionOffset DebugInfoPatcher
        AbbrevWriter RangesBase R
  end.

(** Lines 335-395. *)
Definition updateUnitDebugInfo_subprogram (Unit : DWARFUnit) (DIE : DWARFDie)
    (DebugInfoPatcher : PatcherRef) (AbbrevWriter : AbbrevWriterRef)
    (CachedRanges : gmap DebugAddressRangesVector Z) (R : DWARFRewriter)
    : Result (gmap DebugAddressRangesVector Z * DWARFRewriter) :=
  let Resolved : option (Z * bool) :=
    match getLowAndHighPC (Die DIE) with
    | Some (Address, _) => Some (Address, false)
    | None =>
        match getAddressRanges (Die DIE) with
        | None => None
        | Some [] => None
        | Some (Front :: _) => Some (LowPC Front, true)
        end
    end in
  match Resolved with
  | None => Ok (CachedRanges, R)
  | Some (Address, UsesRanges) =>
      let CachedRanges : gmap DebugAddressRangesVector Z := ∅ in
      let FunctionRanges :=
        match getBinaryFunctionAtAddress BC Address with
        | Some Function => getOutputAddressRanges Function
        | None => []
        end in
      R ← (if UsesRanges
           then
             let '(RangesSectionOffset, W) :=
               addRanges (RangesSectionWriter R) FunctionRanges in
             updateDWARFObjectAddressRanges DIE RangesSectionOffset
               DebugInfoPatcher AbbrevWriter None (set_RangesSectionWriter W R)
           else
             delayConversion (Info Unit) DIE FunctionRanges DebugInfoPatcher
               AbbrevWriter R);
      Ok (CachedRanges, R)
  end.

(** Lines 396-422: lexical blocks, inlined subroutines, try and catch
    blocks. *)
Definition updateUnitDebugInfo_block (DIE : DWARFDie)
    (DebugInfoPatcher : PatcherRef) (AbbrevWriter : AbbrevWriterRef)
    (CachedRanges : gmap DebugAddressRangesVector Z) (R : DWARFRewriter)
    : Result (gmap DebugAddressRangesVector Z * DWARFRewriter) :=
  let RangesOrError := getAddressRanges (Die DIE) in
  let Function :=
    match RangesOrError with
    | Some (Front :: _) => getBinaryFunctionContainingAddress BC (LowPC Front)
    | _ => None
    end in
  let '(RangesSectionOffset, W, CachedRanges) :=
    match Function, RangesOrError with
    | Some Function, Some Ranges =>
        addRangesCached (RangesSectionWriter R)
          (translateInputToOutputRanges Function Ranges) CachedRanges
    | _, _ =>
        (getEmptyRangesOffset (RangesSectionWriter R), RangesSectionWriter R,
         CachedRanges)
    end in
  R ← updateDWARFObjectAddressRanges DIE RangesSectionOffset DebugInfoPatcher
        AbbrevWriter None (set_RangesSectionWriter W R);
  Ok (CachedRanges, R).

(** Lines 445-477: the callback handed to [visitLocationList], over the
    entries it is called with. *)
Fixpoint collectInputLL (Unit : DWARFUnit) (Visited : list DWARFLocationEntry)
    (BaseAddress : Z) (InputLL : DebugLocationsVector)
    : Result DebugLocationsVector :=
  match Visited with
  | [] => Ok InputLL
  | Entry :: Visited' =>
      match Kind Entry with
      | DW_LLE_end_of_list => Ok InputLL
      | DW_LLE_base_address =>
          if negb (SectionIndexIsUndef Entry)
          then AssertFail "absolute address expected"
          else collectInputLL Unit Visited' (Value0 Entry) InputLL
      | DW_LLE_offset_pair =>
          if negb (SectionIndexIsUndef Entry && negb (isDWOUnit (Info Unit)))
          then AssertFail "absolute address expected"
          else collectInputLL Unit Visited' BaseAddress
                 (InputLL ++
                    [mkLocationEntry (to_uint64 (BaseAddress + Value0 Entry))
                       (to_uint64 (BaseAddress + Value1 Entry)) (Loc Entry)])
      | DW_LLE_startx_length =>
          if negb (isDWOUnit (Info Unit))
          then AssertFail "None DWO Unit with DW_LLE_startx_length encoding."
          else
            match getAddrOffsetSectionItem Unit (Value0 Entry) with
            | None => AssertFail "Address does not exist."
            | Some EntryAddress =>
                collectInputLL Unit Visited' BaseAddress
                  (InputLL ++
                     [mkLocationEntry EntryAddress
                        (to_uint64 (EntryAddress + Value1 Entry)) (Loc Entry)])
            end
      | DW_LLE_other => AssertFail "Unsupported DWARFLocationEntry Kind."
      end
  end.

(** Lines 427-517: an entry whose location attribute is an offset into the
    location lists. *)
Definition updateLocationList (CUIndex : Z) (Unit : DWARFUnit)
    (AttrVal : AttrInfo) (DebugInfoPatcher : PatcherRef) (R : DWARFRewriter)
    : Result DWARFRewriter :=
  let AttrOffset := Offset AttrVal in
  let '(Visited, E) := visitLocationList Unit (getRawUValue (V AttrVal)) in
  InputLL ← collectInputLL Unit Visited (default 0 (getBaseAddress (Info Unit))) [];
  '(OutputLocListOffset, R) ←
    match InputLL with
    | Front :: _ =>
        if E
        then Ok (EmptyListTag, warn "BOLT-WARNING: empty location list detected" R)
        else
          match getBinaryFunctionContainingAddress BC (LocLowPC Front) with
          | Some Function =>
              let OutputLL := translateInputToOutputLocationList Function InputLL in
              match LocListWritersByCU R !! CUIndex with
              | None => AssertFail "no location-list writer for the unit"
              | Some DebugLocWriter =>
                  let '(ListOffset, DebugLocWriter) := addList DebugLocWriter OutputLL in
                  Ok (ListOffset,
                      set_LocListWritersByCU
                        (<[CUIndex := DebugLocWriter]> (LocListWritersByCU R)) R)
              end
          | None => Ok (EmptyListTag, R)
          end
    | [] => Ok (EmptyListTag, warn "BOLT-WARNING: empty location list detected" R)
    end;
  if bool_decide (OutputLocListOffset ≠ EmptyListTag)
  then
    let Patch := mkLocListPatch AttrOffset CUIndex OutputLocListOffset in
    if isDWOUnit (Info Unit)
    then Ok (set_DwoLocListDebugInfoPatches
               (<[CUIndex :=
                    default [] (DwoLocListDebugInfoPatches R !! CUIndex) ++ [Patch]]>
                  (DwoLocListDebugInfoPatches R)) R)
    else Ok (set_LocListDebugInfoPatches (LocListDebugInfoPatches R ++ [Patch]) R)
  else
    Ok (onPatcher DebugInfoPatcher
          (λ P, addLE32Patch P AttrOffset EmptyListOffset) R).

(** Lines 519-542: an inline location expression. *)
Definition updateLocationExpr (Unit : DWARFUnit) (Value : DWARFFormValue)
    (R : DWARFRewriter) : Result DWARFRewriter :=
  if negb (isExprlocOrBlockClass (getForm Value))
  then AssertFail "unexpected DW_AT_location form"
  else if isDWOUnit (Info Unit)
  then
    foldlR (λ R Expr,
              if negb (isGNUAddrIndex Expr) then Ok R
              else
                let Index := RawOperand0 Expr in
                match getAddrOffsetSectionItem Unit Index, getDWOId (Info Unit) with
                | None, _ => AssertFail "Address is not found."
                | _, None => AssertFail "Optional has no value"
                | Some EntryAddress, Some DWOId =>
                    if bool_decide (4294967295 < Index)
                    then AssertFail "Invalid Operand Index."
                    else Ok (set_AddrWriter
                               (addIndexAddress (AddrWriter R) EntryAddress
                                  (to_uint32 Index) DWOId) R)
                end)
           R (getAsBlock Value)
  else Ok R.

(** Lines 544-583: any other entry that has a low-pc attribute. *)
Definition updateLowPC (Unit : DWARFUnit) (AttrVal : AttrInfo)
    (DebugInfoPatcher : PatcherRef) (R : DWARFRewriter) : Result DWARFRewriter :=
  let AttrOffset := Offset AttrVal in
  let Value := V AttrVal in
  match getAsAddress Value with
  | Some Address =>
      let NewAddress :=
        match getBinaryFunctionContainingAddress BC Address with
        | Some Function => translateInputToOutputAddress Function Address
        | None => 0
        end in
      let Form := getForm Value in
      if bool_decide (Form = DW_FORM_LLVM_addrx_offset)
      then AssertFail "DW_FORM_LLVM_addrx_offset is not supported"
      else if bool_decide (Form = DW_FORM_GNU_addr_index)
      then
        if negb (isDWOUnit (Info Unit))
        then AssertFail "DW_FORM_GNU_addr_index in Non DWO unit."
        else
          match getDWOId (Info Unit) with
          | None => AssertFail "Optional has no value"
          | Some DWOId =>
              Ok (set_AddrWriter
                    (addIndexAddress (AddrWriter R)
                       (if bool_decide (NewAddress ≠ 0) then NewAddress else Address)
                       (getRawUValue Value) DWOId) R)
          end
      else Ok (onPatcher DebugInfoPatcher
                 (λ P, addLE64Patch P AttrOffset NewAddress) R)
  | None =>
      Ok (if bool_decide (1 ≤ Verbosity opts)
          then warn "BOLT-WARNING: unexpected form value for attribute" R
          else R)
  end.

(** Lines 423-584: the default case of the switch. *)
Definition updateUnitDebugInfo_default (CUIndex : Z) (Unit : DWARFUnit)
    (DIE : DWARFDie) (DebugInfoPatcher : PatcherRef) (R : DWARFRewriter)
    : Result DWARFRewriter :=
  match findAttributeInfo DIE DW_AT_location with
  | Some AttrVal =>
      if isConstantClass (getForm (V AttrVal)) ||
         isSectionOffsetClass (getForm (V AttrVal))
      then updateLocationList CUIndex Unit AttrVal DebugInfoPatcher R
      else updateLocationExpr Unit (V AttrVal) R
  | None =>
      match findAttributeInfo DIE DW_AT_low_pc with
      | Some AttrVal => updateLowPC Unit AttrVal DebugInfoPatcher R
      | None => Ok R
      end
  end.

(** Lines 316-585: the switch over the entry's tag. *)
Definition updateUnitDebugInfo_DIE (CUIndex : Z) (Unit : DWARFUnit)
    (DIE : DWARFDie) (DebugInfoPatcher : PatcherRef)
    (AbbrevWriter : AbbrevWriterRef) (RangesBase : option Z)
    (CachedRanges : gmap DebugAddressRangesVector Z) (R : DWARFRewriter)
    : Result (gmap DebugAddressRangesVector Z * DWARFRewriter) :=
  match getTag DIE with
  | DW_TAG_compile_unit =>
      R ← updateUnitDebugInfo_compile_unit Unit DIE DebugInfoPatcher
            AbbrevWriter RangesBase R;
      Ok (CachedRanges, R)
  | DW_TAG_subprogram =>
      updateUnitDebugInfo_subprogram Unit DIE DebugInfoPatcher AbbrevWriter
        CachedRanges R
  | DW_TAG_lexical_block | DW_TAG_inlined_subroutine
  | DW_TAG_try_block | DW_TAG_catch_block =>
      updateUnitDebugInfo_block DIE DebugInfoPatcher AbbrevWriter CachedRanges R
  | _ =>
      R ← updateUnitDebugInfo_default CUIndex Unit DIE DebugInfoPatcher R;
      Ok (CachedRanges, R)
  end.

(** Lines 299-586: the loop over the entries of the unit.  [DIEOffset] is
    the offset the next entry is read at, [Depth] the nesting depth. *)
Fixpoint updateUnitDebugInfo_loop (CUIndex : Z) (Unit : DWARFUnit)
    (DebugInfoPatcher : PatcherRef) (AbbrevWriter : AbbrevWriterRef)
    (RangesBase : option Z) (Rest : list DWARFDebugInfoEntry)
    (DIEOffset : Z) (Depth : Z)
    (CachedRanges : gmap DebugAddressRangesVector Z) (R : DWARFRewriter)
    : Result (Z * DWARFRewriter) :=
  match Rest with
  | [] => Ok (DIEOffset, R)
  | Die :: Rest' =>
      if bool_decide (DIEOffset < getNextUnitOffset (Info Unit))
      then
        let DIEOffset := EntryEnd Die in
        let '(Depth, Break) :=
          match getAbbreviationDeclarationPtr Die with
          | Some AbbrDecl =>
              (if hasChildren AbbrDecl then to_uint32 (Depth + 1) else Depth, false)
          | None =>
              let Depth := if bool_decide (0 < Depth) then Depth - 1 else Depth in
              (Depth, bool_decide (Depth = 0))
          end in
        if Break then Ok (DIEOffset, R)
        else
          '(CachedRanges, R) ←
            updateUnitDebugInfo_DIE CUIndex Unit (mkDie (Info Unit) Die)
              DebugInfoPatcher AbbrevWriter RangesBase CachedRanges R;
          updateUnitDebugInfo_loop CUIndex Unit DebugInfoPatcher AbbrevWriter
            RangesBase Rest' DIEOffset Depth CachedRanges R
      else Ok (DIEOffset, R)
  end.

(** Lines 284-594. *)
Definition updateUnitDebugInfo (CUIndex : Z) (Unit : DWARFUnit)
    (DebugInfoPatcher : PatcherRef) (AbbrevWriter : AbbrevWriterRef)
    (RangesBase : option Z) (R : DWARFRewriter) : Result DWARFRewriter :=
  match LocListWritersByCU R !! CUIndex with
  | None => AssertFail "no location-list writer for the unit"
  | Some _ =>
      '(DIEOffset, R) ←
        updateUnitDebugInfo_loop CUIndex Unit DebugInfoPatcher AbbrevWriter
          RangesBase (Entries Unit)
          (getOffset (Info Unit) + getHeaderSize (Info Unit)) 0 ∅ R;
      let R :=
        if bool_decide (getNextUnitOffset (Info Unit) < DIEOffset)
        then warn "BOLT-WARNING: corrupt DWARF detected" R
        else R in
      Ok (onAbbrevWriter AbbrevWriter
            (λ W, addUnitAbbreviations W (Info Unit)) R)
  end.

(** Lines 132-159; [UseNameToIndexMap] tells whether the caller passes the
    name table or a null pointer. *)
Definition getDWOName (CU : DWARFUnit) (UseNameToIndexMap : bool)
    (Names : DWONames) : Result (string * DWONames) :=
  match getDWOId (Info CU) with
  | None => AssertFail "DWO ID not found."
  | Some DWOId =>
      match DWOIdToName Names !! DWOId with
      | Some Name => Ok (Name, Names)
      | None =>
          let DWOName := UnitDWOName CU in
          if bool_decide (DWOName = "")
          then AssertFail "DW_AT_dwo_name/DW_AT_GNU_dwo_name does not exists."
          else
            let '(DWOName, NameToIndex) :=
              if UseNameToIndexMap && negb (bool_decide (DwarfOutputPath opts = ""))
              then
                let Index := default 0 (NameToIndexMap Names !! DWOName) in
                (DWOName +:+ pretty Index,
                 <[DWOName := to_uint32 (Index + 1)]> (NameToIndexMap Names))
              else (DWOName, NameToIndexMap Names) in
            let DWOName := DWOName +:+ ".dwo" in
            Ok (DWOName, mkDWONames NameToIndex (<[DWOId := DWOName]> (DWOIdToName Names)))
      end
  end.

(** [DWARFUnit::getUnitDIE]: the first entry of the unit. *)
Definition getUnitDIE (Unit : DWARFUnit) : option DWARFDie :=
  mkDie (Info Unit) <$> head (Entries Unit).

(** Lines 199-218; the patches go to the patcher of the main binary. *)
Definition updateDWONameCompDir (Unit : DWARFUnit) (Names : DWONames)
    (R : DWARFRewriter) : Result (DWONames * DWARFRewriter) :=
  match getUnitDIE Unit ≫= λ DIE, findAttributeInfo DIE DW_AT_GNU_dwo_name with
  | None => AssertFail "Skeleton CU doesn't have dwo_name."
  | Some AttrInfoVal =>
      '(ObjectName, Names) ← getDWOName Unit true Names;
      let '(NewOffset, W) := addString (StrWriter R) ObjectName in
      let R := set_StrWriter W R in
      let R := onPatcher MainDebugInfoPatcher
                 (λ P, addLE32Patch P (Offset AttrInfoVal) NewOffset) R in
      match getUnitDIE Unit ≫= λ DIE, findAttributeInfo DIE DW_AT_comp_dir with
      | None => AssertFail "DW_AT_comp_dir is not in Skeleton CU."
      | Some AttrInfoVal =>
          if negb (bool_decide (DwarfOutputPath opts = ""))
          then
            let '(NewOffset, W) := addString (StrWriter R) (DwarfOutputPath opts) in
            let R := set_StrWriter W R in
            Ok (Names,
                onPatcher MainDebugInfoPatcher
                  (λ P, addLE32Patch P (Offset AttrInfoVal) NewOffset) R)
          else Ok (Names, R)
      end
  end.

(** Modelled from the spec: [DebugLoclistWriter::finalizePatches]
    (DebugData.cpp is not among the sources).  The spec gives the split-unit
    writer nothing beyond [addList] and [finalize]; the list was laid out
    when it was added, so the call leaves the buffer as it is. *)
Definition finalizePatches (W : DebugLocWriter) : DebugLocWriter := W.

(** Lines 220-254. *)
Definition processUnitDIE (CUIndex : Z) (Unit : DWARFUnit) (Names : DWONames)
    (R : DWARFRewriter) : Result (DWONames * DWARFRewriter) :=
  let DWOId := getDWOId (Info Unit) in
  let SplitCU := DWOId ≫= getDWOCU BC in
  '(RangesBase, Names, R) ←
    match SplitCU, DWOId with
    | Some SplitCU, Some DWOId =>
        '(Names, R) ← updateDWONameCompDir Unit Names R;
        if bool_decide (is_Some (LocListWritersByCU R !! DWOId))
        then AssertFail "LocList writer for DWO unit already exists."
        else
          let R := set_LocListWritersByCU
                     (<[DWOId := mkLocWriter true []]> (LocListWritersByCU R)) R in
          let DwoDebugInfoPatcher := DWODebugInfoPatcher DWOId in
          let RangesBase := getSectionOffset (RangesSectionWriter R) in
          let R := onPatcher DwoDebugInfoPatcher (λ P, setRangeBase P RangesBase) R in
          R ← updateUnitDebugInfo DWOId SplitCU DwoDebugInfoPatcher
                (DWOAbbrevWriter DWOId) None R;
          let R := set_LocListWritersByCU
                     (alter finalizePatches DWOId (LocListWritersByCU R)) R in
          Ok (if getWasRangBasedUsed (getPatcher R DwoDebugInfoPatcher)
              then Some RangesBase else None,
              Names, R)
    | _, _ => Ok (None, Names, R)
    end;
  R ← updateUnitDebugInfo CUIndex Unit MainDebugInfoPatcher MainAbbrevWriter
        RangesBase R;
  Ok (Names, R).

(** Lines 256-259 and 272 of [updateDebugInfo]: the units one after the
    other, then the flush of what is still pending. *)
Definition processUnits (Names : DWONames) (R : DWARFRewriter)
    : Result (DWONames * DWARFRewriter) :=
  '(Names, R) ←
    foldlR (λ '(Names, R) CU, processUnitDIE 0 CU Names R) (Names, R)
           (compile_units BC);
  R ← flushPendingRanges MainDebugInfoPatcher R;
  Ok (Names, R).

(** Lines 1378-1392: the offset of each unit's lists in the final section.
    The running offset is a [uint64_t]; it is only used modulo [2^32], so
    its own wrap-around is not written out.  [LocListWritersByCU] is an
    unordered map (line 189 reserves its buckets): the loop takes the
    writers in the container's own order, which [map_to_list] stands for. *)
Definition layoutLocLists (Writers : list (Z * DebugLocWriter))
    (LocBuffer : list byte) (SectionOffset : Z) (SectionOffsetByCU : gmap Z Z)
    : list byte * Z * gmap Z Z :=
  foldl (λ '(LocBuffer, SectionOffset, SectionOffsetByCU) Loc,
           if isDebugLoclistWriter Loc.2
           then (LocBuffer, SectionOffset, SectionOffsetByCU)
           else
             let CurrCULocationLists := finalizeLoc Loc.2 in
             (LocBuffer ++ CurrCULocationLists,
              SectionOffset + Z.of_nat (length CurrCULocationLists),
              <[Loc.1 := SectionOffset]> SectionOffsetByCU))
        (LocBuffer, SectionOffset, SectionOffsetByCU) Writers.

(** Lines 1364-1412; [SectionOffsetByCU[...]] yields 0 for a missing key. *)
Definition makeFinalLocListsSection (DebugInfoPatcher : PatcherRef)
    (R : DWARFRewriter) : list byte * DWARFRewriter :=
  let '(LocBuffer, SectionOffset, SectionOffsetByCU) :=
    layoutLocLists (map_to_list (LocListWritersByCU R)) (replicate 16 x00) 16 ∅ in
  let R :=
    foldl (λ R Iter,
             foldl (λ R Patch,
                      onPatcher (DWODebugInfoPatcher Iter.1)
                        (λ P, addLE32Patch P (DebugInfoOffset Patch)
                                (default 0 (SectionOffsetByCU !! PatchCUIndex Patch) +
                                 CUWriterOffset Patch)) R)
                   R Iter.2)
          R (map_to_list (DwoLocListDebugInfoPatches R)) in
  let R :=
    foldl (λ R Patch,
             onPatcher DebugInfoPatcher
               (λ P, addLE32Patch P (DebugInfoOffset Patch)
                       (default 0 (SectionOffsetByCU !! PatchCUIndex Patch) +
                        CUWriterOffset Patch)) R)
          R (LocListDebugInfoPatches R) in
  (LocBuffer, R).

(** Lines 930-939: the unit's slice of a section of a package, or the whole
    section; [StringRef::substr] clamps to the end. *)
Definition getSliceData (DWOEntry : option (DWARFSectionKind → Z * Z))
    (OutData : list byte) (Sec : DWARFSectionKind) : list byte * Z :=
  match DWOEntry with
  | Some getContribution =>
      let DWPOffset := (getContribution Sec).1 in
      (take (Z.to_nat (getContribution Sec).2) (drop (Z.to_nat DWPOffset) OutData),
       DWPOffset)
  | None => (OutData, 0)
  end.

(** Lines 915-994. *)
Definition updateDebugData (Section : SectionRef)
    (DWOEntry : option (DWARFSectionKind → Z * Z)) (DWOId : Z)
    (R : DWARFRewriter) : Result (option (list byte) * DWARFRewriter) :=
  let Name := getSectionName Section in
  match KnownSections Name with
  | None => Ok (None, R)
  | Some SectionKind =>
      let OutData := SectionContents Section in
      match SectionKind with
      | DW_SECT_INFO =>
          let '(OutData, DWPOffset) := getSliceData DWOEntry OutData DW_SECT_INFO in
          Storage ← patchBinary (getBinaryDWODebugInfoPatcher R DWOId) OutData DWPOffset;
          Ok (Some Storage, R)
      | DW_SECT_EXT_TYPES =>
          Ok (Some (getSliceData DWOEntry OutData DW_SECT_EXT_TYPES).1, R)
      | DW_SECT_STR_OFFSETS =>
          Ok (Some (getSliceData DWOEntry OutData DW_SECT_STR_OFFSETS).1, R)
      | DW_SECT_ABBREV =>
          Ok (Some (finalizeAbbrev (getBinaryDWOAbbrevWriter R DWOId)), R)
      | DW_SECT_EXT_LOC =>
          match LocListWritersByCU R !! DWOId with
          | None => AssertFail "no location-list writer for the unit"
          | Some LocWriter => Ok (Some (finalizeLoc LocWriter), R)
          end
      | DW_SECT_LINE =>
          Ok (Some (getSliceData DWOEntry OutData DW_SECT_LINE).1, R)
      | DW_SECT_EXT_unknown =>
          Ok (Some OutData,
              if negb (bool_decide (Name = "debug_str.dwo"))
              then warn ("BOLT-WARNING: Unsupported Debug section: " +:+ Name) R
              else R)
      end
  end.

(** Lines 1149-1190: the body of the loop of [writeDWOFiles] for one
    compile unit. *)
Definition writeDWOFile (CU : DWARFUnit)
    (St : list OutputFile * DWONames * DWARFRewriter)
    : Result (list OutputFile * DWONames * DWARFRewriter) :=
  let '(Files, Names, R) := St in
  match getDWOId (Info CU) with
  | None => Ok St
  | Some DWOId =>
      match getDWOCU BC DWOId with
      | None => Ok St
      | Some DWOCU =>
          let CompDir :=
            if bool_decide (DwarfOutputPath opts = "")
            then getCompilationDir CU else DwarfOutputPath opts in
          '(ObjectName, Names) ← getDWOName CU false Names;
          let FullPath := CompDir +:+ "/" +:+ ObjectName in
          let DWOEntry := if IsDWP BC then getFromHash BC DWOId else None in
          '(Emitted, R) ←
            foldlR (λ '(Emitted, R) Section,
                      '(OutData, R) ← updateDebugData Section DWOEntry DWOId R;
                      match OutData with
                      | Some OutData => Ok (Emitted ++ [OutData], R)
                      | None => Ok (Emitted, R)
                      end)
                   ([], R) (DWOFileSections DWOCU);
          Ok (Files ++ [mkOutputFile FullPath Emitted true], Names, R)
      end
  end.

(** Lines 1138-1191. *)
Definition writeDWOFiles (Names : DWONames) (R : DWARFRewriter)
    : Result (list OutputFile * DWONames * DWARFRewriter) :=
  foldlR (λ St CU, writeDWOFile CU St) ([], Names, R) (compile_units BC).

(** The state of the sections loop of [writeDWP] for one unit. *)
Record DWPSectionsState : Type := mkDWPSectionsState {
  CurEntry : UnitIndexEntry;
  CurStrSection : list byte;
  CurStrOffsetSection : list byte;
  StrSectionWrittenOut : bool
}.

(** Lines 1080-1117: one section of the split unit's file. *)
Definition writeDWPSection (DWOEntry : option (DWARFSectionKind → Z * Z))
    (DWOId : Z) (St : DWPSectionsState * DWPOutput * DWARFRewriter)
    (Section : SectionRef)
    : Result (DWPSectionsState * DWPOutput * DWARFRewriter) :=
  let '(Cur, Out, R) := St in
  '(TOutData, R) ← updateDebugData Section DWOEntry DWOId R;
  match TOutData with
  | None => Ok (Cur, Out, R)
  | Some OutData =>
      let Name := getSectionName Section in
      '(Cur, Out) ←
        (if bool_decide (Name = "debug_str.dwo")
         then Ok (mkDWPSectionsState (CurEntry Cur) OutData (CurStrOffsetSection Cur)
                    (StrSectionWrittenOut Cur), Out)
         else
           match KnownSections Name with
           | None => AssertFail "known section expected"
           | Some SectionKind =>
               let IsStrOffsets := bool_decide (SectionKind = DW_SECT_STR_OFFSETS) in
               Index ← getContributionIndex SectionKind;
               let Offset := default 0 (ContributionOffsets Out !! Index) in
               let Length := to_uint32 (Z.of_nat (length OutData)) in
               Ok (mkDWPSectionsState
                     (mkUnitIndexEntry (EntryDWOName (CurEntry Cur))
                        (EntryName (CurEntry Cur))
                        (<[Index := (Offset, Length)]> (Contributions (CurEntry Cur))))
                     (CurStrSection Cur)
                     (if IsStrOffsets then OutData else CurStrOffsetSection Cur)
                     (StrSectionWrittenOut Cur),
                   mkDWPOutput
                     (if IsStrOffsets then DWPFile Out
                      else mkOutputFile (FilePath (DWPFile Out))
                             (EmittedBytes (DWPFile Out) ++ [OutData])
                             (Kept (DWPFile Out)))
                     (<[Index := to_uint32 (Offset + Length)]> (ContributionOffsets Out))
                     (StringsAndOffsets Out) (IndexEntries Out) (IndexWritten Out))
           end);
      if negb (StrSectionWrittenOut Cur) &&
         negb (bool_decide (CurStrOffsetSection Cur = [])) &&
         negb (bool_decide (CurStrSection Cur = []))
      then Ok (mkDWPSectionsState (CurEntry Cur) (CurStrSection Cur)
                 (CurStrOffsetSection Cur) true,
               mkDWPOutput (DWPFile Out) (ContributionOffsets Out)
                 (StringsAndOffsets Out ++ [(CurStrSection Cur, CurStrOffsetSection Cur)])
                 (IndexEntries Out) (IndexWritten Out),
               R)
      else Ok (Cur, Out, R)
  end.

(** The text of the error [buildDuplicateError] of llvm/DWP builds from the
    entry already in the index and the identifiers of the unit that
    collides with it. *)
Variable buildDuplicateError : Z * UnitIndexEntry → CompileUnitIdentifiers → string.

(** Lines 1046-1126: the body of the loop of [writeDWP] for one compile
    unit.  The flag of the result tells that the function returns at once
    (line 1124). *)
Definition writeDWPUnit (CU : DWARFUnit) (Out : DWPOutput) (R : DWARFRewriter)
    : Result (bool * DWPOutput * DWARFRewriter) :=
  match getDWOId (Info CU) with
  | None => Ok (false, Out, R)
  | Some DWOId =>
      match getDWOCU BC DWOId with
      | None => Ok (false, Out, R)
      | Some DWOCU =>
          if bool_decide (getVersion (Info CU) ≠ 4)
          then AssertFail "For DWP output only DWARF4 is supported"
          else
            let NewEntry :=
              mkUnitIndexEntry (UnitDWOName CU) (default "" (UnitShortName CU)) ∅ in
            let DWOEntry := if IsDWP BC then getFromHash BC DWOId else None in
            '(Cur, Out, R) ←
              foldlR (writeDWPSection DWOEntry DWOId)
                     (mkDWPSectionsState NewEntry [] [] false, Out, R)
                     (DWOFileSections DWOCU);
            let CUI := mkCUI DWOId (EntryName (CurEntry Cur))
                             (EntryDWOName (CurEntry Cur)) in
            match list_find (λ P, P.1 = Signature CUI) (IndexEntries Out) with
            | Some (_, P) =>
                Ok (true, Out,
                    warn ("BOLT-ERROR: " +:+ buildDuplicateError P CUI) R)
            | None =>
                Ok (false,
                    mkDWPOutput (DWPFile Out) (ContributionOffsets Out)
                      (StringsAndOffsets Out)
                      (IndexEntries Out ++ [(Signature CUI, CurEntry Cur)])
                      (IndexWritten Out),
                    R)
            end
      end
  end.

Fixpoint writeDWP_loop (CUs : list DWARFUnit) (Out : DWPOutput)
    (R : DWARFRewriter) : Result (bool * DWPOutput * DWARFRewriter) :=
  match CUs with
  | [] => Ok (false, Out, R)
  | CU :: CUs' =>
      '(Return, Out, R) ← writeDWPUnit CU Out R;
      if (Return : bool) then Ok (true, Out, R) else writeDWP_loop CUs' Out R
  end.

(** [llvm::sys::path::filename]: what follows the last separator. *)
Fixpoint path_filename (Path : string) : string :=
  match Path with
  | EmptyString => EmptyString
  | String c Path' =>
      let Rest := path_filename Path' in
      if bool_decide (c = "/"%char) then Rest
      else if bool_decide (Rest = Path') then String c Rest else Rest
  end.

(** Lines 1000-1039 of [writeDWP]: the name of the package, the warning
    about a redirected output, and the empty package. *)
Definition writeDWP_open (R : DWARFRewriter) : DWPOutput * DWARFRewriter :=
  let '(OutputName, R) :=
    if bool_decide (DwarfOutputPath opts = "")
    then (OutputFilename opts +:+ ".dwp", R)
    else (DwarfOutputPath opts +:+ "/" +:+ path_filename (OutputFilename opts) +:+ ".dwp",
          warn "BOLT-WARNING: dwarf-output-path is in effect and .dwp file will possibly be written to another location that is not the same as the executable" R) in
  (mkDWPOutput (mkOutputFile OutputName [] false) ∅ [] [] false, R).

(** Lines 998-1136. *)
Definition writeDWP (R : DWARFRewriter) : Result (DWPOutput * DWARFRewriter) :=
  let '(Out, R) := writeDWP_open R in
  '(Return, Out, R) ← writeDWP_loop (compile_units BC) Out R;
  if (Return : bool) then Ok (Out, R)
  else
    Ok (mkDWPOutput
          (mkOutputFile (FilePath (DWPFile Out)) (EmittedBytes (DWPFile Out)) true)
          (<[1 := 0]> (ContributionOffsets Out))
          (StringsAndOffsets Out) (IndexEntries Out) true,
        R).


(** [DebugARangesSectionWriter::getCUAddressRanges] (DebugData.h is not
    among the sources): the table keyed by the input offset of the unit, as
    the loops of lines 1247 and 1277 meet it.  The container is a
    [std::map], so the units come in ascending order of their offsets. *)
Definition CUOffsetLe (P1 P2 : Z * DebugAddressRangesVector) : Prop :=
  P1.1 ≤ P2.1.

Global Instance CUOffsetLe_dec : RelDecision CUOffsetLe.
Proof. intros P1 P2. unfold CUOffsetLe. apply _. Defined.




(** ** Notions used in the statements *)

(** What can happen to the ranges writer and to the cache of a walk between
    two resets of the cache: a list is added without the cache
    ([addRanges]) or through it ([addRangesCached]). *)
Inductive scopeStep :
    DebugRangesSectionWriter * gmap DebugAddressRangesVector Z →
    DebugRangesSectionWriter * gmap DebugAddressRangesVector Z → Prop :=
| scope_addRanges W C Ranges :
    scopeStep (W, C) ((addRanges W Ranges).2, C)
| scope_addRangesCached W C Ranges :
    scopeStep (W, C)
      ((addRangesCached W Ranges C).1.2, (addRangesCached W Ranges C).2).

(** The invariant of a cache scope: the cache holds non-empty lists only,
    at offsets the writer has already handed out, and no offset twice. *)
Definition scopeInvariant
    (s : DebugRangesSectionWriter * gmap DebugAddressRangesVector Z) : Prop :=
  ∀ (L : DebugAddressRangesVector) (o : Z), s.2 !! L = Some o →
    L ≠ [] ∧ 16 ≤ o < getSectionOffset s.1 ∧
    ∀ L' : DebugAddressRangesVector, s.2 !! L' = Some o → L' = L.

(** The patches [ps], in their order, overwrite the byte range [[a, b)]
    piece by piece: each starts where the one before it ends. *)
Fixpoint tiles (ps : list Patch) (a b : Z) : Prop :=
  match ps with
  | [] => a = b
  | p :: ps' => patchOffsetOf p = a ∧ 0 ≤ patchWidth p ∧ tiles ps' (a + patchWidth p) b
  end.



Global Instance PatcherRef_eq_dec : EqDecision PatcherRef.
Proof. solve_decision. Defined.
Global Instance AbbrevWriterRef_eq_dec : EqDecision AbbrevWriterRef.
Proof. solve_decision. Defined.

(** The rewriter without its patchers and its diagnostics: what a function
    that only adds patches and warnings leaves alone. *)
Definition withoutPatchers (R : DWARFRewriter) : DWARFRewriter :=
  set_errs [] (set_DebugInfoPatcher emptyPatcher (set_BinaryDWODebugInfoPatchers ∅ R)).

(** The filler [convertToRanges] writes over the low-pc field (and, for an
    8-byte high-pc, over the first bytes of the high-pc field). *)
Definition fillerPatches (D : RangeAttrData) (NumBytesToFill : Z)
    (RangesBase : option Z) : list Patch :=
  if bool_decide (getForm (LowPCFormValue D) = DW_FORM_GNU_addr_index)
  then [UDataPatch (LowPCOffset D) 0
          (to_uint32 (Z.abs (to_int32 (HighPCOffset D - LowPCOffset D)) +
                      NumBytesToFill - 8))]
  else
    match RangesBase with
    | Some RB =>
        [UDataPatch (LowPCOffset D) (FormCode DW_FORM_udata) 1;
         UDataPatch (LowPCOffset D + 1) (to_uint64 RB) (NumBytesToFill - 1)]
    | None =>
        if bool_decide (NumBytesToFill = 12)
        then [UDataPatch (LowPCOffset D) (FormCode DW_FORM_addr) 4;
              LE64Patch (LowPCOffset D + 4) 0]
        else [LE64Patch (LowPCOffset D) 0]
    end.

(** An entry whose low-pc attribute is an index into the address table
    (split units). *)
Definition hasIndexedLowPC (DIE : DWARFDie) : bool :=
  match findAttributeInfo DIE DW_AT_low_pc with
  | Some L => bool_decide (getForm (V L) = DW_FORM_GNU_addr_index)
  | None => false
  end.

(** An entry [patchLowHigh] can work on: it has both attributes, and an
    indexed low-pc only inside a split unit, which has a DWO ID. *)
Definition flushable (DIE : DWARFDie) : Prop :=
  is_Some (findAttributeInfo DIE DW_AT_low_pc) ∧
  is_Some (findAttributeInfo DIE DW_AT_high_pc) ∧
  (hasIndexedLowPC DIE = true →
   isDWOUnit (getDwarfUnit DIE) = true ∧ is_Some (getDWOId (getDwarfUnit DIE))).

(** The patcher the low-pc/high-pc patches of an entry go to: the split
    unit's own for an indexed low-pc, the one passed in otherwise. *)
Definition lowHighTarget (DIE : DWARFDie) (DebugInfoPatcher : PatcherRef)
    : PatcherRef :=
  if hasIndexedLowPC DIE
  then match getDWOId (getDwarfUnit DIE) with
       | Some DWOId => DWODebugInfoPatcher DWOId
       | None => DebugInfoPatcher
       end
  else DebugInfoPatcher.

(** The low-pc field receives the low address of the range, or, for an
    indexed low-pc, the index [AddressIndex] of that address on the bytes
    between the two fields. *)
Definition lowPcPatch (DIE : DWARFDie) (L H : AttrInfo) (AddressIndex : Z)
    (Range : DebugAddressRange) : Patch :=
  if hasIndexedLowPC DIE
  then UDataPatch (Offset L) (to_uint32 AddressIndex)
         (Z.abs (to_int32 (Offset H - Offset L)))
  else LE64Patch (Offset L) (to_uint64 (LowPC Range)).

(** The high-pc field receives the length of the range, on 8 or 4 bytes. *)
Definition highPcPatch (H : AttrInfo) (Range : DebugAddressRange) : Patch :=
  if isHighPcFormEightBytes (getForm (V H))
  then LE64Patch (Offset H) (to_uint64 (HighPC Range - LowPC Range))
  else LE32Patch (Offset H) (to_uint32 (HighPC Range - LowPC Range)).

(** The warning a low-pc/high-pc pair draws from [getRangeAttrData]: for
    forms other than an address (direct or indexed) in front of an address
    or a 4- or 8-byte constant, and for a directly encoded low-pc that is
    not followed by the high-pc at once. *)
Definition rangeAttrWarnings (DIE : DWARFDie) : list string :=
  match findAttributeInfo DIE DW_AT_low_pc,
        findAttributeInfo DIE DW_AT_high_pc with
  | Some LowPCVal, Some HighPCVal =>
      let LowForm := getForm (V LowPCVal) in
      let HighForm := getForm (V HighPCVal) in
      if bool_decide ((LowForm ≠ DW_FORM_addr ∧ LowForm ≠ DW_FORM_GNU_addr_index) ∨
                      (HighForm ≠ DW_FORM_addr ∧ HighForm ≠ DW_FORM_data8 ∧
                       HighForm ≠ DW_FORM_data4))
      then ["BOLT-WARNING: unexpected form value. Cannot update DIE"]
      else if bool_decide ((Offset LowPCVal = 4294967295 ∨
                            to_uint64 (Offset LowPCVal + 8) ≠ Offset HighPCVal) ∧
                           LowForm ≠ DW_FORM_GNU_addr_index)
      then ["BOLT-WARNING: high_pc expected immediately after low_pc. Cannot update DIE"]
      else []
  | _, _ => []
  end.

(** Patches are only ever added, and everything but the patchers and the
    diagnostics stays as it is. *)
Definition patchesGrow (R R' : DWARFRewriter) : Prop :=
  withoutPatchers R' = withoutPatchers R ∧
  ∀ T p, p ∈ Patches (getPatcher R T) → p ∈ Patches (getPatcher R' T).

(** The requests [convertToRanges] makes to the abbreviation writer for a
    declaration whose low-pc and high-pc have the given forms. *)
Definition conversionPatches (Unit : UnitInfo)
    (Abbrev : DWARFAbbreviationDeclaration) (RangesBase : option Z)
    (LowPCForm HighPCForm : Form) : list AbbrevPatchInfo :=
  match RangesBase with
  | Some _ =>
      [mkAbbrevPatch (getOffset Unit) (AbbrevPtr Abbrev) DW_AT_low_pc
         DW_AT_GNU_ranges_base DW_FORM_indirect]
  | None =>
      if bool_decide (LowPCForm ≠ DW_FORM_GNU_addr_index) &&
         isHighPcFormEightBytes HighPCForm
      then [mkAbbrevPatch (getOffset Unit) (AbbrevPtr Abbrev) DW_AT_low_pc
              DW_AT_low_pc DW_FORM_indirect]
      else []
  end ++
  [mkAbbrevPatch (getOffset Unit) (AbbrevPtr Abbrev) DW_AT_high_pc DW_AT_ranges
     DW_FORM_sec_offset].

(** The base an offset into the ranges section is written relative to: the
    range base of the patcher for an entry with an indexed low-pc (split
    units), nothing otherwise. *)
Definition rangesBaseOffset (DIE : DWARFDie) (P : SimpleBinaryPatcher) : Z :=
  if hasIndexedLowPC DIE then to_uint32 (RangeBase P) else 0.

(** The patch that makes a converted entry refer to the ranges section. *)
Definition rangesOffsetPatch (DIE : DWARFDie) (H : AttrInfo) (nbf : Z)
    (RangesSectionOffset : Z) (P : SimpleBinaryPatcher) : Patch :=
  LE32Patch (Offset H + nbf - 8)
    (to_uint32 (RangesSectionOffset - rangesBaseOffset DIE P)).

(** The rewriter without its abbreviation writers. *)
Definition withoutAbbrevWriters (R : DWARFRewriter) : DWARFRewriter :=
  set_AbbrevWriter emptyAbbrevWriter (set_BinaryDWOAbbrevWriters ∅ R).

(** How often the writer was asked to turn the high-pc attribute of the
    declaration at address [a] into something else. *)
Definition conversionsOf (a : Z) (W : DebugAbbrevWriter) : nat :=
  length (filter (λ p, PatchAbbrev p = a ∧ OldAttrTag p = DW_AT_high_pc)
                 (AbbrevPatches W)).

(** Nothing was converted and nothing was asked of the abbreviation writers
    between [R] and [R']. *)
Definition sameConversions (R R' : DWARFRewriter) : Prop :=
  ConvertedRangesAbbrevs R' = ConvertedRangesAbbrevs R ∧
  ∀ AW, getAbbrevWriter R' AW = getAbbrevWriter R AW.

Global Instance sameConversions_refl : Reflexive sameConversions.
Proof. intros R. by split. Qed.

Global Instance sameConversions_trans : Transitive sameConversions.
Proof.
  intros R1 R2 R3 [HC1 HG1] [HC2 HG2]. split; [congruence|].
  intros AW. by rewrite HG2, HG1.
Qed.

(** Between [R] and [R'] the declaration at [a] was asked to be converted
    exactly when it entered the set of converted declarations. *)
Definition conversionBalance (a : Z) (AW : AbbrevWriterRef)
    (R R' : DWARFRewriter) : Prop :=
  ConvertedRangesAbbrevs R ⊆ ConvertedRangesAbbrevs R' ∧
  (conversionsOf a (getAbbrevWriter R' AW) +
   (if decide (a ∈ ConvertedRangesAbbrevs R) then 1 else 0) =
   conversionsOf a (getAbbrevWriter R AW) +
   (if decide (a ∈ ConvertedRangesAbbrevs R') then 1 else 0))%nat.

Global Instance conversionBalance_refl a AW : Reflexive (conversionBalance a AW).
Proof. intros R. by split. Qed.

Global Instance conversionBalance_trans a AW : Transitive (conversionBalance a AW).
Proof.
  intros R1 R2 R3 [HS1 HB1] [HS2 HB2]. split; [by etrans|]. lia.
Qed.

(** A run of subprograms of one unit through the deferral logic (lines
    369-393), each with the output ranges of its function. *)
Definition delayConversions (Unit : UnitInfo) (DebugInfoPatcher : PatcherRef)
    (AbbrevWriter : AbbrevWriterRef)
    (Calls : list (DWARFDie * DebugAddressRangesVector)) (R : DWARFRewriter)
    : Result DWARFRewriter :=
  foldlR (λ R Call, delayConversion Unit Call.1 Call.2 DebugInfoPatcher AbbrevWriter R)
         R Calls.



(** ** Notions the statements about the location-list section use *)

(** The bytes the writers of [Writers] that are not split-unit writers
    contribute to the final section, in the order of [Writers], and their
    size. *)
Definition locListsBytes (Writers : list (Z * DebugLocWriter)) : list byte :=
  foldr (λ Loc Rest,
           if isDebugLoclistWriter Loc.2 then Rest else finalizeLoc Loc.2 ++ Rest)
        [] Writers.

Definition locListsSize (Writers : list (Z * DebugLocWriter)) : Z :=
  Z.of_nat (length (locListsBytes Writers)).

(** The patch lines 1397-1399 and 1405-1407 add for a deferred entry. *)
Definition locListPatch (SectionOffsetByCU : gmap Z Z)
    (p : LocListDebugInfoPatchType) : Patch :=
  LE32Patch (DebugInfoOffset p)
    (to_uint32 (default 0 (SectionOffsetByCU !! PatchCUIndex p) + CUWriterOffset p)).

(** The resolved offset in the words of the specification: "the sum of all
    preceding units' finalized buffer sizes plus its local offset". *)
Definition specResolvedOffset (Preceding : list (Z * DebugLocWriter))
    (p : LocListDebugInfoPatchType) : Z :=
  foldr (λ Loc n, Z.of_nat (length (finalizeLoc Loc.2)) + n) 0 Preceding +
  CUWriterOffset p.

(** ** Notions the statements about the package use *)

(** The sections loop leaves the index of the package, the flag of the
    output file and the flag of the index as they are. *)
Definition sameIndex (Out Out' : DWPOutput) : Prop :=
  IndexEntries Out' = IndexEntries Out ∧
  Kept (DWPFile Out') = Kept (DWPFile Out) ∧
  IndexWritten Out' = IndexWritten Out.

Definition sameIndexState
    (St St' : DWPSectionsState * DWPOutput * DWARFRewriter) : Prop :=
  sameIndex St.1.2 St'.1.2.

Global Instance sameIndexState_refl : Reflexive sameIndexState.
Proof. by intros [[??]?]. Qed.

Global Instance sameIndexState_trans : Transitive sameIndexState.
Proof.
  intros [[??]?] [[??]?] [[??]?] (H1 & H2 & H3) (H4 & H5 & H6).
  unfold sameIndexState, sameIndex in *. cbn in *.
  split; [congruence|]. split; congruence.
Qed.

(** The package is still open: the file is not kept and no index is
    written. *)
Definition packageOpen (Out : DWPOutput) : Prop :=
  Kept (DWPFile Out) = false ∧ IndexWritten Out = false.

(** ** Small inputs the functions are run on *)

(** A unit of DWARF 4 with 8-byte addresses and no split counterpart. *)
Definition exampleUnitInfo : UnitInfo := mkUnitInfo 0 11 64 None false None 8 4.

(** A declaration of subprograms with a low-pc address and a 4-byte
    high-pc, and a subprogram entry of this declaration. *)
Definition exampleSubprogramAbbrev : DWARFAbbreviationDeclaration :=
  mkAbbrev 1 DW_TAG_subprogram false
    [mkAttributeSpec DW_AT_low_pc DW_FORM_addr;
     mkAttributeSpec DW_AT_high_pc DW_FORM_data4].

Definition exampleSubprogram (At Low Size : Z) : DWARFDebugInfoEntry :=
  mkEntry At (At + 13) (Some exampleSubprogramAbbrev)
    [mkAttrInfo (mkFormValue DW_FORM_addr Low (Some Low) []) (At + 1);
     mkAttrInfo (mkFormValue DW_FORM_data4 Size None []) (At + 9)]
    (Some (Low, Low + Size)) (Some [mkRange Low (Low + Size)]).

Definition exampleDie (E : DWARFDebugInfoEntry) : DWARFDie :=
  mkDie exampleUnitInfo E.

(** The rewriter before the first unit. *)
Definition emptyRewriter : DWARFRewriter :=
  mkRewriter ∅ (mkRangesWriter []) (mkStrWriter ∅ 0) (mkAddrWriter ∅)
    emptyAbbrevWriter ∅ emptyPatcher ∅ ∅ [] ∅ ∅ ∅ [].

(** An address table that gives every address the index 0. *)
Definition exampleIndexFromAddress (W : DebugAddrWriter) (Address DWOId : Z) : Z := 0.

(** A [.gdb_index] of version 7 with one compile unit at offset 0, one
    entry in its address table, and four bytes each of symbol table and
    constant pool. *)
Definition exampleGdbIndex : list byte :=
  writeGdbIndexHeader (mkGdbIndexHeader 7 24 40 40 60 64) ++
  write64le 0 ++ write64le 64 ++
  write64le 4096 ++ write64le 4112 ++ write32le 0 ++
  write32le 1 ++ write32le 2.

(** A rewriter that has deferred one subprogram with a single range. *)
Definition examplePendingRewriter : DWARFRewriter :=
  set_PendingRanges
    {[ 1 := [(exampleDie (exampleSubprogram 11 4096 16), mkRange 8192 8224)] ]}
    emptyRewriter.

(** A rewriter that has deferred a subprogram whose high-pc does not
    follow its low-pc at once (low-pc at 12, high-pc at 24), and the
    subprogram above. *)
Definition exampleGapSubprogram : DWARFDebugInfoEntry :=
  mkEntry 11 28 (Some exampleSubprogramAbbrev)
    [mkAttrInfo (mkFormValue DW_FORM_addr 4096 (Some 4096) []) 12;
     mkAttrInfo (mkFormValue DW_FORM_data4 16 None []) 24]
    (Some (4096, 4112)) (Some [mkRange 4096 4112]).

Definition exampleGapPendingRewriter : DWARFRewriter :=
  set_PendingRanges
    {[ 1 := [(exampleDie exampleGapSubprogram, mkRange 8192 8224);
             (exampleDie (exampleSubprogram 40 4200 16), mkRange 8300 8316)] ]}
    emptyRewriter.

(** A split unit with the DWO ID 7 and a subprogram whose low-pc is an
    index into the address table, one byte wide, in front of a 4-byte
    high-pc. *)
Definition exampleSplitUnitInfo : UnitInfo :=
  mkUnitInfo 0 11 64 (Some 7) true None 8 4.







Definition exampleUnit (Entries : list DWARFDebugInfoEntry) : DWARFUnit :=
  mkUnit exampleUnitInfo Entries (λ _, ([], false)) (λ _, None) "" None "" [].

(** A function the relocation has removed: nothing is left of its ranges. *)
Definition removedFunction : BinaryFunction :=
  mkBinaryFunction [] (λ _, []) (λ _, []) (λ Address, Address).

Definition exampleOptions : Options := mkOptions 0 "a.out" false "" false.

Definition exampleContext (CUs : list DWARFUnit) (LoadedDWO : Z → option DWARFUnit)
    : BinaryContext :=
  mkBinaryContext CUs LoadedDWO (λ _, None) (λ _, Some removedFunction)
    (λ Ranges, Ranges) None false (λ _, None).

Definition exampleSerializeLocList (IsLoclists : bool) (L : DebugLocationsVector)
    : list byte := [].

Definition exampleFinalizeAbbrev (W : DebugAbbrevWriter) : list byte := [].

Definition exampleDuplicateError (P : Z * UnitIndexEntry)
    (CUI : CompileUnitIdentifiers) : string := "duplicate DWO ID".

(** Two units with location lists of 24 and 8 bytes, and one deferred entry
    for each; the writer of the unit 1 comes first in the iteration. *)
Definition exampleLocWriters : gmap Z DebugLocWriter :=
  {[ 0 := mkLocWriter false (replicate 24 x01);
     1 := mkLocWriter false (replicate 8 x02) ]}.

Definition exampleLocRewriter : DWARFRewriter :=
  set_LocListDebugInfoPatches [mkLocListPatch 100 0 4; mkLocListPatch 50 1 0]
    (set_LocListWritersByCU exampleLocWriters emptyRewriter).

(** A skeleton unit with the DWO ID [DWOId]: a root entry with a ranges
    attribute. *)
Definition exampleSkeletonAbbrev : DWARFAbbreviationDeclaration :=
  mkAbbrev 5 DW_TAG_compile_unit false
    [mkAttributeSpec DW_AT_ranges DW_FORM_sec_offset].

Definition exampleSkeleton (DWOId : Z) (Name : string) : DWARFUnit :=
  mkUnit (mkUnitInfo 0 11 64 (Some DWOId) false None 8 4)
    [mkEntry 11 16 (Some exampleSkeletonAbbrev)
       [mkAttrInfo (mkFormValue DW_FORM_sec_offset 0 None []) 12]
       None (Some [mkRange 4096 4200])]
    (λ _, ([], false)) (λ _, None) Name (Some Name) "/build" [].

(** The split unit of a skeleton, loaded from an object file without
    sections. *)
Definition exampleSplitUnit : DWARFUnit :=
  mkUnit exampleSplitUnitInfo [] (λ _, ([], false)) (λ _, None) "" None "" [].

(** The rewriter when the walk starts: one location-list writer for the
    unit index 0. *)
Definition exampleStartRewriter : DWARFRewriter :=
  set_LocListWritersByCU {[ 0 := mkLocWriter false [] ]} emptyRewriter.

(** Two skeleton units that carry the same DWO ID, whose split unit is
    loaded. *)
Definition exampleDuplicateContext : BinaryContext :=
  exampleContext [exampleSkeleton 7 "a.dwo"; exampleSkeleton 7 "b.dwo"]
    (λ DWOId, if bool_decide (DWOId = 7) then Some exampleSplitUnit else None).

(** A skeleton unit whose split unit could not be loaded. *)
Definition exampleUnloadedContext : BinaryContext :=
  exampleContext [exampleSkeleton 9 "c.dwo"] (λ _, None).







(** Options with an output directory for the split-unit files. *)
Definition exampleOutputPathOptions : Options :=
  mkOptions 0 "a.out" false "/out" false.

(** A location list of a unit with the base address 4096: a pair, a new
    base address, a pair, the end, and a pair that is not reached. *)
Definition exampleOffsetPair (Begin End : Z) : DWARFLocationEntry :=
  mkDWARFLocationEntry DW_LLE_offset_pair Begin End true [x50].

Definition exampleLocationList : list DWARFLocationEntry :=
  [exampleOffsetPair 0 4;
   mkDWARFLocationEntry DW_LLE_base_address 8192 0 true [];
   exampleOffsetPair 16 32;
   mkDWARFLocationEntry DW_LLE_end_of_list 0 0 true [];
   exampleOffsetPair 64 128].

(** The DWO ID of a compile unit whose split unit is loaded. *)
Definition loadedDWOId (CU : DWARFUnit) : option Z :=
  DWOId ← getDWOId (Info CU);
  _ ← getDWOCU BC DWOId;
  Some DWOId.

(** Two skeleton units: the split unit of the first is loaded, that of the
    second is not. *)
Definition exampleLoadedContext : BinaryContext :=
  exampleContext [exampleSkeleton 7 "a"; exampleSkeleton 9 "c"]
    (λ DWOId, if bool_decide (DWOId = 7) then Some exampleSplitUnit else None).

(** ** What the walk never takes back *)

(** [R'] extends [R]: every patch list, every list of requests to an
    abbreviation writer, the lists of the ranges section, the deferred
    location-list entries and the diagnostics of [R] are still there, in
    front of what was added; the declarations marked converted are still
    marked; and every location-list writer is still there. *)
Definition extends (R R' : DWARFRewriter) : Prop :=
  (∀ T, Patches (getPatcher R T) `prefix_of` Patches (getPatcher R' T)) ∧
  (∀ AW, AbbrevPatches (getAbbrevWriter R AW) `prefix_of`
         AbbrevPatches (getAbbrevWriter R' AW)) ∧
  AddedRanges (RangesSectionWriter R) `prefix_of`
    AddedRanges (RangesSectionWriter R') ∧
  ConvertedRangesAbbrevs R ⊆ ConvertedRangesAbbrevs R' ∧
  LocListDebugInfoPatches R `prefix_of` LocListDebugInfoPatches R' ∧
  dom (LocListWritersByCU R) ⊆ dom (LocListWritersByCU R') ∧
  errs R `prefix_of` errs R'.

Global Instance extends_refl : Reflexive extends.
Proof. intros R. by repeat split. Qed.

Global Instance extends_trans : Transitive extends.
Proof.
  intros R1 R2 R3 (H1 & H2 & H3 & H4 & H5 & H6 & H7)
    (K1 & K2 & K3 & K4 & K5 & K6 & K7).
  split; [intros T; etrans; [apply H1|apply K1]|].
  split; [intros AW; etrans; [apply H2|apply K2]|].
  split; [etrans; [apply H3|apply K3]|].
  split; [etrans; [apply H4|apply K4]|].
  split; [etrans; [apply H5|apply K5]|].
  split; [etrans; [apply H6|apply K6]|].
  etrans; [apply H7|apply K7].
Qed.

(** A skeleton unit with the name attributes [updateDWONameCompDir] asks
    for: a root entry with the name of the split unit, the compilation
    directory (both offsets into the string section) and a ranges
    attribute. *)
Definition exampleNamedSkeletonAbbrev : DWARFAbbreviationDeclaration :=
  mkAbbrev 6 DW_TAG_compile_unit false
    [mkAttributeSpec DW_AT_GNU_dwo_name (DW_FORM_other 14);
     mkAttributeSpec DW_AT_comp_dir (DW_FORM_other 14);
     mkAttributeSpec DW_AT_ranges DW_FORM_sec_offset].

Definition exampleNamedSkeleton (DWOId : Z) (Name : string) : DWARFUnit :=
  mkUnit (mkUnitInfo 0 11 64 (Some DWOId) false None 8 4)
    [mkEntry 11 24 (Some exampleNamedSkeletonAbbrev)
       [mkAttrInfo (mkFormValue (DW_FORM_other 14) 0 None []) 12;
        mkAttrInfo (mkFormValue (DW_FORM_other 14) 8 None []) 16;
        mkAttrInfo (mkFormValue DW_FORM_sec_offset 0 None []) 20]
       None (Some [mkRange 4096 4200])]
    (λ _, ([], false)) (λ _, None) Name (Some Name) "/build" [].

(** Two such units with the DWO ID 7, whose split unit is loaded. *)
Definition exampleRepeatedContext : BinaryContext :=
  exampleContext [exampleNamedSkeleton 7 "a"; exampleNamedSkeleton 7 "b"]
    (λ DWOId, if bool_decide (DWOId = 7) then Some exampleSplitUnit else None).


(** A context without functions, and one in which every address belongs to
    a function that the relocation has left where it was. *)
Definition exampleNoFunctionContext : BinaryContext :=
  mkBinaryContext [] (λ _, None) (λ _, None) (λ _, None) (λ Ranges, Ranges)
    None false (λ _, None).

Definition keptFunction : BinaryFunction :=
  mkBinaryFunction [mkRange 4096 4128] (λ Ranges, Ranges) (λ LL, LL)
    (λ Address, Address).

Definition exampleKeptContext : BinaryContext :=
  mkBinaryContext [] (λ _, None) (λ _, Some keptFunction) (λ _, Some keptFunction)
    (λ Ranges, Ranges) None false (λ _, None).

(** A unit with the base address 4096 whose location lists are all the
    example list, and a location attribute of the section-offset form. *)
Definition exampleLocationUnit : DWARFUnit :=
  mkUnit (mkUnitInfo 0 11 64 None false (Some 4096) 8 4) []
    (λ _, (exampleLocationList, false)) (λ _, None) "" None "" [].

Definition exampleLocationAttr : AttrInfo :=
  mkAttrInfo (mkFormValue DW_FORM_sec_offset 0 None []) 30.

(** An entry of some other tag with nothing but a low-pc. *)
Definition exampleLabelAbbrev : DWARFAbbreviationDeclaration :=
  mkAbbrev 7 (DW_TAG_other 10) false [mkAttributeSpec DW_AT_low_pc DW_FORM_addr].

Definition exampleLabel : DWARFDie :=
  exampleDie
    (mkEntry 30 39 (Some exampleLabelAbbrev)
       [mkAttrInfo (mkFormValue DW_FORM_addr 4096 (Some 4096) []) 31] None None).

(** The root entry of a skeleton unit with a low-pc and a ranges
    attribute, and no ranges base. *)
Definition exampleRootAbbrev : DWARFAbbreviationDeclaration :=
  mkAbbrev 8 DW_TAG_compile_unit false
    [mkAttributeSpec DW_AT_low_pc DW_FORM_addr;
     mkAttributeSpec DW_AT_ranges DW_FORM_sec_offset].

Definition exampleRoot : DWARFDie :=
  exampleDie
    (mkEntry 11 24 (Some exampleRootAbbrev)
       [mkAttrInfo (mkFormValue DW_FORM_addr 0 (Some 0) []) 12;
        mkAttrInfo (mkFormValue DW_FORM_sec_offset 0 None []) 20]
       None (Some [mkRange 4096 4200])).

(** ** The offsets of the line tables (lines 677-779) *)

Definition DW_AT_stmt_list : Attribute := DW_AT_other 16.

(** A fragment of the line section of the output: its kind and the size of
    its contents. *)
Inductive FragmentType : Type :=
| FT_Dwarf
| FT_Data
| FT_other.

Record MCFragment : Type := mkFragment {
  getKind : FragmentType;
  getContentsSize : Z
}.

(** The label of a line table: the fragment it lies in, as a position in
    the list of the section's fragments, and its offset in that fragment. *)
Record MCSymbol : Type := mkSymbol {
  getFragment : nat;
  getSymbolOffset : Z
}.

(** What [updateLineTableOffsets] reads besides the compile units: the
    fragments of the line section, the label of the line table of a unit
    ([getMCDwarfLineTable(CUID).getLabel()], absent for a unit without a
    table), the type units, and whether the two sections it adds relocations
    to exist. *)
Record LineTables : Type := mkLineTables {
  LineSection : list MCFragment;
  getLabel : Z → option MCSymbol;
  getNumTypeUnits : nat;
  types_section_units : list DWARFUnit;
  HasDebugInfoSection : bool;
  HasDebugTypesSection : bool
}.

(** A pending relocation of type [R_X86_64_32] without a symbol. *)
Record Relocation : Type := mkRelocation {
  RelocationOffset : Z;
  Addend : Z
}.

Record LineTableState : Type := mkLineTableState {
  CurrentFragment : nat;
  CurrentOffset : Z;
  LineOffset : Z;
  DebugLineOffsetMap : gmap Z Z;
  DebugInfoRelocations : list Relocation;
  DebugTypesRelocations : list Relocation
}.

Record LineTableUpdate : Type := mkLineTableUpdate {
  InfoRelocations : list Relocation;
  TypesRelocations : list Relocation;
  DebugInfoFinalized : bool;
  DebugTypesFinalized : bool
}.

(** Lines 698-704; [toSectionOffset] gives the raw value of a form of the
    section-offset class. *)
Definition GetStatementListValue (Unit : DWARFUnit) : Result Z :=
  match getUnitDIE Unit ≫= λ DIE, find DIE DW_AT_stmt_list with
  | Some StmtList =>
      if isSectionOffsetClass (getForm StmtList)
      then Ok (getRawUValue StmtList)
      else AssertFail "Was not able to retreive value of DW_AT_stmt_list."
  | None => AssertFail "Was not able to retreive value of DW_AT_stmt_list."
  end.

(** Lines 723-739: the iterator walks the fragments up to the one of the
    label.  [Rest] are the fragments from the iterator on; behind the last
    one the iterator cannot be dereferenced. *)
Fixpoint advanceToFragment (Rest : list MCFragment)
    (CurrentFragment Fragment : nat) (CurrentOffset Offset : Z)
    : Result (nat * Z * Z) :=
  match Rest with
  | [] => OutOfBounds
  | F :: Rest =>
      if bool_decide (CurrentFragment = Fragment)
      then Ok (CurrentFragment, CurrentOffset, Offset)
      else
        match getKind F with
        | FT_Dwarf | FT_Data =>
            advanceToFragment Rest (S CurrentFragment) Fragment 0
              (to_uint64 (Offset + (getContentsSize F - CurrentOffset)))
        | FT_other =>
            AssertFail
              ".debug_line section shouldn't contain other types of fragments."
        end
  end.

(** Lines 706-755, one compile unit. *)
Definition updateLineTableOffsetsCU (LT : LineTables) (St : LineTableState)
    (CU : DWARFUnit) : Result LineTableState :=
  let CUID := to_uint32 (getOffset (Info CU)) in
  match getLabel LT CUID with
  | None => Ok St
  | Some Label =>
      match getUnitDIE CU ≫= λ DIE, findAttributeInfo DIE DW_AT_stmt_list with
      | None => Ok St
      | Some AttrVal =>
          let LTOffset := Offset AttrVal in
          '(Current, CurrentOffset, Offset) ←
            advanceToFragment (drop (CurrentFragment St) (LineSection LT))
              (CurrentFragment St) (getFragment Label) (CurrentOffset St)
              (LineOffset St);
          let Offset :=
            to_uint64 (Offset + (getSymbolOffset Label - CurrentOffset)) in
          let CurrentOffset := getSymbolOffset Label in
          StmtList ← GetStatementListValue CU;
          if HasDebugInfoSection LT
          then
            Ok (mkLineTableState Current CurrentOffset Offset
                  (<[StmtList := Offset]> (DebugLineOffsetMap St))
                  (DebugInfoRelocations St ++ [mkRelocation LTOffset Offset])
                  (DebugTypesRelocations St))
          else AssertFail ".debug_info section must exist"
      end
  end.

(** Lines 757-769, one type unit. *)
Definition updateLineTableOffsetsTU (LT : LineTables) (St : LineTableState)
    (TU : DWARFUnit) : Result LineTableState :=
  match getUnitDIE TU ≫= λ DIE, findAttributeInfo DIE DW_AT_stmt_list with
  | None => Ok St
  | Some AttrVal =>
      let LTOffset := Offset AttrVal in
      StmtList ← GetStatementListValue TU;
      match DebugLineOffsetMap St !! StmtList with
      | None => AssertFail "Type Unit Updated Line Number Entry does not exist."
      | Some NewOffset =>
          if HasDebugTypesSection LT
          then
            Ok (mkLineTableState (CurrentFragment St) (CurrentOffset St)
                  (LineOffset St) (DebugLineOffsetMap St)
                  (DebugInfoRelocations St)
                  (DebugTypesRelocations St ++ [mkRelocation LTOffset NewOffset]))
          else AssertFail "ErrorOr has no value"
      end
  end.

(** Lines 677-779. *)
Definition updateLineTableOffsets (LT : LineTables) : Result LineTableUpdate :=
  if bool_decide (getNumTypeUnits LT = 0%nat) || HasDebugTypesSection LT
  then
    St ← foldlR (updateLineTableOffsetsCU LT)
           (mkLineTableState 0 0 0 ∅ [] []) (compile_units BC);
    St ← foldlR (updateLineTableOffsetsTU LT) St (types_section_units LT);
    Ok (mkLineTableUpdate (DebugInfoRelocations St) (DebugTypesRelocations St)
          (HasDebugInfoSection LT) (HasDebugTypesSection LT))
  else AssertFail "Was not able to retrieve Debug Types section.".

(** The offset of a label from the start of the section: the sizes of the
    fragments in front of the label's, plus the offset in its fragment. *)
Definition fragmentStart (Fragments : list MCFragment) (n : nat) : Z :=
  foldr (λ F s, getContentsSize F + s) 0 (take n Fragments).

Definition labelOffset (LT : LineTables) (Label : MCSymbol) : Z :=
  to_uint64 (fragmentStart (LineSection LT) (getFragment Label) +
             getSymbolOffset Label).

(** The units [updateLineTableOffsets] gives a relocation: those with a
    line-table label and a statement-list attribute. *)
Definition lineTableOf (LT : LineTables) (CU : DWARFUnit)
    : option (AttrInfo * MCSymbol) :=
  Label ← getLabel LT (to_uint32 (getOffset (Info CU)));
  AttrVal ← getUnitDIE CU ≫= (λ DIE, findAttributeInfo DIE DW_AT_stmt_list);
  Some (AttrVal, Label).

Definition statementList (AttrVal : AttrInfo) : Z := getRawUValue (V AttrVal).

(** What the walk over the compile units keeps: the running offset is the
    offset of the iterator's position in the line section. *)
Definition lineOffsetKept (LT : LineTables) (St : LineTableState) : Prop :=
  LineOffset St =
  to_uint64 (fragmentStart (LineSection LT) (CurrentFragment St) + CurrentOffset St).

(** Two compile units with a statement list at 0 and at 40, and a type unit
    that shares the second one. *)
Definition exampleLineAbbrev : DWARFAbbreviationDeclaration :=
  mkAbbrev 9 DW_TAG_compile_unit false
    [mkAttributeSpec DW_AT_stmt_list DW_FORM_sec_offset].

Definition exampleLineUnit (UnitOffset StmtList : Z) : DWARFUnit :=
  mkUnit (mkUnitInfo UnitOffset 11 (UnitOffset + 64) None false None 8 4)
    [mkEntry (UnitOffset + 11) (UnitOffset + 16) (Some exampleLineAbbrev)
       [mkAttrInfo (mkFormValue DW_FORM_sec_offset StmtList None [])
          (UnitOffset + 12)]
       None None]
    (λ _, ([], false)) (λ _, None) "" None "" [].

Definition exampleLineContext : BinaryContext :=
  exampleContext [exampleLineUnit 0 0; exampleLineUnit 64 40] (λ _, None).

(** The new line section: three fragments of 30, 20 and 50 bytes; the table
    of the first unit starts the section, the table of the second one lies
    6 bytes into the second fragment. *)
Definition exampleLineTables : LineTables :=
  mkLineTables
    [mkFragment FT_Data 30; mkFragment FT_Dwarf 20; mkFragment FT_Data 50]
    (λ CUID, if bool_decide (CUID = 0) then Some (mkSymbol 0 0)
             else if bool_decide (CUID = 64) then Some (mkSymbol 1 6)
             else None)
    1 [exampleLineUnit 128 40] true true.

(** A main unit and the split unit 7, whose writer is of the loclists kind,
    with one deferred location list of the split unit. *)
Definition exampleSplitLocRewriter : DWARFRewriter :=
  set_DwoLocListDebugInfoPatches {[ 7 := [mkLocListPatch 30 7 12] ]}
    (set_LocListWritersByCU
       {[ 0 := mkLocWriter false []; 7 := mkLocWriter true [] ]} emptyRewriter).

(** * Properties *)

(** ** Bytes *)

Lemma Z_of_byte_range b : 0 ≤ Z_of_byte b < 256.
Proof.
  unfold Z_of_byte. pose proof (Byte.to_N_bounded b). lia.
Qed.

Lemma Z_of_byte_of_Z z : Z_of_byte (byte_of_Z z) = z mod 256.
Proof.
  unfold Z_of_byte, byte_of_Z.
  pose proof (Z.mod_pos_bound z 256 eq_refl) as Hz.
  destruct (Byte.of_N (Z.to_N (z mod 256))) as [b|] eqn:E; simpl.
  - apply Byte.to_of_N in E. rewrite E. lia.
  - apply Byte.of_N_None_iff in E. lia.
Qed.

Lemma length_writeLE n v : length (writeLE n v) = n.
Proof. revert v. induction n as [|n IH]; intros v; simpl; [done|]. by rewrite IH. Qed.

Lemma readLE_writeLE n v : readLE (writeLE n v) = v mod 256 ^ Z.of_nat n.
Proof.
  revert v. induction n as [|n IH]; intros v.
  - simpl. by rewrite Z.mod_1_r.
  - cbn [writeLE readLE]. rewrite Z_of_byte_of_Z, IH.
    rewrite Nat2Z.inj_succ, Z.pow_succ_r by lia.
    rewrite Z.rem_mul_r by lia. lia.
Qed.

(** ** [.gdb_index] regeneration *)

Lemma to_uint32_small x : 0 ≤ x < 2 ^ 32 → to_uint32 x = x.
Proof. intros. unfold to_uint32. by apply Z.mod_small. Qed.

Lemma to_uint64_small x : 0 ≤ x < 2 ^ 64 → to_uint64 x = x.
Proof. intros. unfold to_uint64. by apply Z.mod_small. Qed.

Lemma to_int32_small x : - 2 ^ 31 ≤ x < 2 ^ 31 → to_int32 x = x.
Proof. intros. unfold to_int32. rewrite Z.mod_small; lia. Qed.

Lemma to_int32_to_uint32 x : to_int32 (to_uint32 x) = to_int32 x.
Proof.
  unfold to_int32, to_uint32. f_equal.
  rewrite Zplus_mod_idemp_l. done.
Qed.

Lemma slice_Ok bs off len :
  0 ≤ off → 0 ≤ len → off + len ≤ Z.of_nat (length bs) →
  slice bs off len = Ok (take (Z.to_nat len) (drop (Z.to_nat off) bs)).
Proof.
  intros. unfold slice. rewrite bool_decide_eq_true_2; [done|lia].
Qed.

Lemma slice_inv bs off len r :
  slice bs off len = Ok r →
  0 ≤ off ∧ 0 ≤ len ∧ off + len ≤ Z.of_nat (length bs) ∧
  r = take (Z.to_nat len) (drop (Z.to_nat off) bs).
Proof.
  unfold slice. case_bool_decide; [|done]. intros [= <-]. repeat split; lia.
Qed.

Lemma slice_app_mid pre mid post :
  slice (pre ++ mid ++ post) (Z.of_nat (length pre)) (Z.of_nat (length mid)) = Ok mid.
Proof.
  rewrite slice_Ok; rewrite ?length_app; try lia.
  rewrite !Nat2Z.id, drop_app_length, take_app_length. done.
Qed.

Lemma read32le_here v rest off bs :
  0 ≤ off → drop (Z.to_nat off) bs = write32le v ++ rest →
  read32le bs off = Ok (to_uint32 v).
Proof.
  intros Hoff Hd. unfold read32le, slice.
  assert (4 ≤ Z.of_nat (length (drop (Z.to_nat off) bs))) as Hl.
  { rewrite Hd, length_app. unfold write32le. rewrite length_writeLE. lia. }
  rewrite length_drop in Hl.
  rewrite bool_decide_eq_true_2 by lia. cbn [mbind Result_bind].
  rewrite Hd. change (Z.to_nat 4) with (length (write32le v)) at 1.
  rewrite take_app_length. f_equal. apply (readLE_writeLE 4).
Qed.

Lemma parse_write_header H rest :
  parseGdbIndexHeader (writeGdbIndexHeader H ++ rest) =
  Ok (mkGdbIndexHeader (to_uint32 (Version H)) (to_uint32 (CUListOffset H))
        (to_uint32 (CUTypesOffset H)) (to_uint32 (AddressTableOffset H))
        (to_uint32 (SymbolTableOffset H)) (to_uint32 (ConstantPoolOffset H))).
Proof.
  unfold parseGdbIndexHeader, writeGdbIndexHeader.
  rewrite <- !app_assoc.
  erewrite (read32le_here (Version H) _ 0); [|lia|reflexivity].
  erewrite (read32le_here (CUListOffset H) _ 4); [|lia|reflexivity].
  erewrite (read32le_here (CUTypesOffset H) _ 8); [|lia|reflexivity].
  erewrite (read32le_here (AddressTableOffset H) _ 12); [|lia|reflexivity].
  erewrite (read32le_here (SymbolTableOffset H) _ 16); [|lia|reflexivity].
  erewrite (read32le_here (ConstantPoolOffset H) _ 20); [|lia|reflexivity].
  reflexivity.
Qed.

Lemma read64le_here v rest off bs :
  0 ≤ off → drop (Z.to_nat off) bs = write64le v ++ rest →
  read64le bs off = Ok (to_uint64 v).
Proof.
  intros Hoff Hd. unfold read64le, slice.
  assert (8 ≤ Z.of_nat (length (drop (Z.to_nat off) bs))) as Hl.
  { rewrite Hd, length_app. unfold write64le. rewrite length_writeLE. lia. }
  rewrite length_drop in Hl.
  rewrite bool_decide_eq_true_2 by lia. cbn [mbind Result_bind].
  rewrite Hd. change (Z.to_nat 8) with (length (write64le v)) at 1.
  rewrite take_app_length. f_equal. apply (readLE_writeLE 8).
Qed.

Lemma verifyCUList_ok C Units : ∀ Data Index M,
  (∀ i o, Units !! i = Some o → read64le C (Data + 16 * Z.of_nat i) = Ok o) →
  ∃ M', verifyCUList C Data Index Units M = Ok (M', Data + 16 * Z.of_nat (length Units)) ∧
        ∀ k, (∃ i o, M' !! k = Some (Index + Z.of_nat i) ∧ Units !! i = Some o ∧
                     to_uint32 o = k) ∨
             (M' !! k = M !! k ∧ ∀ o, o ∈ Units → to_uint32 o ≠ k).
Proof.
  induction Units as [|o Units IH]; intros Data Index M Hread.
  - exists M. split.
    + simpl. f_equal. f_equal. lia.
    + intros k. right. split; [done|]. intros o Ho. by apply elem_of_nil in Ho.
  - cbn [verifyCUList].
    pose proof (Hread 0%nat o eq_refl) as H0. rewrite Z.mul_0_r, Z.add_0_r in H0.
    rewrite H0. cbn [mbind Result_bind].
    rewrite bool_decide_eq_false_2 by (intros ?; congruence).
    destruct (IH (Data + 16) (Index + 1) (<[to_uint32 o:=Index]> M)) as (M' & HM' & Hk).
    { intros i o' Hi. rewrite <- (Hread (S i) o' Hi). f_equal. lia. }
    exists M'. split.
    + rewrite HM'. f_equal. f_equal. cbn [length]. lia.
    + intros k. destruct (Hk k) as [(i & o' & Hm & Hi & Ho')|[Hm Hno]].
      * left. exists (S i), o'. split; [|done]. rewrite Hm. f_equal. lia.
      * destruct (decide (to_uint32 o = k)) as [<-|Hne].
        -- left. exists 0%nat, o. rewrite Hm, lookup_insert_eq.
           split; [f_equal; lia|done].
        -- right. rewrite Hm, lookup_insert_ne by done. split; [done|].
           intros o' [->|Ho']%elem_of_cons; [done|by apply Hno].
Qed.

Lemma newAddressTableSize_from acc l :
  0 ≤ acc →
  acc + 20 * Z.of_nat (length (concat (l.*2))) < 2 ^ 32 →
  foldl (λ acc (CURangesPair : Z * DebugAddressRangesVector),
           to_uint32 (acc + Z.of_nat (length (CURangesPair.2)) * 20)) acc l =
  acc + 20 * Z.of_nat (length (concat (l.*2))).
Proof.
  revert acc. induction l as [|[o r] l IH]; intros acc Hacc Hb; cbn [foldl fmap list_fmap concat snd].
  - simpl. lia.
  - cbn [fmap list_fmap concat snd] in Hb. rewrite length_app in Hb.
    rewrite to_uint32_small by lia. rewrite IH by lia. rewrite length_app. lia.
Qed.

Lemma length_writeAddressTable M l :
  Z.of_nat (length (writeAddressTable M l)) = 20 * Z.of_nat (length (concat (l.*2))).
Proof.
  unfold writeAddressTable.
  induction l as [|[o r] l IH]; [done|].
  cbn [flat_map fmap list_fmap concat snd fst]. rewrite !length_app, !Nat2Z.inj_add, IH.
  assert (∀ i, Z.of_nat (length (flat_map (writeAddressTableEntry i) r)) = 20 * Z.of_nat (length r)) as ->; [|lia].
  intros i. induction r as [|x r IHr]; [done|].
  cbn [flat_map]. rewrite length_app, Nat2Z.inj_add, IHr.
  unfold writeAddressTableEntry, write64le, write32le.
  rewrite !length_app, !length_writeLE. cbn [length]. lia.
Qed.

Lemma readLE_bound bs : 0 ≤ readLE bs < 256 ^ Z.of_nat (length bs).
Proof.
  induction bs as [|b bs IH]; cbn [readLE length].
  - simpl. lia.
  - pose proof (Z_of_byte_range b). rewrite Nat2Z.inj_succ, Z.pow_succ_r by lia. lia.
Qed.

Lemma read32le_inv bs off v :
  read32le bs off = Ok v → 0 ≤ off ∧ off + 4 ≤ Z.of_nat (length bs) ∧ 0 ≤ v < 2 ^ 32.
Proof.
  unfold read32le. destruct (slice bs off 4) as [r| | |] eqn:E; try done.
  cbn [mbind Result_bind]. intros [= <-].
  apply slice_inv in E as (? & ? & ? & ->).
  pose proof (readLE_bound (take (Z.to_nat 4) (drop (Z.to_nat off) bs))) as Hb.
  rewrite length_take, length_drop in Hb.
  replace (Z.of_nat (Z.to_nat 4 `min` (length bs - Z.to_nat off))) with 4 in Hb by lia.
  change (256 ^ 4) with (2 ^ 32) in Hb. lia.
Qed.

Lemma parseGdbIndexHeader_inv C H :
  parseGdbIndexHeader C = Ok H →
  24 ≤ Z.of_nat (length C) ∧
  0 ≤ Version H < 2 ^ 32 ∧ 0 ≤ CUListOffset H < 2 ^ 32 ∧
  0 ≤ CUTypesOffset H < 2 ^ 32 ∧ 0 ≤ AddressTableOffset H < 2 ^ 32 ∧
  0 ≤ SymbolTableOffset H < 2 ^ 32 ∧ 0 ≤ ConstantPoolOffset H < 2 ^ 32.
Proof.
  unfold parseGdbIndexHeader.
  destruct (read32le C 0) as [v0| | |] eqn:E0; try done.
  destruct (read32le C 4) as [v1| | |] eqn:E1; try done.
  destruct (read32le C 8) as [v2| | |] eqn:E2; try done.
  destruct (read32le C 12) as [v3| | |] eqn:E3; try done.
  destruct (read32le C 16) as [v4| | |] eqn:E4; try done.
  destruct (read32le C 20) as [v5| | |] eqn:E5; try done.
  cbn [mbind Result_bind]. intros [= <-]. cbn.
  apply read32le_inv in E0, E1, E2, E3, E4, E5. lia.
Qed.

Lemma flat_map_chunk {A : Type} (f : A → list byte) (n : nat) (l : list A) :
  (∀ x, length (f x) = n) →
  ∀ k x, l !! k = Some x →
    drop (n * k) (flat_map f l) = f x ++ flat_map f (drop (S k) l).
Proof.
  intros Hn. induction l as [|a l IH]; intros k x Hk; [done|].
  destruct k as [|k]; cbn [flat_map].
  - injection Hk as ->. by rewrite Nat.mul_0_r.
  - cbn in Hk. rewrite Nat.mul_succ_r, Nat.add_comm.
    rewrite drop_app_add' by (by rewrite Hn). by apply IH.
Qed.

Lemma writeAddressTable_entries M CUAddressRanges :
  writeAddressTable M CUAddressRanges =
  flat_map (λ E : Z * DebugAddressRange,
              writeAddressTableEntry (default 0 (M !! to_uint32 E.1)) E.2)
    (flat_map (λ P : Z * DebugAddressRangesVector, (λ Range, (P.1, Range)) <$> P.2)
       CUAddressRanges).
Proof.
  unfold writeAddressTable.
  induction CUAddressRanges as [|[o r] l IH]; [done|].
  cbn [flat_map fst snd]. rewrite flat_map_app, IH. f_equal.
  induction r as [|Range r IHr]; [done|].
  cbn [flat_map fmap list_fmap fst snd]. by rewrite IHr.
Qed.

Lemma length_writeAddressTableEntry CUIndex Range :
  length (writeAddressTableEntry CUIndex Range) = 20%nat.
Proof.
  unfold writeAddressTableEntry, write64le, write32le.
  by rewrite !length_app, !length_writeLE.
Qed.

Lemma read_address_table_entry (Pre Table Post : list byte) (M : gmap Z Z)
    (CUAddressRanges : list (Z * DebugAddressRangesVector)) (k : nat)
    (CUOffset : Z) (Range : DebugAddressRange) :
  Table = writeAddressTable M CUAddressRanges →
  flat_map (λ P : Z * DebugAddressRangesVector, (λ Range, (P.1, Range)) <$> P.2)
    CUAddressRanges !! k = Some (CUOffset, Range) →
  let New := Pre ++ Table ++ Post in
  let At := Z.of_nat (length Pre) + 20 * Z.of_nat k in
  read64le New At = Ok (to_uint64 (LowPC Range)) ∧
  read64le New (At + 8) = Ok (to_uint64 (HighPC Range)) ∧
  read32le New (At + 16) = Ok (to_uint32 (default 0 (M !! to_uint32 CUOffset))).
Proof.
  intros HT Hk New At.
  pose proof (flat_map_chunk
                (λ E : Z * DebugAddressRange,
                   writeAddressTableEntry (default 0 (M !! to_uint32 E.1)) E.2)
                20 _ (λ E, length_writeAddressTableEntry _ _) k _ Hk) as Hchunk.
  rewrite <- writeAddressTable_entries, <- HT in Hchunk. cbn [fst snd] in Hchunk.
  assert (20 * k ≤ length Table)%nat as Hle.
  { apply (f_equal length) in Hchunk.
    rewrite length_drop, length_app, length_writeAddressTableEntry in Hchunk. lia. }
  assert (drop (Z.to_nat At) New =
          writeAddressTableEntry (default 0 (M !! to_uint32 CUOffset)) Range ++
          (flat_map (λ E : Z * DebugAddressRange,
                       writeAddressTableEntry (default 0 (M !! to_uint32 E.1)) E.2)
             (drop (S k)
                (flat_map (λ P : Z * DebugAddressRangesVector,
                             (λ Range, (P.1, Range)) <$> P.2) CUAddressRanges)) ++
           Post)) as Hdrop.
  { unfold At, New.
    replace (Z.to_nat (Z.of_nat (length Pre) + 20 * Z.of_nat k))
      with (length Pre + 20 * k)%nat by lia.
    rewrite drop_app_add' by done. rewrite drop_app_le by done.
    by rewrite Hchunk, <- app_assoc. }
  unfold writeAddressTableEntry in Hdrop. rewrite <- !app_assoc in Hdrop.
  assert (∀ n, 0 ≤ n → drop (Z.to_nat (At + n)) New =
                       drop (Z.to_nat n) (drop (Z.to_nat At) New)) as Hshift.
  { intros n Hn. rewrite drop_drop. f_equal. unfold At. lia. }
  split; [|split].
  - eapply read64le_here; [unfold At; lia|exact Hdrop].
  - eapply read64le_here; [unfold At; lia|].
    rewrite Hshift, Hdrop by lia.
    apply drop_app_length'. unfold write64le. by rewrite length_writeLE.
  - eapply read32le_here; [unfold At; lia|].
    rewrite Hshift, Hdrop by lia.
    rewrite app_assoc. apply drop_app_length'.
    unfold write64le. by rewrite length_app, !length_writeLE.
Qed.

(** C3.  Regenerating a well-formed [.gdb_index] (a supported version, a
    header whose offsets are in order, a CU list that matches the units of
    the context) registers a section whose size is the old size plus the
    difference between the new and the old address table.  The new table
    has one 20-byte entry per retained range of each compile unit, in the
    order of the ranges: read back, the entry number [k] holds the low and
    the high address of the range as 64-bit values and the index of the unit
    as a 32-bit value, where the index of a unit is its number in the CU list
    (0 for an offset that is not in the list).  The bytes behind the table
    are those behind the old table; the CU lists are copied; and in the
    header only the symbol-table and constant-pool offsets change, each by
    that difference. *)
Theorem gdb_index_size_invariant
    (C : list byte) (Units : list Z)
    (CUAddressRanges : list (Z * DebugAddressRangesVector)) (H : GdbIndexHeader) :
  parseGdbIndexHeader C = Ok H →
  Version H = 7 ∨ Version H = 8 →
  CUListOffset H ≤ CUTypesOffset H ≤ AddressTableOffset H →
  AddressTableOffset H ≤ SymbolTableOffset H →
  CUTypesOffset H - CUListOffset H = 16 * Z.of_nat (length Units) →
  (∀ i o, Units !! i = Some o → read64le C (24 + 16 * Z.of_nat i) = Ok o) →
  24 + (SymbolTableOffset H - CUListOffset H) ≤ Z.of_nat (length C) →
  Z.of_nat (length C) < 2 ^ 31 →
  20 * Z.of_nat (length (concat (CUAddressRanges.*2))) < 2 ^ 31 →
  let OldSize := SymbolTableOffset H - AddressTableOffset H in
  let NewSize := 20 * Z.of_nat (length (concat (CUAddressRanges.*2))) in
  let TableStart := 24 + (AddressTableOffset H - CUListOffset H) in
  ∃ (New : list byte) (M : gmap Z Z),
    updateGdbIndexSection (Some C) Units CUAddressRanges =
      GdbIndexRegistered New (Z.of_nat (length C) + (NewSize - OldSize)) ∧
    Z.of_nat (length New) = Z.of_nat (length C) + (NewSize - OldSize) ∧
    (∀ o, o ∈ Units →
       ∃ i, M !! to_uint32 o = Some (Z.of_nat i) ∧
            (to_uint32 <$> Units) !! i = Some (to_uint32 o)) ∧
    take (Z.to_nat NewSize) (drop (Z.to_nat TableStart) New) =
      writeAddressTable M CUAddressRanges ∧
    drop (Z.to_nat (TableStart + NewSize)) New =
      drop (Z.to_nat (24 + (SymbolTableOffset H - CUListOffset H))) C ∧
    take (Z.to_nat (TableStart - 24)) (drop 24 New) =
      take (Z.to_nat (TableStart - 24)) (drop 24 C) ∧
    parseGdbIndexHeader New =
      Ok (mkGdbIndexHeader (Version H) (CUListOffset H) (CUTypesOffset H)
            (AddressTableOffset H)
            (to_uint32 (SymbolTableOffset H + (NewSize - OldSize)))
            (to_uint32 (ConstantPoolOffset H + (NewSize - OldSize)))) ∧
    (∀ (k : nat) (CUOffset : Z) (Range : DebugAddressRange),
       flat_map (λ P : Z * DebugAddressRangesVector, (λ Range, (P.1, Range)) <$> P.2)
         CUAddressRanges !! k = Some (CUOffset, Range) →
       let At := TableStart + 20 * Z.of_nat k in
       read64le New At = Ok (to_uint64 (LowPC Range)) ∧
       read64le New (At + 8) = Ok (to_uint64 (HighPC Range)) ∧
       read32le New (At + 16) =
         Ok (to_uint32 (default 0 (M !! to_uint32 CUOffset)))) ∧
    (∀ (Key Index : Z), M !! Key = Some Index →
       ∃ (i : nat) (o : Z),
         Index = Z.of_nat i ∧ Units !! i = Some o ∧ to_uint32 o = Key).
Proof.
  intros Hparse Hver Hord1 Hord2 Hcu Hread Hlen Hsmall Hnew OldSize NewSize TableStart.
  pose proof (parseGdbIndexHeader_inv _ _ Hparse) as (H24 & Hv & Hl & Ht & Ha & Hs & Hc).
  assert (0 < 2 ^ 31 ∧ 2 ^ 31 < 2 ^ 32 ∧ 2 ^ 32 < 2 ^ 64) as Hpow by done.
  destruct (verifyCUList_ok C Units 24 0 ∅ Hread) as (M & HM & HMk).
  unfold updateGdbIndexSection, regenerateGdbIndex.
  rewrite Hparse. cbn [mbind Result_bind].
  rewrite bool_decide_eq_false_2 by lia.
  rewrite (to_uint32_small (CUTypesOffset H - CUListOffset H)) by lia.
  rewrite (to_uint32_small (Z.of_nat (length Units) * 16)) by lia.
  rewrite bool_decide_eq_false_2 by lia.
  rewrite HM. cbn [mbind Result_bind].
  rewrite (to_uint32_small (SymbolTableOffset H - AddressTableOffset H)) by lia.
  rewrite (to_uint32_small (SymbolTableOffset H - CUTypesOffset H)) by lia.
  rewrite (to_uint32_small (AddressTableOffset H - CUListOffset H)) by lia.
  unfold newAddressTableSize.
  rewrite newAddressTableSize_from;
    [|lia|rewrite Z.add_0_l; eapply Z.lt_trans; [exact Hnew|done]].
  rewrite Z.add_0_l.
  change (20 * Z.of_nat (length (concat _))) with NewSize.
  fold OldSize.
  rewrite to_int32_small by (unfold OldSize; lia).
  rewrite to_uint64_small by (unfold OldSize; lia).
  rewrite slice_Ok by lia. cbn [mbind Result_bind].
  rewrite slice_Ok by lia. cbn [mbind Result_bind].
  set (Header := writeGdbIndexHeader _).
  set (Lists := take _ (drop (Z.to_nat 24) C)).
  set (Table := writeAddressTable M CUAddressRanges).
  set (Trailing := take _ (drop _ C)).
  assert (Z.of_nat (length Header) = 24) as HlenH.
  { unfold Header, writeGdbIndexHeader, write32le. rewrite !length_app, !length_writeLE. lia. }
  assert (Z.of_nat (length Lists) = AddressTableOffset H - CUListOffset H) as HlenL.
  { unfold Lists. rewrite length_take, length_drop. lia. }
  assert (Z.of_nat (length Table) = NewSize) as HlenT.
  { unfold Table. rewrite length_writeAddressTable. done. }
  assert (Trailing = drop (Z.to_nat (24 + (SymbolTableOffset H - CUListOffset H))) C) as HTr.
  { unfold Trailing. rewrite take_ge.
    - f_equal. lia.
    - rewrite length_drop. lia. }
  assert (Z.of_nat (length Trailing) =
          Z.of_nat (length C) - (24 + (SymbolTableOffset H - CUListOffset H))) as HlenTr.
  { rewrite HTr, length_drop. lia. }
  rewrite bool_decide_eq_true_2
    by (rewrite !length_app, !Nat2Z.inj_add; unfold OldSize; lia).
  exists (Header ++ Lists ++ Table ++ Trailing), M.
  split; [done|]. split.
  { rewrite !length_app, !Nat2Z.inj_add; unfold OldSize; lia. }
  split.
  { intros o Ho. destruct (HMk (to_uint32 o)) as [(i & o' & Hm & Hi & Ho')|[_ Hno]].
    - exists i. rewrite Hm, Z.add_0_l. split; [done|].
      rewrite list_lookup_fmap, Hi. simpl. by rewrite Ho'.
    - by destruct (Hno o Ho). }
  split.
  { rewrite app_assoc, drop_app_length'; [|rewrite length_app; unfold TableStart; lia].
    rewrite take_app_length'; [done|lia]. }
  split.
  { rewrite (app_assoc Header), (app_assoc (Header ++ Lists)).
    rewrite drop_app_length'; [done|].
    rewrite !length_app. unfold TableStart. lia. }
  split.
  { rewrite drop_app_length' by lia. rewrite take_app_length' by (unfold TableStart; lia).
    unfold Lists. f_equal. unfold TableStart. lia. }
  split.
  { unfold Header. rewrite parse_write_header. cbn.
    rewrite !to_uint32_small by lia. done. }
  split.
  { intros k CUOffset Range Hk. cbv zeta.
    pose proof (read_address_table_entry (Header ++ Lists) Table Trailing M
                  CUAddressRanges k CUOffset Range eq_refl Hk) as Hread'.
    cbv zeta in Hread'. rewrite <- !app_assoc in Hread'.
    replace (Z.of_nat (length (Header ++ Lists)) + 20 * Z.of_nat k)
      with (TableStart + 20 * Z.of_nat k)
      in Hread' by (unfold TableStart; rewrite length_app; lia).
    exact Hread'. }
  intros Key Index HKey.
  destruct (HMk Key) as [(i & o & Hm & Hi & Ho)|[Hnone _]].
  - exists i, o. rewrite Hm in HKey. injection HKey as <-.
    split; [lia|done].
  - rewrite Hnone in HKey. by rewrite lookup_empty in HKey.
Qed.

(** ** The ranges writer and its cache *)

Lemma rangesSectionSize_app Lists Ranges :
  rangesSectionSize (Lists ++ [Ranges]) =
  rangesSectionSize Lists + rangesByteSize Ranges.
Proof.
  unfold rangesSectionSize. induction Lists as [|L Lists IH]; simpl; [lia|].
  rewrite IH. lia.
Qed.

Lemma rangesByteSize_pos Ranges : 16 ≤ rangesByteSize Ranges.
Proof. unfold rangesByteSize. lia. Qed.

Lemma getSectionOffset_min W : 16 ≤ getSectionOffset W.
Proof.
  unfold getSectionOffset, rangesSectionSize.
  induction (AddedRanges W) as [|L Lists IH]; simpl; [lia|].
  pose proof (rangesByteSize_pos L). lia.
Qed.

Lemma addRanges_offset W Ranges :
  getSectionOffset W ≤ getSectionOffset (addRanges W Ranges).2.
Proof.
  unfold addRanges. case_bool_decide; simpl; [lia|].
  unfold getSectionOffset. simpl. rewrite rangesSectionSize_app.
  pose proof (rangesByteSize_pos Ranges). lia.
Qed.

Lemma addRanges_fresh W Ranges :
  Ranges ≠ [] →
  (addRanges W Ranges).1 = getSectionOffset W ∧
  getSectionOffset W < getSectionOffset (addRanges W Ranges).2.
Proof.
  intros Hne. unfold addRanges. rewrite bool_decide_eq_false_2 by done. simpl.
  split; [done|]. unfold getSectionOffset. simpl. rewrite rangesSectionSize_app.
  pose proof (rangesByteSize_pos Ranges). lia.
Qed.

Lemma scopeStep_invariant s s' :
  scopeStep s s' → scopeInvariant s → scopeInvariant s'.
Proof.
  intros Hstep Hinv. destruct Hstep as [W C Ranges|W C Ranges].
  - intros L o HL. destruct (Hinv L o HL) as (? & ? & ?). simpl in *.
    pose proof (addRanges_offset W Ranges). repeat split; [done|lia|lia|done].
  - unfold addRangesCached. case_bool_decide as Hnil; [exact Hinv|].
    destruct (C !! Ranges) as [o'|] eqn:EC; [exact Hinv|].
    destruct (addRanges W Ranges) as [off W'] eqn:EA. cbn [fst snd].
    pose proof (addRanges_fresh W Ranges Hnil) as [Hoff Hlt].
    rewrite EA in Hoff, Hlt. cbn [fst snd] in Hoff, Hlt. subst off.
    pose proof (getSectionOffset_min W).
    intros L o HL. cbn [fst snd] in *.
    destruct (decide (L = Ranges)) as [->|Hne].
    + rewrite lookup_insert_eq in HL. injection HL as <-.
      repeat split; [done|lia|lia|].
      intros L' HL'. destruct (decide (L' = Ranges)) as [->|Hne']; [done|].
      rewrite lookup_insert_ne in HL' by done.
      destruct (Hinv L' _ HL') as (_ & ? & _). simpl in *. lia.
    + rewrite lookup_insert_ne in HL by done.
      destruct (Hinv L o HL) as (? & ? & Hinj). simpl in *.
      repeat split; [done|lia|lia|].
      intros L' HL'. destruct (decide (L' = Ranges)) as [->|Hne'].
      * rewrite lookup_insert_eq in HL'. injection HL' as <-. lia.
      * rewrite lookup_insert_ne in HL' by done. by apply Hinj.
Qed.

Lemma scopeStep_mono s s' :
  scopeStep s s' → s.2 ⊆ s'.2.
Proof.
  intros [W C Ranges|W C Ranges]; [done|]. cbn [fst snd].
  unfold addRangesCached. case_bool_decide; [done|].
  destruct (C !! Ranges) eqn:EC; [done|].
  destruct (addRanges W Ranges). cbn [fst snd]. by apply insert_subseteq.
Qed.

Lemma scope_rtc_invariant s s' :
  rtc scopeStep s s' → scopeInvariant s → scopeInvariant s' ∧ s.2 ⊆ s'.2.
Proof.
  induction 1 as [s|s s1 s2 Hstep Hrtc IH]; intros Hinv; [done|].
  destruct (IH (scopeStep_invariant _ _ Hstep Hinv)) as [Hinv2 Hsub].
  split; [done|]. etrans; [by apply scopeStep_mono|done].
Qed.

Lemma scopeInvariant_reset W : scopeInvariant (W, ∅).
Proof. intros L o HL. simpl in HL. by rewrite lookup_empty in HL. Qed.

(** C5.  Within one cache scope, that is from a reset of the cache on and
    whatever is added to the writer in between, a list added through the
    cache again gets the offset it got the first time and nothing is
    stored for it; two different lists get different offsets. *)
Theorem cached_ranges_offsets
    (W0 W W' : DebugRangesSectionWriter)
    (C C' : gmap DebugAddressRangesVector Z) (A B : DebugAddressRangesVector) :
  rtc scopeStep (W0, ∅) (W, C) →
  rtc scopeStep ((addRangesCached W A C).1.2, (addRangesCached W A C).2) (W', C') →
  (A = B →
     (addRangesCached W' B C').1.1 = (addRangesCached W A C).1.1 ∧
     (addRangesCached W' B C').1.2 = W') ∧
  (A ≠ B →
     (addRangesCached W' B C').1.1 ≠ (addRangesCached W A C).1.1).
Proof.
  intros Hscope Hlater.
  destruct (scope_rtc_invariant _ _ Hscope (scopeInvariant_reset W0)) as [HinvW _].
  pose proof (scopeStep_invariant _ _ (scope_addRangesCached W C A) HinvW) as Hinv1.
  destruct (scope_rtc_invariant _ _ Hlater Hinv1) as [Hinv' Hsub].
  cbn [fst snd] in Hsub.
  (* the offset of [A] and what the cache knows about it afterwards *)
  assert (A = [] ∧ (addRangesCached W A C).1.1 = 0 ∨
          A ≠ [] ∧ (addRangesCached W A C).2 !! A = Some (addRangesCached W A C).1.1)
    as HA.
  { unfold addRangesCached. case_bool_decide as Hnil; [left; done|right].
    split; [done|]. destruct (C !! A) as [o|] eqn:EC; [done|].
    destruct (addRanges W A). cbn [fst snd]. by rewrite lookup_insert_eq. }
  set (oA := (addRangesCached W A C).1.1) in *.
  assert (∀ L : DebugAddressRangesVector, L ≠ [] → C' !! L = None →
            (addRangesCached W' L C').1.1 = getSectionOffset W') as Hfresh.
  { intros L HL HN. unfold addRangesCached. rewrite bool_decide_eq_false_2 by done.
    rewrite HN. pose proof (addRanges_fresh W' L HL) as [Hoff _].
    destruct (addRanges W' L). by cbn [fst snd] in *. }
  assert (∀ (L : DebugAddressRangesVector) o, C' !! L = Some o →
            (addRangesCached W' L C').1.1 = o ∧ (addRangesCached W' L C').1.2 = W')
    as Hhit.
  { intros L o HL. destruct (Hinv' L o HL) as (HLne & _).
    unfold addRangesCached. rewrite bool_decide_eq_false_2 by done.
    by rewrite HL. }
  assert ((addRangesCached W' [] C').1.1 = 0 ∧ (addRangesCached W' [] C').1.2 = W')
    as Hempty by done.
  pose proof (getSectionOffset_min W') as Hmin.
  split.
  - intros <-. destruct HA as [[-> HoA]|[HAne HcA]].
    + by rewrite HoA.
    + eapply lookup_weaken in HcA; [|exact Hsub]. by apply Hhit.
  - intros Hne. destruct HA as [[-> HoA]|[HAne HcA]].
    + rewrite HoA. destruct (C' !! B) as [oB|] eqn:EB.
      * destruct (Hhit B oB EB) as [-> _].
        destruct (Hinv' B oB EB) as (_ & ? & _). lia.
      * rewrite Hfresh by done. lia.
    + eapply lookup_weaken in HcA; [|exact Hsub].
      destruct (Hinv' A oA HcA) as (_ & HoA & Hinj). cbn [fst snd] in *.
      destruct (decide (B = [])) as [->|HBne]; [destruct Hempty as [-> _]; lia|].
      destruct (C' !! B) as [oB|] eqn:EB.
      * destruct (Hhit B oB EB) as [-> _]. intros ->. by apply Hne, eq_sym, Hinj.
      * rewrite Hfresh by done. lia.
Qed.

(** ** The byte patch list *)

Lemma length_encodeULEB128 n v : length (encodeULEB128 n v) = n.
Proof.
  revert v. induction n as [|n IH]; intros v; [done|].
  destruct n as [|n]; [done|].
  change (encodeULEB128 (S (S n)) v)
    with (byte_of_Z (v mod 128 + 128) :: encodeULEB128 (S n) (v / 128)).
  cbn [length]. by rewrite IH.
Qed.

Lemma length_patchBytes p : Z.of_nat (length (patchBytes p)) = patchWidth p.
Proof.
  destruct p as [o v|o v|o v n]; cbn [patchBytes patchWidth].
  - unfold write64le. by rewrite length_writeLE.
  - unfold write32le. by rewrite length_writeLE.
  - rewrite length_encodeULEB128. lia.
Qed.

Lemma overwrite_spec bs off new bs' :
  overwrite bs off new = Ok bs' →
  length bs' = length bs ∧
  ∀ i : nat, ¬ (off ≤ Z.of_nat i < off + Z.of_nat (length new)) → bs' !! i = bs !! i.
Proof.
  unfold overwrite. case_bool_decide as Hb; [|done]. intros [= <-].
  destruct Hb as [Hoff Hend]. split.
  - rewrite !length_app, length_take, length_drop. lia.
  - intros i Hi.
    destruct (decide (Z.of_nat i < off)) as [Hlt|Hge].
    + rewrite lookup_app_l by (rewrite length_take; lia).
      rewrite lookup_take_lt by lia. done.
    + rewrite lookup_app_r by (rewrite length_take; lia).
      rewrite lookup_app_r by (rewrite length_take; lia).
      rewrite lookup_drop, length_take. f_equal. lia.
Qed.

Lemma overwrite_Ok bs off new :
  0 ≤ off → off + Z.of_nat (length new) ≤ Z.of_nat (length bs) →
  ∃ bs', overwrite bs off new = Ok bs'.
Proof.
  intros. unfold overwrite. rewrite bool_decide_eq_true_2 by done. eauto.
Qed.


Lemma applyPatches_Ok Ps D : ∀ bs,
  (∀ p, p ∈ Ps →
     0 ≤ patchOffsetOf p - D ∧
     patchOffsetOf p - D + patchWidth p ≤ Z.of_nat (length bs)) →
  ∃ bs', applyPatches Ps D bs = Ok bs'.
Proof.
  induction Ps as [|p Ps IH]; intros bs Hfit; cbn [applyPatches]; [eauto|].
  destruct (Hfit p) as [H0 Hend]; [by left|].
  destruct (overwrite_Ok bs (patchOffsetOf p - D) (patchBytes p)) as [bs1 E];
    [done|by rewrite length_patchBytes|].
  rewrite E. cbn [mbind Result_bind].
  apply IH. intros q Hq. destruct (overwrite_spec _ _ _ _ E) as [-> _].
  apply Hfit. by right.
Qed.

(** ** The rewriter's state *)

Arguments onPatcher : simpl never.
Arguments setPatcher : simpl never.
Arguments getPatcher : simpl never.
Arguments onAbbrevWriter : simpl never.
Arguments getAbbrevWriter : simpl never.
Arguments warn : simpl never.

Lemma getPatcher_setPatcher T T' p R :
  getPatcher (setPatcher T p R) T' = if decide (T = T') then p else getPatcher R T'.
Proof.
  unfold getPatcher, setPatcher.
  destruct T as [|i], T' as [|j]; cbn; try done.
  unfold getBinaryDWODebugInfoPatcher. cbn.
  destruct (decide (i = j)) as [->|Hne].
  - rewrite lookup_insert_eq. by rewrite decide_True.
  - rewrite lookup_insert_ne by done. rewrite decide_False by congruence. done.
Qed.

Lemma getPatcher_setPatcher_eq T p R : getPatcher (setPatcher T p R) T = p.
Proof. rewrite getPatcher_setPatcher. by rewrite decide_True. Qed.

Lemma getPatcher_setPatcher_ne T T' p R :
  T ≠ T' → getPatcher (setPatcher T p R) T' = getPatcher R T'.
Proof. intros. rewrite getPatcher_setPatcher. by rewrite decide_False. Qed.

Lemma getPatcher_warn msg R T : getPatcher (warn msg R) T = getPatcher R T.
Proof. by destruct T. Qed.

Lemma getPatcher_set_errs e R T : getPatcher (set_errs e R) T = getPatcher R T.
Proof. by destruct T. Qed.

Lemma withoutPatchers_setPatcher T p R :
  withoutPatchers (setPatcher T p R) = withoutPatchers R.
Proof. by destruct T. Qed.

Lemma withoutPatchers_onPatcher T f R :
  withoutPatchers (onPatcher T f R) = withoutPatchers R.
Proof. apply withoutPatchers_setPatcher. Qed.

Lemma withoutPatchers_warn msg R : withoutPatchers (warn msg R) = withoutPatchers R.
Proof. done. Qed.

Lemma withoutPatchers_set_errs e R : withoutPatchers (set_errs e R) = withoutPatchers R.
Proof. done. Qed.

Lemma getRangeAttrData_ok DIE R L H :
  findAttributeInfo DIE DW_AT_low_pc = Some L →
  findAttributeInfo DIE DW_AT_high_pc = Some H →
  ∃ msgs,
    getRangeAttrData DIE R =
    Ok (mkRangeAttrData (Offset L) (Offset H) (V L) (V H),
        set_errs (errs R ++ msgs) R).
Proof.
  intros HL HH. unfold getRangeAttrData. rewrite HL, HH.
  case_bool_decide; [by eexists [_]|].
  case_bool_decide; [by eexists [_]|].
  exists []. rewrite app_nil_r. by destruct R.
Qed.

Lemma convertToRanges_Offset_ok DIE RangesSectionOffset P RangesBase R L H nbf :
  findAttributeInfo DIE DW_AT_low_pc = Some L →
  findAttributeInfo DIE DW_AT_high_pc = Some H →
  getAddressByteSize (getDwarfUnit DIE) = 8 →
  NumBytesToFill_of (getForm (V H)) = Ok nbf →
  let D := mkRangeAttrData (Offset L) (Offset H) (V L) (V H) in
  let BaseOffset :=
    if bool_decide (getForm (V L) = DW_FORM_GNU_addr_index)
    then to_uint32 (RangeBase (getPatcher R P)) else 0 in
  ∃ R',
    convertToRanges_Offset DIE RangesSectionOffset P RangesBase R = Ok R' ∧
    Patches (getPatcher R' P) =
      Patches (getPatcher R P) ++ fillerPatches D nbf RangesBase ++
      [LE32Patch (Offset H + nbf - 8) (to_uint32 (RangesSectionOffset - BaseOffset))] ∧
    RangeBase (getPatcher R' P) = RangeBase (getPatcher R P) ∧
    (∀ T, T ≠ P → getPatcher R' T = getPatcher R T) ∧
    withoutPatchers R' = withoutPatchers R.
Proof.
  intros HL HH Hsize Hnbf D BaseOffset.
  destruct (getRangeAttrData_ok DIE R L H HL HH) as [msgs Hdata].
  unfold convertToRanges_Offset. rewrite Hdata. cbn [mbind Result_bind].
  rewrite bool_decide_eq_false_2 by (intros ?; congruence).
  cbn [HighPCFormValue LowPCFormValue LowPCOffset HighPCOffset].
  rewrite Hnbf. cbn [mbind Result_bind].
  set (R1 := set_errs (errs R ++ msgs) R).
  assert (∀ T, getPatcher R1 T = getPatcher R T) as HR1
    by (intros T; apply getPatcher_set_errs).
  unfold fillerPatches, BaseOffset, D. cbn [LowPCFormValue LowPCOffset HighPCOffset].
  case_bool_decide as Hidx.
  - eexists. split; [reflexivity|].
    unfold onPatcher, getRangeBase. cbn [fst snd].
    rewrite !getPatcher_setPatcher_eq. cbn. rewrite HR1.
    rewrite <- !app_assoc. repeat split; try done.
    + intros T HT. rewrite !getPatcher_setPatcher_ne by done. apply HR1.
    + by rewrite !withoutPatchers_setPatcher.
  - destruct RangesBase as [RB|]; [|case_bool_decide].
    all: eexists; (split; [reflexivity|]).
    all: unfold onPatcher; rewrite !getPatcher_setPatcher_eq; cbn; rewrite HR1.
    all: rewrite <- ?app_assoc; repeat split; try done.
    all: try (intros T HT; rewrite !getPatcher_setPatcher_ne by done; apply HR1).
    all: by rewrite !withoutPatchers_setPatcher.
Qed.

(** ** Loops *)

Lemma foldlR_Ok {S A : Type} (f : S → A → Result S) (l : list A) : ∀ s,
  (∀ s a, a ∈ l → ∃ s', f s a = Ok s') → ∃ s', foldlR f s l = Ok s'.
Proof.
  induction l as [|a l IH]; intros s Hf; cbn [foldlR]; [eauto|].
  destruct (Hf s a) as [s1 E]; [by left|]. rewrite E. cbn [mbind Result_bind].
  apply IH. intros s2 b Hb. apply Hf. by right.
Qed.

Lemma foldlR_elem {S A : Type} (Q : S → S → Prop) `{!Reflexive Q, !Transitive Q}
    (f : S → A → Result S) :
  (∀ s a s', f s a = Ok s' → Q s s') →
  ∀ l s s' a, foldlR f s l = Ok s' → a ∈ l →
    ∃ s1 s2, Q s s1 ∧ f s1 a = Ok s2 ∧ Q s2 s'.
Proof.
  intros Hstep. 
  assert (∀ l s s', foldlR f s l = Ok s' → Q s s') as Hall.
  { induction l as [|b l IH]; intros s s'; cbn [foldlR].
    - intros [= <-]. done.
    - destruct (f s b) as [s1| | |] eqn:E; try done. cbn [mbind Result_bind].
      intros Hf. etrans; [by eapply Hstep|by apply IH]. }
  induction l as [|b l IH]; intros s s' a; cbn [foldlR].
  - intros _ Ha. by apply elem_of_nil in Ha.
  - destruct (f s b) as [s1| | |] eqn:E; try done. cbn [mbind Result_bind].
    intros Hf [->|Ha]%elem_of_cons.
    + exists s, s1. split; [done|]. split; [done|]. by apply Hall in Hf.
    + destruct (IH _ _ _ Hf Ha) as (s2 & s3 & H1 & H2 & H3).
      exists s2, s3. split; [|done]. etrans; [by eapply Hstep|done].
Qed.

Lemma foldlR_preserves {S A : Type} (Q : S → S → Prop)
    `{!Reflexive Q, !Transitive Q} (f : S → A → Result S) :
  (∀ s a s', f s a = Ok s' → Q s s') →
  ∀ l s s', foldlR f s l = Ok s' → Q s s'.
Proof.
  intros Hstep. induction l as [|b l IH]; intros s s'; cbn [foldlR].
  - intros [= <-]. done.
  - destruct (f s b) as [s1| | |] eqn:E; try done. cbn [mbind Result_bind].
    intros Hf. etrans; [by eapply Hstep|by apply IH].
Qed.

Global Instance patchesGrow_refl : Reflexive patchesGrow.
Proof. intros R. by split. Qed.

Global Instance patchesGrow_trans : Transitive patchesGrow.
Proof.
  intros R1 R2 R3 [Hf1 Hg1] [Hf2 Hg2]. split; [congruence|].
  intros T p Hp. by apply Hg2, Hg1.
Qed.

Lemma to_uint64_to_uint32 x : to_uint64 (to_uint32 x) = to_uint32 x.
Proof.
  unfold to_uint64, to_uint32.
  pose proof (Z.mod_pos_bound x (2 ^ 32) eq_refl).
  assert (2 ^ 32 < 2 ^ 64) by done. apply Z.mod_small. lia.
Qed.

Lemma to_uint32_to_uint64 x : to_uint32 (to_uint64 x) = to_uint32 x.
Proof.
  unfold to_uint64, to_uint32.
  apply Z.mod_mod_divide. by exists (2 ^ 32).
Qed.

Lemma onPatcher_grows T f R :
  (∀ P, ∃ ps, Patches (f P) = Patches P ++ ps) → patchesGrow R (onPatcher T f R).
Proof.
  intros Hf. split; [apply withoutPatchers_onPatcher|].
  intros T' p Hp. unfold onPatcher. rewrite getPatcher_setPatcher.
  case_decide as HT; [subst T'|done].
  destruct (Hf (getPatcher R T)) as [ps ->]. apply elem_of_app. by left.
Qed.

Lemma warn_grows msg R : patchesGrow R (warn msg R).
Proof. split; [done|]. intros T p. by rewrite getPatcher_warn. Qed.

Ltac solve_grows :=
  repeat first
    [ reflexivity
    | etrans; [|apply warn_grows]
    | etrans; [|apply onPatcher_grows; intros ?; eexists [_]; reflexivity]
    | etrans; [|apply onPatcher_grows; intros ?; eexists [_; _]; reflexivity] ].

(** ** Patching a low-pc/high-pc pair in place *)

Lemma patchLowHigh_ok DIE Range P R L H :
  findAttributeInfo DIE DW_AT_low_pc = Some L →
  findAttributeInfo DIE DW_AT_high_pc = Some H →
  (hasIndexedLowPC DIE = true →
   isDWOUnit (getDwarfUnit DIE) = true ∧ is_Some (getDWOId (getDwarfUnit DIE))) →
  let Target := lowHighTarget DIE P in
  let AddressIndex :=
    getIndexFromAddress (AddrWriter R) (LowPC Range)
      (default 0 (getDWOId (getDwarfUnit DIE))) in
  ∃ R',
    patchLowHigh DIE Range P R = Ok R' ∧
    Patches (getPatcher R' Target) =
      Patches (getPatcher R Target) ++
      [lowPcPatch DIE L H AddressIndex Range; highPcPatch H Range] ∧
    (∀ T, T ≠ Target → getPatcher R' T = getPatcher R T) ∧
    withoutPatchers R' = withoutPatchers R.
Proof.
  intros HL HH Hidx Target AddressIndex.
  destruct (getRangeAttrData_ok DIE R L H HL HH) as [msgs Hdata].
  unfold patchLowHigh. rewrite Hdata. cbn [mbind Result_bind].
  cbn [HighPCFormValue LowPCFormValue LowPCOffset HighPCOffset].
  set (R1 := set_errs (errs R ++ msgs) R).
  assert (∀ T, getPatcher R1 T = getPatcher R T) as HR1
    by (intros T; apply getPatcher_set_errs).
  unfold Target, AddressIndex, lowHighTarget, lowPcPatch, highPcPatch, hasIndexedLowPC in *.
  rewrite HL in *.
  case_bool_decide as Hform.
  - destruct (Hidx eq_refl) as [HDWO [id Hid]]. rewrite HDWO, Hid.
    cbn [negb mbind Result_bind default].
    destruct (isHighPcFormEightBytes (getForm (V H))).
    all: eexists; (split; [reflexivity|]).
    all: unfold onPatcher; rewrite !getPatcher_setPatcher_eq, ?HR1;
      cbn [addLE64Patch addLE32Patch addUDataPatch addPatch Patches].
    all: rewrite <- ?app_assoc, ?to_uint64_to_uint32; repeat split; try done.
    all: try (intros T HT; rewrite !getPatcher_setPatcher_ne by done; apply HR1).
    all: by rewrite !withoutPatchers_setPatcher.
  - cbn [negb mbind Result_bind default].
    destruct (isHighPcFormEightBytes (getForm (V H))).
    all: eexists; (split; [reflexivity|]).
    all: unfold onPatcher; rewrite !getPatcher_setPatcher_eq, ?HR1;
      cbn [addLE64Patch addLE32Patch addUDataPatch addPatch Patches].
    all: rewrite <- ?app_assoc; repeat split; try done.
    all: try (intros T HT; rewrite !getPatcher_setPatcher_ne by done; apply HR1).
    all: by rewrite !withoutPatchers_setPatcher.
Qed.

Lemma getRangeAttrData_grows DIE R D R1 :
  getRangeAttrData DIE R = Ok (D, R1) → patchesGrow R R1.
Proof.
  unfold getRangeAttrData.
  destruct (findAttributeInfo DIE DW_AT_low_pc) as [L|]; [|done].
  destruct (findAttributeInfo DIE DW_AT_high_pc) as [H|]; [|done].
  repeat case_bool_decide; intros [= <- <-]; solve_grows.
Qed.

Lemma patchLowHigh_grows DIE Range P R R' :
  patchLowHigh DIE Range P R = Ok R' → patchesGrow R R'.
Proof.
  unfold patchLowHigh.
  destruct (getRangeAttrData DIE R) as [[D R1]| | |] eqn:Hdata; try done.
  apply getRangeAttrData_grows in Hdata. cbn [mbind Result_bind].
  destruct (bool_decide (getForm (LowPCFormValue D) = DW_FORM_GNU_addr_index)).
  - destruct (isDWOUnit (getDwarfUnit DIE)); [|done]. cbn [negb].
    destruct (getDWOId (getDwarfUnit DIE)); [|done]. cbn [mbind Result_bind].
    destruct (isHighPcFormEightBytes _); intros [= <-];
      (etrans; [exact Hdata|]); solve_grows.
  - cbn [mbind Result_bind].
    destruct (isHighPcFormEightBytes _); intros [= <-];
      (etrans; [exact Hdata|]); solve_grows.
Qed.

Lemma withoutPatchers_AddrWriter R R' :
  withoutPatchers R' = withoutPatchers R → AddrWriter R' = AddrWriter R.
Proof. intros E. apply (f_equal AddrWriter) in E. exact E. Qed.

Lemma flushPendingRanges_inner_grows P R R' Pending :
  foldlR (λ R (RangePair : DWARFDie * DebugAddressRange),
            patchLowHigh RangePair.1 RangePair.2 P R) R Pending = Ok R' →
  patchesGrow R R'.
Proof.
  apply (foldlR_preserves patchesGrow). intros s a s'. apply patchLowHigh_grows.
Qed.

Lemma flushPendingRanges_ok (P : PatcherRef) (R : DWARFRewriter) :
  (∀ a Pending DIE Range,
     PendingRanges R !! a = Some Pending → (DIE, Range) ∈ Pending → flushable DIE) →
  ∃ R',
    flushPendingRanges P R = Ok R' ∧
    PendingRanges R' = ∅ ∧
    ∀ a Pending DIE Range,
      PendingRanges R !! a = Some Pending → (DIE, Range) ∈ Pending →
      ∃ L H,
        findAttributeInfo DIE DW_AT_low_pc = Some L ∧
        findAttributeInfo DIE DW_AT_high_pc = Some H ∧
        lowPcPatch DIE L H
          (getIndexFromAddress (AddrWriter R) (LowPC Range)
             (default 0 (getDWOId (getDwarfUnit DIE)))) Range
          ∈ Patches (getPatcher R' (lowHighTarget DIE P)) ∧
        highPcPatch H Range ∈ Patches (getPatcher R' (lowHighTarget DIE P)).
Proof.
  intros Hok. unfold flushPendingRanges.
  set (inner := λ (R : DWARFRewriter) (Pending : Z * list (DWARFDie * DebugAddressRange)),
                  foldlR (λ R (RangePair : DWARFDie * DebugAddressRange),
                            patchLowHigh RangePair.1 RangePair.2 P R) R Pending.2).
  assert (∀ s a s', inner s a = Ok s' → patchesGrow s s') as Hinner.
  { intros s a s'. apply flushPendingRanges_inner_grows. }
  destruct (foldlR_Ok inner (map_to_list (PendingRanges R)) R) as [R1 HR1].
  { intros s [a Pending] Ha. apply elem_of_map_to_list in Ha.
    apply foldlR_Ok. intros s1 [DIE Range] Hin.
    destruct (Hok a Pending DIE Range Ha Hin) as ([L HL] & [H HH] & Hidx).
    destruct (patchLowHigh_ok DIE Range P s1 L H HL HH Hidx) as (R' & HR' & _).
    eauto. }
  rewrite HR1. cbn [mbind Result_bind]. eexists. split; [reflexivity|].
  split; [done|].
  intros a Pending DIE Range Ha Hin.
  destruct (Hok a Pending DIE Range Ha Hin) as ([L HL] & [H HH] & Hidx).
  exists L, H. split; [done|]. split; [done|].
  apply elem_of_map_to_list in Ha.
  destruct (foldlR_elem patchesGrow inner Hinner _ _ _ _ HR1 Ha)
    as (s1 & s2 & Hs1 & Hrun & Hs2).
  destruct (foldlR_elem patchesGrow _ (λ s a s', patchLowHigh_grows a.1 a.2 P s s')
              _ _ _ _ Hrun Hin) as (t1 & t2 & Ht1 & Hpatch & Ht2).
  cbn [fst snd] in Hpatch.
  destruct (patchLowHigh_ok DIE Range P t1 L H HL HH Hidx) as (R' & HR' & Hpatches & _).
  rewrite HR' in Hpatch. injection Hpatch as ->.
  assert (AddrWriter t1 = AddrWriter R) as HAW.
  { apply withoutPatchers_AddrWriter. destruct Hs1, Ht1. congruence. }
  rewrite HAW in Hpatches.
  assert (patchesGrow t2 R1) as [_ Hgrow] by (etrans; done).
  split.
  - change (getPatcher (set_PendingRanges ∅ R1) ?T) with (getPatcher R1 T).
    apply Hgrow. rewrite Hpatches. apply elem_of_app. right. by left.
  - change (getPatcher (set_PendingRanges ∅ R1) ?T) with (getPatcher R1 T).
    apply Hgrow. rewrite Hpatches. apply elem_of_app. right. right. by left.
Qed.

(** C2.  At the end of the run every entry that is still pending has its
    low-pc and high-pc fields patched in place from the one range kept for
    it: low-pc receives the low address of the range (for a split unit's
    indexed low-pc, the index the address table gives for that address, in
    the split unit's own patcher), high-pc receives high minus low, on 8
    or on 4 bytes as its form says; and nothing stays pending. *)
Theorem flushPendingRanges_patches_low_high
    (P : PatcherRef) (R : DWARFRewriter) :
  (∀ a Pending DIE Range,
     PendingRanges R !! a = Some Pending → (DIE, Range) ∈ Pending → flushable DIE) →
  ∃ R',
    flushPendingRanges P R = Ok R' ∧
    PendingRanges R' = ∅ ∧
    ∀ a Pending DIE Range,
      PendingRanges R !! a = Some Pending → (DIE, Range) ∈ Pending →
      ∃ L H,
        findAttributeInfo DIE DW_AT_low_pc = Some L ∧
        findAttributeInfo DIE DW_AT_high_pc = Some H ∧
        lowPcPatch DIE L H
          (getIndexFromAddress (AddrWriter R) (LowPC Range)
             (default 0 (getDWOId (getDwarfUnit DIE)))) Range
          ∈ Patches (getPatcher R' (lowHighTarget DIE P)) ∧
        highPcPatch H Range ∈ Patches (getPatcher R' (lowHighTarget DIE P)).
Proof. exact (flushPendingRanges_ok P R). Qed.

(** ** Converting an entry to the ranges encoding *)




(** ** Deferring and forcing the conversion of a declaration *)

Lemma getAbbrevWriter_onAbbrevWriter AW AW' f R :
  getAbbrevWriter (onAbbrevWriter AW f R) AW' =
  if decide (AW = AW') then f (getAbbrevWriter R AW) else getAbbrevWriter R AW'.
Proof.
  unfold getAbbrevWriter, onAbbrevWriter.
  destruct AW as [|i], AW' as [|j]; cbn; try done.
  unfold getBinaryDWOAbbrevWriter. cbn.
  destruct (decide (i = j)) as [->|Hne].
  - rewrite lookup_insert_eq. by rewrite decide_True.
  - rewrite lookup_insert_ne by done. rewrite decide_False by congruence. done.
Qed.

Lemma withoutAbbrevWriters_onAbbrevWriter AW f R :
  withoutAbbrevWriters (onAbbrevWriter AW f R) = withoutAbbrevWriters R.
Proof. by destruct AW. Qed.

Lemma withoutAbbrevWriters_getPatcher R R' T :
  withoutAbbrevWriters R' = withoutAbbrevWriters R → getPatcher R' T = getPatcher R T.
Proof.
  intros E. unfold getPatcher, getBinaryDWODebugInfoPatcher. destruct T.
  - exact (f_equal DebugInfoPatcher E).
  - by rewrite (f_equal BinaryDWODebugInfoPatchers E : BinaryDWODebugInfoPatchers R' = _).
Qed.

Lemma withoutPatchers_getAbbrevWriter R R' AW :
  withoutPatchers R' = withoutPatchers R → getAbbrevWriter R' AW = getAbbrevWriter R AW.
Proof.
  intros E. unfold getAbbrevWriter, getBinaryDWOAbbrevWriter. destruct AW.
  - exact (f_equal AbbrevWriter E).
  - by rewrite (f_equal BinaryDWOAbbrevWriters E : BinaryDWOAbbrevWriters R' = _).
Qed.

Lemma convertToRanges_Abbrev_ok Unit Abbrev AW RangesBase R LowPCSpec HighPCSpec :
  findAttribute Abbrev DW_AT_low_pc = Some LowPCSpec →
  findAttribute Abbrev DW_AT_high_pc = Some HighPCSpec →
  (is_Some RangesBase → SpecForm LowPCSpec ≠ DW_FORM_GNU_addr_index) →
  ∃ R',
    convertToRanges_Abbrev Unit Abbrev AW RangesBase R = Ok R' ∧
    AbbrevPatches (getAbbrevWriter R' AW) =
      AbbrevPatches (getAbbrevWriter R AW) ++
      conversionPatches Unit Abbrev RangesBase (SpecForm LowPCSpec) (SpecForm HighPCSpec) ∧
    (∀ AW', AW' ≠ AW → getAbbrevWriter R' AW' = getAbbrevWriter R AW') ∧
    withoutAbbrevWriters R' = withoutAbbrevWriters R.
Proof.
  intros HL HH HRB. unfold convertToRanges_Abbrev, conversionPatches. rewrite HL, HH.
  destruct RangesBase as [RB|].
  - rewrite bool_decide_eq_false_2 by (apply HRB; eauto).
    cbn [mbind Result_bind]. eexists. split; [reflexivity|].
    rewrite !getAbbrevWriter_onAbbrevWriter, !decide_True by done. cbn.
    rewrite <- ?app_assoc. repeat split; try done.
    + intros AW' Hne. by rewrite !getAbbrevWriter_onAbbrevWriter, !decide_False.
    + by rewrite !withoutAbbrevWriters_onAbbrevWriter.
  - destruct (bool_decide (SpecForm LowPCSpec ≠ DW_FORM_GNU_addr_index) &&
              isHighPcFormEightBytes (SpecForm HighPCSpec)).
    all: cbn [mbind Result_bind]; eexists; (split; [reflexivity|]).
    all: rewrite !getAbbrevWriter_onAbbrevWriter, !decide_True by done; cbn.
    all: rewrite <- ?app_assoc; repeat split; try done.
    all: try (intros AW' Hne; by rewrite !getAbbrevWriter_onAbbrevWriter, !decide_False).
    all: by rewrite !withoutAbbrevWriters_onAbbrevWriter.
Qed.

Lemma hasIndexedLowPC_form DIE L :
  findAttributeInfo DIE DW_AT_low_pc = Some L →
  hasIndexedLowPC DIE = bool_decide (getForm (V L) = DW_FORM_GNU_addr_index).
Proof. intros HL. unfold hasIndexedLowPC. by rewrite HL. Qed.

Lemma convertToRanges_Ranges_ok DIE Ranges P R L H nbf :
  findAttributeInfo DIE DW_AT_low_pc = Some L →
  findAttributeInfo DIE DW_AT_high_pc = Some H →
  getAddressByteSize (getDwarfUnit DIE) = 8 →
  NumBytesToFill_of (getForm (V H)) = Ok nbf →
  let D := mkRangeAttrData (Offset L) (Offset H) (V L) (V H) in
  ∃ R',
    convertToRanges_Ranges DIE Ranges P R = Ok R' ∧
    RangesSectionWriter R' = (addRanges (RangesSectionWriter R) Ranges).2 ∧
    Patches (getPatcher R' P) =
      Patches (getPatcher R P) ++ fillerPatches D nbf None ++
      [rangesOffsetPatch DIE H nbf (addRanges (RangesSectionWriter R) Ranges).1
         (getPatcher R P)] ∧
    RangeBase (getPatcher R' P) = RangeBase (getPatcher R P) ∧
    (∀ T, T ≠ P → getPatcher R' T = getPatcher R T) ∧
    withoutPatchers R' = withoutPatchers (set_RangesSectionWriter
                                            (addRanges (RangesSectionWriter R) Ranges).2 R).
Proof.
  intros HL HH Hsize Hnbf D.
  unfold convertToRanges_Ranges.
  assert ((if bool_decide (Ranges = [])
           then (getEmptyRangesOffset (RangesSectionWriter R), RangesSectionWriter R)
           else addRanges (RangesSectionWriter R) Ranges) =
          addRanges (RangesSectionWriter R) Ranges) as ->.
  { unfold addRanges. by case_bool_decide. }
  destruct (addRanges (RangesSectionWriter R) Ranges) as [off W'] eqn:EA.
  cbn [fst snd].
  destruct (convertToRanges_Offset_ok DIE off P None (set_RangesSectionWriter W' R)
              L H nbf HL HH Hsize Hnbf) as (R' & HR' & HP & HB & HT & HF).
  exists R'. split; [done|].
  assert (∀ T, getPatcher (set_RangesSectionWriter W' R) T = getPatcher R T) as HG
    by (by intros []).
  rewrite !HG in HP, HB. split.
  { apply (f_equal RangesSectionWriter) in HF. exact HF. }
  split.
  { rewrite HP. unfold rangesOffsetPatch, rangesBaseOffset.
    by rewrite (hasIndexedLowPC_form DIE L HL). }
  split; [done|]. split; [|done].
  intros T HT'. rewrite HT by done. apply HG.
Qed.

Lemma addToPendingRanges_ok Abbrev DIE Front Rest DWOId R :
  (hasIndexedLowPC DIE = true →
   is_Some DWOId ∧ is_Some (findAttributeInfo DIE DW_AT_high_pc)) →
  ∃ W,
    addToPendingRanges Abbrev DIE (Front :: Rest) DWOId R =
    Ok (set_PendingRanges
          (<[AbbrevPtr Abbrev :=
               default [] (PendingRanges R !! AbbrevPtr Abbrev) ++ [(DIE, Front)]]>
             (PendingRanges R))
          (set_AddrWriter W R)) ∧
    (hasIndexedLowPC DIE = false → W = AddrWriter R).
Proof.
  intros Hidx. unfold addToPendingRanges, find, hasIndexedLowPC in *.
  destruct (findAttributeInfo DIE DW_AT_low_pc) as [L|]; cbn [fmap option_fmap option_map].
  - case_bool_decide as Hform.
    + destruct (Hidx eq_refl) as [[id ->] [H ->]]. cbn [fmap option_fmap option_map].
      cbn [mbind Result_bind]. eexists. split; [reflexivity|]. done.
    + cbn [mbind Result_bind]. exists (AddrWriter R). split; [|done].
      by destruct R.
  - cbn [mbind Result_bind]. exists (AddrWriter R). split; [|done]. by destruct R.
Qed.

Lemma delayConversion_defers Unit DIE A FunctionRanges P AW R :
  getAbbreviationDeclarationPtr (Die DIE) = Some A →
  (length FunctionRanges ≤ 1)%nat →
  AbbrevPtr A ∉ ConvertedRangesAbbrevs R →
  (hasIndexedLowPC DIE = true →
   is_Some (getDWOId Unit) ∧ is_Some (findAttributeInfo DIE DW_AT_high_pc)) →
  ∃ W,
    delayConversion Unit DIE FunctionRanges P AW R =
    Ok (set_PendingRanges
          (<[AbbrevPtr A :=
               default [] (PendingRanges R !! AbbrevPtr A) ++
               [(DIE, default DebugAddressRange_default (head FunctionRanges))]]>
             (PendingRanges R))
          (set_AddrWriter W R)) ∧
    (hasIndexedLowPC DIE = false → W = AddrWriter R).
Proof.
  intros HA Hlen Hconv Hidx. unfold delayConversion. rewrite HA.
  rewrite bool_decide_eq_false_2 by lia.
  rewrite bool_decide_eq_false_2 by done.
  destruct FunctionRanges as [|Front Rest]; cbn [head default].
  - apply addToPendingRanges_ok. done.
  - apply addToPendingRanges_ok. done.
Qed.

(** C10.  An entry is deferred with exactly one range: the function's only
    output range, or the zero range when the function has none.  The flush
    then finds a range for every pending entry and patches an entry
    deferred without output ranges from the range (0,0): its high-pc field
    receives 0, and its low-pc field 0 (or, when it is an index, the index
    of address 0). *)
Theorem deferred_entry_has_one_range
    (Unit : UnitInfo) (E : DWARFDebugInfoEntry) (A : DWARFAbbreviationDeclaration)
    (FunctionRanges : DebugAddressRangesVector) (P : PatcherRef)
    (AW : AbbrevWriterRef) (R : DWARFRewriter) :
  let DIE := mkDie Unit E in
  getAbbreviationDeclarationPtr E = Some A →
  (length FunctionRanges ≤ 1)%nat →
  AbbrevPtr A ∉ ConvertedRangesAbbrevs R →
  flushable DIE →
  (∀ a Pending DIE' Range,
     PendingRanges R !! a = Some Pending → (DIE', Range) ∈ Pending → flushable DIE') →
  ∃ R' Range,
    delayConversion Unit DIE FunctionRanges P AW R = Ok R' ∧
    PendingRanges R' =
      <[AbbrevPtr A :=
          default [] (PendingRanges R !! AbbrevPtr A) ++ [(DIE, Range)]]>
        (PendingRanges R) ∧
    Range = default DebugAddressRange_default (head FunctionRanges) ∧
    (FunctionRanges = [] → Range = mkRange 0 0) ∧
    ∀ P', ∃ R'' L H,
      flushPendingRanges P' R' = Ok R'' ∧
      findAttributeInfo DIE DW_AT_low_pc = Some L ∧
      findAttributeInfo DIE DW_AT_high_pc = Some H ∧
      lowPcPatch DIE L H
        (getIndexFromAddress (AddrWriter R') (LowPC Range) (default 0 (getDWOId Unit)))
        Range ∈ Patches (getPatcher R'' (lowHighTarget DIE P')) ∧
      highPcPatch H Range ∈ Patches (getPatcher R'' (lowHighTarget DIE P')) ∧
      (FunctionRanges = [] →
       highPcPatch H Range =
         (if isHighPcFormEightBytes (getForm (V H))
          then LE64Patch (Offset H) 0 else LE32Patch (Offset H) 0) ∧
       (hasIndexedLowPC DIE = false →
        lowPcPatch DIE L H
          (getIndexFromAddress (AddrWriter R') (LowPC Range) (default 0 (getDWOId Unit)))
          Range = LE64Patch (Offset L) 0)).
Proof.
  intros DIE HA Hlen Hconv Hfl Hall.
  destruct (Hfl) as (HisL & HisH & HidxU).
  destruct (delayConversion_defers Unit DIE A FunctionRanges P AW R HA Hlen Hconv)
    as (W & Hrun & HW).
  { intros Hi. destruct (HidxU Hi) as [_ ?]. done. }
  eexists _, _. split; [exact Hrun|]. split; [done|]. split; [done|].
  split; [by intros ->|].
  intros P'.
  set (Range := default DebugAddressRange_default (head FunctionRanges)).
  set (R' := set_PendingRanges _ _).
  assert (PendingRanges R' !! AbbrevPtr A =
          Some (default [] (PendingRanges R !! AbbrevPtr A) ++ [(DIE, Range)])) as HP'
    by apply lookup_insert_eq.
  destruct (flushPendingRanges_ok P' R') as (R'' & Hflush & _ & Hpatches).
  { intros a Pending DIE' Range' Ha Hin. unfold R' in Ha. cbn in Ha.
    destruct (decide (a = AbbrevPtr A)) as [->|Hne].
    - rewrite lookup_insert_eq in Ha. injection Ha as <-.
      apply elem_of_app in Hin as [Hin|Hin].
      + destruct (PendingRanges R !! AbbrevPtr A) as [old|] eqn:Eold; cbn in Hin.
        * by eapply Hall.
        * by apply elem_of_nil in Hin.
      + apply list_elem_of_singleton in Hin. injection Hin as -> _. done.
    - rewrite lookup_insert_ne in Ha by done. by eapply Hall. }
  destruct (Hpatches _ _ DIE Range HP') as (L & H & HL & HH & Hlow & Hhigh).
  { apply elem_of_app. right. by left. }
  exists R'', L, H. do 5 (split; [done|]).
  intros HFR. split.
  - unfold highPcPatch, Range. rewrite HFR. cbn.
    by destruct (isHighPcFormEightBytes _).
  - intros Hni. unfold lowPcPatch. rewrite Hni. unfold Range.
    by rewrite HFR.
Qed.

Lemma withoutPatchers_inv R R' :
  withoutPatchers R' = withoutPatchers R →
  PendingRanges R' = PendingRanges R ∧
  ConvertedRangesAbbrevs R' = ConvertedRangesAbbrevs R ∧
  RangesSectionWriter R' = RangesSectionWriter R ∧
  AddrWriter R' = AddrWriter R ∧
  ∀ AW, getAbbrevWriter R' AW = getAbbrevWriter R AW.
Proof.
  intros E. split; [exact (f_equal PendingRanges E)|].
  split; [exact (f_equal ConvertedRangesAbbrevs E)|].
  split; [exact (f_equal RangesSectionWriter E)|].
  split; [exact (f_equal AddrWriter E)|].
  intros AW. by apply withoutPatchers_getAbbrevWriter.
Qed.

Lemma withoutAbbrevWriters_inv R R' :
  withoutAbbrevWriters R' = withoutAbbrevWriters R →
  PendingRanges R' = PendingRanges R ∧
  ConvertedRangesAbbrevs R' = ConvertedRangesAbbrevs R ∧
  RangesSectionWriter R' = RangesSectionWriter R ∧
  AddrWriter R' = AddrWriter R ∧
  ∀ T, getPatcher R' T = getPatcher R T.
Proof.
  intros E. split; [exact (f_equal PendingRanges E)|].
  split; [exact (f_equal ConvertedRangesAbbrevs E)|].
  split; [exact (f_equal RangesSectionWriter E)|].
  split; [exact (f_equal AddrWriter E)|].
  intros T. by apply withoutAbbrevWriters_getPatcher.
Qed.

(** The second function of the scenario of C1: the declaration is not
    converted yet, one entry is pending under it, and the function has
    several output ranges. *)
Lemma delayConversion_forces Unit DIE1 DIE2 A Range1 Ranges2 P AW R
    LowPCSpec HighPCSpec L1 H1 nbf1 L2 H2 nbf2 :
  getAbbreviationDeclarationPtr (Die DIE2) = Some A →
  findAttribute A DW_AT_low_pc = Some LowPCSpec →
  findAttribute A DW_AT_high_pc = Some HighPCSpec →
  findAttributeInfo DIE1 DW_AT_low_pc = Some L1 →
  findAttributeInfo DIE1 DW_AT_high_pc = Some H1 →
  NumBytesToFill_of (getForm (V H1)) = Ok nbf1 →
  getAddressByteSize (getDwarfUnit DIE1) = 8 →
  findAttributeInfo DIE2 DW_AT_low_pc = Some L2 →
  findAttributeInfo DIE2 DW_AT_high_pc = Some H2 →
  NumBytesToFill_of (getForm (V H2)) = Ok nbf2 →
  getAddressByteSize (getDwarfUnit DIE2) = 8 →
  AbbrevPtr A ∉ ConvertedRangesAbbrevs R →
  PendingRanges R !! AbbrevPtr A = Some [(DIE1, Range1)] →
  (1 < length Ranges2)%nat →
  let W1 := addRanges (RangesSectionWriter R) [Range1] in
  let W2 := addRanges W1.2 Ranges2 in
  ∃ R2,
    delayConversion Unit DIE2 Ranges2 P AW R = Ok R2 ∧
    ConvertedRangesAbbrevs R2 = {[AbbrevPtr A]} ∪ ConvertedRangesAbbrevs R ∧
    PendingRanges R2 = delete (AbbrevPtr A) (PendingRanges R) ∧
    RangesSectionWriter R2 = W2.2 ∧
    AbbrevPatches (getAbbrevWriter R2 AW) =
      AbbrevPatches (getAbbrevWriter R AW) ++
      conversionPatches Unit A None (SpecForm LowPCSpec) (SpecForm HighPCSpec) ∧
    Patches (getPatcher R2 P) =
      Patches (getPatcher R P) ++
      (fillerPatches (mkRangeAttrData (Offset L1) (Offset H1) (V L1) (V H1)) nbf1 None ++
       [rangesOffsetPatch DIE1 H1 nbf1 W1.1 (getPatcher R P)]) ++
      (fillerPatches (mkRangeAttrData (Offset L2) (Offset H2) (V L2) (V H2)) nbf2 None ++
       [rangesOffsetPatch DIE2 H2 nbf2 W2.1 (getPatcher R P)]).
Proof.
  intros HA HLs HHs HL1 HH1 Hn1 Hs1 HL2 HH2 Hn2 Hs2 Hconv Hpend Hlen W1 W2.
  unfold delayConversion. rewrite HA.
  rewrite bool_decide_eq_true_2 by lia.
  unfold convertPending. rewrite bool_decide_eq_false_2 by done.
  destruct (convertToRanges_Abbrev_ok Unit A AW None R LowPCSpec HighPCSpec HLs HHs)
    as (Ra & HRa & HAPa & _ & HFa).
  { by intros [? [=]]. }
  rewrite HRa. cbn [mbind Result_bind].
  destruct (withoutAbbrevWriters_inv _ _ HFa) as (HPa & HCa & HWa & _ & HGa).
  rewrite HPa, Hpend. cbn [foldlR fst snd].
  destruct (convertToRanges_Ranges_ok DIE1 [Range1] P Ra L1 H1 nbf1 HL1 HH1 Hs1 Hn1)
    as (Rb & HRb & HWb & HPb & HBb & _ & HFb).
  rewrite HRb. cbn [mbind Result_bind].
  destruct (withoutPatchers_inv _ _ HFb) as (HPb' & HCb & _ & _ & HGb).
  cbn in HPb', HCb.
  set (Rd := set_ConvertedRangesAbbrevs _ _).
  destruct (convertToRanges_Ranges_ok DIE2 Ranges2 P Rd L2 H2 nbf2 HL2 HH2 Hs2 Hn2)
    as (R2 & HR2 & HW2 & HP2 & _ & _ & HF2).
  exists R2. split; [exact HR2|].
  destruct (withoutPatchers_inv _ _ HF2) as (HP2' & HC2 & _ & _ & HG2).
  assert (getPatcher Rd P = getPatcher Rb P) as HGd by (by destruct P).
  assert (RangesSectionWriter Rd = RangesSectionWriter Rb) as HWd by done.
  assert (∀ AW', getAbbrevWriter Rd AW' = getAbbrevWriter Rb AW') as HAd
    by (by intros []).
  rewrite HWa in HWb.
  split. { rewrite HC2. unfold Rd. cbn. by rewrite HCb, HCa. }
  split. { rewrite HP2'. unfold Rd. cbn. by rewrite HPb', HPa. }
  split. { rewrite HW2, HWd, HWb. done. }
  split.
  { rewrite HG2. 
    change (getAbbrevWriter (set_RangesSectionWriter ?W Rd) AW)
      with (getAbbrevWriter Rd AW).
    rewrite HAd, HGb.
    change (getAbbrevWriter (set_RangesSectionWriter ?W Ra) AW)
      with (getAbbrevWriter Ra AW).
    exact HAPa. }
  rewrite HP2, HGd, HPb, !HGa, HWd, HWb, HWa.
  unfold rangesOffsetPatch at 2, rangesBaseOffset. rewrite HBb, HGa.
  rewrite <- !app_assoc. done.
Qed.

Lemma convertToRanges_Offset_frame DIE off P RangesBase R R' :
  convertToRanges_Offset DIE off P RangesBase R = Ok R' →
  withoutPatchers R' = withoutPatchers R.
Proof.
  unfold convertToRanges_Offset.
  destruct (getRangeAttrData DIE R) as [[D R1]| | |] eqn:Hdata; try done.
  apply getRangeAttrData_grows in Hdata as [Hdata _]. cbn [mbind Result_bind].
  case_bool_decide; [done|].
  destruct (NumBytesToFill_of _) as [nbf| | |]; try done. cbn [mbind Result_bind].
  case_bool_decide.
  - unfold getRangeBase. cbn [fst snd]. intros [= <-].
    by rewrite !withoutPatchers_onPatcher, withoutPatchers_setPatcher,
      withoutPatchers_onPatcher.
  - destruct RangesBase as [RB|]; [|case_bool_decide]; intros [= <-];
      by rewrite !withoutPatchers_onPatcher.
Qed.

Lemma convertToRanges_Ranges_frame DIE Ranges P R R' :
  convertToRanges_Ranges DIE Ranges P R = Ok R' →
  ConvertedRangesAbbrevs R' = ConvertedRangesAbbrevs R ∧
  PendingRanges R' = PendingRanges R ∧
  ∀ AW, getAbbrevWriter R' AW = getAbbrevWriter R AW.
Proof.
  unfold convertToRanges_Ranges.
  destruct (if bool_decide (Ranges = []) then _ else _) as [off W].
  intros Hrun. apply convertToRanges_Offset_frame in Hrun.
  destruct (withoutPatchers_inv _ _ Hrun) as (HP & HC & _ & _ & HG).
  split; [done|]. split; [done|]. intros AW. rewrite HG. by destruct AW.
Qed.

Lemma addToPendingRanges_frame Abbrev DIE FunctionRanges DWOId R R' :
  addToPendingRanges Abbrev DIE FunctionRanges DWOId R = Ok R' →
  ConvertedRangesAbbrevs R' = ConvertedRangesAbbrevs R ∧
  ∀ AW, getAbbrevWriter R' AW = getAbbrevWriter R AW.
Proof.
  unfold addToPendingRanges.
  destruct (match find DIE DW_AT_low_pc with Some _ => _ | None => _ end)
    as [R1| | |] eqn:E1; try done.
  cbn [mbind Result_bind].
  assert (ConvertedRangesAbbrevs R1 = ConvertedRangesAbbrevs R ∧
          ∀ AW, getAbbrevWriter R1 AW = getAbbrevWriter R AW) as [HC HG].
  { destruct (find DIE DW_AT_low_pc) as [LowPc|]; [|by injection E1 as <-].
    case_bool_decide; [|by injection E1 as <-].
    destruct DWOId as [id|], (find DIE DW_AT_high_pc) as [HighPc|]; try done.
    injection E1 as <-. split; [done|]. by intros []. }
  destruct FunctionRanges as [|Front Rest]; [done|]. intros [= <-].
  split; [done|]. intros AW. rewrite <- HG. by destruct AW.
Qed.

Lemma conversionPatches_count a Unit A RangesBase LowPCForm HighPCForm :
  length (filter (λ p, PatchAbbrev p = a ∧ OldAttrTag p = DW_AT_high_pc)
            (conversionPatches Unit A RangesBase LowPCForm HighPCForm)) =
  if decide (AbbrevPtr A = a) then 1%nat else 0%nat.
Proof.
  unfold conversionPatches.
  set (Low := match RangesBase with Some _ => _ | None => _ end).
  rewrite filter_app, length_app.
  assert (filter (λ p, PatchAbbrev p = a ∧ OldAttrTag p = DW_AT_high_pc) Low = [])
    as ->.
  { unfold Low. destruct RangesBase; [|destruct (_ && _)]; try done.
    all: rewrite filter_cons_False; [done|cbn; by intros [_ ?]]. }
  case_decide as Ha.
  - rewrite filter_cons_True by done. done.
  - rewrite filter_cons_False; [done|]. cbn. by intros [? _].
Qed.

Lemma convertPending_effect Unit A P AW R R' a :
  convertPending Unit A P AW R = Ok R' →
  ConvertedRangesAbbrevs R' = {[AbbrevPtr A]} ∪ ConvertedRangesAbbrevs R ∧
  conversionsOf a (getAbbrevWriter R' AW) =
    (conversionsOf a (getAbbrevWriter R AW) +
     if decide (AbbrevPtr A = a ∧ AbbrevPtr A ∉ ConvertedRangesAbbrevs R)
     then 1 else 0)%nat.
Proof.
  unfold convertPending. case_bool_decide as Hin.
  - intros [= <-]. split; [set_solver|].
    rewrite decide_False by (intros [_ ?]; done). lia.
  - destruct (convertToRanges_Abbrev Unit A AW None R) as [Ra| | |] eqn:HRa; try done.
    cbn [mbind Result_bind].
    assert (∃ ls hs, findAttribute A DW_AT_low_pc = Some ls ∧
                     findAttribute A DW_AT_high_pc = Some hs) as (ls & hs & Hls & Hhs).
    { unfold convertToRanges_Abbrev in HRa.
      destruct (findAttribute A DW_AT_high_pc); [|done].
      destruct (findAttribute A DW_AT_low_pc); [|done]. eauto. }
    destruct (convertToRanges_Abbrev_ok Unit A AW None R ls hs Hls Hhs)
      as (Ra' & HRa' & HAP & _ & HF); [by intros [? [=]]|].
    rewrite HRa in HRa'. injection HRa' as <-.
    destruct (withoutAbbrevWriters_inv _ _ HF) as (_ & HCa & _).
    assert (∀ Rb, 
      match PendingRanges Ra !! AbbrevPtr A with
      | Some Pending =>
          R0 ← foldlR (λ R0 (Pair : DWARFDie * DebugAddressRange),
                         convertToRanges_Ranges Pair.1 [Pair.2] P R0) Ra Pending;
          Ok (set_PendingRanges (delete (AbbrevPtr A) (PendingRanges R0)) R0)
      | None => Ok Ra
      end = Ok Rb →
      ConvertedRangesAbbrevs Rb = ConvertedRangesAbbrevs Ra ∧
      ∀ AW', getAbbrevWriter Rb AW' = getAbbrevWriter Ra AW') as Hfold.
    { intros Rb. destruct (PendingRanges Ra !! AbbrevPtr A) as [Pending|];
        [|by intros [= <-]].
      destruct (foldlR _ Ra Pending) as [R0| | |] eqn:Ef; try done.
      cbn [mbind Result_bind]. intros [= <-].
      assert (ConvertedRangesAbbrevs R0 = ConvertedRangesAbbrevs Ra ∧
              ∀ AW', getAbbrevWriter R0 AW' = getAbbrevWriter Ra AW') as [HC0 HG0].
      { revert Ef.
        apply (foldlR_preserves sameConversions).
        intros s c s' Hc. apply convertToRanges_Ranges_frame in Hc as (? & _ & ?).
        done. }
      split; [done|]. intros AW'. rewrite <- HG0. by destruct AW'. }
    destruct (match PendingRanges Ra !! AbbrevPtr A with Some _ => _ | None => _ end)
      as [Rb| | |] eqn:ERb; try done.
    cbn [mbind Result_bind]. intros [= <-].
    destruct (Hfold Rb eq_refl) as [HCb HGb]. cbn. split; [by rewrite HCb, HCa|].
    change (getAbbrevWriter (set_ConvertedRangesAbbrevs ?c Rb) AW)
      with (getAbbrevWriter Rb AW).
    rewrite HGb. unfold conversionsOf.
    rewrite HAP, filter_app, length_app, conversionPatches_count.
    repeat case_decide; naive_solver lia.
Qed.

Lemma sameConversions_balance a AW R R' :
  sameConversions R R' → conversionBalance a AW R R'.
Proof.
  intros [HC HG]. split; [by rewrite HC|]. rewrite HC, HG. done.
Qed.

Lemma delayConversion_balance a Unit DIE FunctionRanges P AW R R' :
  delayConversion Unit DIE FunctionRanges P AW R = Ok R' →
  conversionBalance a AW R R'.
Proof.
  unfold delayConversion.
  destruct (getAbbreviationDeclarationPtr (Die DIE)) as [A|]; [|done].
  case_bool_decide as Hlen; [|case_bool_decide as Hconv].
  - destruct (convertPending Unit A P AW R) as [Ra| | |] eqn:HRa; try done.
    cbn [mbind Result_bind]. intros Hrun.
    apply (convertPending_effect _ _ _ _ _ _ a) in HRa as [HCa HNa].
    apply convertToRanges_Ranges_frame in Hrun as (HC & _ & HG).
    split.
    + rewrite HC, HCa. apply union_subseteq_r.
    + rewrite HC, HG, HNa, HCa.
      repeat case_decide; try lia.
      all: exfalso; set_unfold; naive_solver.
  - intros Hrun. apply convertToRanges_Ranges_frame in Hrun as (HC & _ & HG).
    apply sameConversions_balance. by split.
  - intros Hrun. apply addToPendingRanges_frame in Hrun.
    by apply sameConversions_balance.
Qed.

Lemma delayConversions_balance a Unit P AW Calls R R' :
  delayConversions Unit P AW Calls R = Ok R' → conversionBalance a AW R R'.
Proof.
  apply (foldlR_preserves (conversionBalance a AW)).
  intros s c s'. apply delayConversion_balance.
Qed.

(** C1.  Two subprograms share a declaration that nothing has touched yet.
    The first has one output range and is deferred: nothing is converted
    and nothing is patched.  The second has several and forces the
    conversion: the declaration's pair is rewritten by one request, the
    two range lists are stored in the ranges section, each of the two
    entries gets the offset of its list (relative to the range base where
    that applies) in the place of its high-pc, nothing stays pending, and
    a further request to convert the declaration changes nothing.  For any
    run of subprograms the declaration is rewritten at most once, and not
    at all once it is converted. *)
Theorem shared_declaration_converted_once
    (Unit : UnitInfo) (E1 E2 : DWARFDebugInfoEntry)
    (A : DWARFAbbreviationDeclaration) (Range1 : DebugAddressRange)
    (Ranges2 : DebugAddressRangesVector) (P : PatcherRef) (AW : AbbrevWriterRef)
    (R : DWARFRewriter) (LowPCSpec HighPCSpec : AttributeSpec)
    (L1 H1 L2 H2 : AttrInfo) (nbf1 nbf2 : Z) :
  let DIE1 := mkDie Unit E1 in
  let DIE2 := mkDie Unit E2 in
  getAbbreviationDeclarationPtr E1 = Some A →
  getAbbreviationDeclarationPtr E2 = Some A →
  findAttribute A DW_AT_low_pc = Some LowPCSpec →
  findAttribute A DW_AT_high_pc = Some HighPCSpec →
  findAttributeInfo DIE1 DW_AT_low_pc = Some L1 →
  findAttributeInfo DIE1 DW_AT_high_pc = Some H1 →
  NumBytesToFill_of (getForm (V H1)) = Ok nbf1 →
  findAttributeInfo DIE2 DW_AT_low_pc = Some L2 →
  findAttributeInfo DIE2 DW_AT_high_pc = Some H2 →
  NumBytesToFill_of (getForm (V H2)) = Ok nbf2 →
  getAddressByteSize Unit = 8 →
  (hasIndexedLowPC DIE1 = true → is_Some (getDWOId Unit)) →
  AbbrevPtr A ∉ ConvertedRangesAbbrevs R →
  PendingRanges R !! AbbrevPtr A = None →
  (1 < length Ranges2)%nat →
  let Offset1 := getSectionOffset (RangesSectionWriter R) in
  let Offset2 := Offset1 + rangesByteSize [Range1] in
  (∃ R1 R2,
     delayConversion Unit DIE1 [Range1] P AW R = Ok R1 ∧
     delayConversion Unit DIE2 Ranges2 P AW R1 = Ok R2 ∧
     (* after the first function *)
     PendingRanges R1 !! AbbrevPtr A = Some [(DIE1, Range1)] ∧
     ConvertedRangesAbbrevs R1 = ConvertedRangesAbbrevs R ∧
     getAbbrevWriter R1 AW = getAbbrevWriter R AW ∧
     getPatcher R1 P = getPatcher R P ∧
     (* after the second function *)
     AbbrevPtr A ∈ ConvertedRangesAbbrevs R2 ∧
     PendingRanges R2 !! AbbrevPtr A = None ∧
     AddedRanges (RangesSectionWriter R2) =
       AddedRanges (RangesSectionWriter R) ++ [[Range1]; Ranges2] ∧
     AbbrevPatches (getAbbrevWriter R2 AW) =
       AbbrevPatches (getAbbrevWriter R AW) ++
       conversionPatches Unit A None (SpecForm LowPCSpec) (SpecForm HighPCSpec) ∧
     conversionsOf (AbbrevPtr A) (getAbbrevWriter R2 AW) =
       S (conversionsOf (AbbrevPtr A) (getAbbrevWriter R AW)) ∧
     rangesOffsetPatch DIE1 H1 nbf1 Offset1 (getPatcher R P)
       ∈ Patches (getPatcher R2 P) ∧
     rangesOffsetPatch DIE2 H2 nbf2 Offset2 (getPatcher R P)
       ∈ Patches (getPatcher R2 P) ∧
     convertPending Unit A P AW R2 = Ok R2) ∧
  (∀ a Calls R0 R',
     delayConversions Unit P AW Calls R0 = Ok R' →
     (conversionsOf a (getAbbrevWriter R' AW) ≤
      S (conversionsOf a (getAbbrevWriter R0 AW)))%nat ∧
     (a ∈ ConvertedRangesAbbrevs R0 →
      conversionsOf a (getAbbrevWriter R' AW) =
      conversionsOf a (getAbbrevWriter R0 AW))).
Proof.
  intros DIE1 DIE2 HA1 HA2 HLs HHs HL1 HH1 Hn1 HL2 HH2 Hn2 Hsize Hidx Hconv Hpend
    Hlen Offset1 Offset2.
  split.
  - destruct (delayConversion_defers Unit DIE1 A [Range1] P AW R HA1) as (W & HR1 & _).
    { done. } { done. }
    { intros Hi. split; [by apply Hidx|by eexists]. }
    rewrite Hpend in HR1. cbn [default head app] in HR1.
    set (R1 := set_PendingRanges _ _) in HR1.
    assert (PendingRanges R1 !! AbbrevPtr A = Some [(DIE1, Range1)]) as HP1
      by apply lookup_insert_eq.
    destruct (delayConversion_forces Unit DIE1 DIE2 A Range1 Ranges2 P AW R1
                LowPCSpec HighPCSpec L1 H1 nbf1 L2 H2 nbf2)
      as (R2 & HR2 & HC2 & HP2 & HW2 & HAP2 & HPP2); try done.
    assert (getPatcher R1 P = getPatcher R P) as HG1 by (by destruct P).
    assert (getAbbrevWriter R1 AW = getAbbrevWriter R AW) as HGA1 by (by destruct AW).
    assert ([Range1] ≠ [] ∧ Ranges2 ≠ []) as [Hne1 Hne2].
    { split; [done|]. intros ->. cbn in Hlen. lia. }
    pose proof (addRanges_fresh (RangesSectionWriter R) [Range1] Hne1) as [Ho1 _].
    pose proof (addRanges_fresh (addRanges (RangesSectionWriter R) [Range1]).2
                  Ranges2 Hne2) as [Ho2 _].
    change (RangesSectionWriter R1) with (RangesSectionWriter R) in *.
    rewrite Ho1, Ho2, HG1, HGA1 in *.
    assert (getSectionOffset (addRanges (RangesSectionWriter R) [Range1]).2 = Offset2)
      as HO2.
    { unfold addRanges. rewrite bool_decide_eq_false_2 by done. cbn [snd].
      unfold getSectionOffset. cbn [AddedRanges]. apply rangesSectionSize_app. }
    rewrite HO2 in HPP2.
    exists R1, R2. split; [done|]. split; [done|]. split; [done|].
    split; [done|]. split; [done|]. split; [done|].
    split. { rewrite HC2. set_solver. }
    split. { rewrite HP2. apply lookup_delete_eq. }
    split.
    { rewrite HW2. unfold addRanges. rewrite !bool_decide_eq_false_2 by done.
      cbn. by rewrite <- app_assoc. }
    split; [done|]. split.
    { unfold conversionsOf. rewrite HAP2, filter_app, length_app.
      rewrite conversionPatches_count, decide_True by done. lia. }
    split.
    { rewrite HPP2. apply elem_of_app. right. apply elem_of_app. left.
      apply elem_of_app. right. by left. }
    split.
    { rewrite HPP2. apply elem_of_app. right. apply elem_of_app. right.
      apply elem_of_app. right. by left. }
    unfold convertPending. rewrite bool_decide_eq_true_2; [done|].
    rewrite HC2. set_solver.
  - intros a Calls R0 R' Hrun.
    apply (delayConversions_balance a) in Hrun as [Hsub Hbal].
    split.
    + repeat case_decide; lia.
    + intros Ha. rewrite decide_True in Hbal by done.
      rewrite decide_True in Hbal by (by apply Hsub). lia.
Qed.

(** ** Blocks *)





(** ** The final location-list section *)

Lemma layoutLocLists_cons Loc Ws Buf Off M :
  layoutLocLists (Loc :: Ws) Buf Off M =
  if isDebugLoclistWriter Loc.2 then layoutLocLists Ws Buf Off M
  else layoutLocLists Ws (Buf ++ finalizeLoc Loc.2)
         (Off + Z.of_nat (length (finalizeLoc Loc.2))) (<[Loc.1 := Off]> M).
Proof. unfold layoutLocLists. cbn [foldl]. by destruct (isDebugLoclistWriter Loc.2). Qed.

Lemma locListsSize_cons Loc Ws :
  locListsSize (Loc :: Ws) =
  if isDebugLoclistWriter Loc.2 then locListsSize Ws
  else Z.of_nat (length (finalizeLoc Loc.2)) + locListsSize Ws.
Proof.
  unfold locListsSize. cbn [locListsBytes foldr].
  destruct (isDebugLoclistWriter Loc.2); [done|].
  by rewrite length_app, Nat2Z.inj_add.
Qed.

Lemma layoutLocLists_buffer Ws : ∀ Buf Off M,
  (layoutLocLists Ws Buf Off M).1.1 = Buf ++ locListsBytes Ws.
Proof.
  induction Ws as [|Loc Ws IH]; intros Buf Off M.
  - cbn. by rewrite app_nil_r.
  - rewrite layoutLocLists_cons. cbn [locListsBytes foldr].
    destruct (isDebugLoclistWriter Loc.2); [apply IH|].
    rewrite IH. by rewrite <- app_assoc.
Qed.

Lemma layoutLocLists_offset Ws : ∀ Buf Off M,
  (layoutLocLists Ws Buf Off M).1.2 = Off + locListsSize Ws.
Proof.
  induction Ws as [|Loc Ws IH]; intros Buf Off M.
  - cbn. unfold locListsSize. cbn. lia.
  - rewrite layoutLocLists_cons, locListsSize_cons.
    destruct (isDebugLoclistWriter Loc.2); [apply IH|].
    rewrite IH. lia.
Qed.

Lemma layoutLocLists_other Ws k : ∀ Buf Off M,
  k ∉ Ws.*1 → (layoutLocLists Ws Buf Off M).2 !! k = M !! k.
Proof.
  induction Ws as [|Loc Ws IH]; intros Buf Off M Hk; [done|].
  rewrite layoutLocLists_cons.
  cbn [fmap list_fmap] in Hk. apply not_elem_of_cons in Hk as [Hne Hk].
  destruct (isDebugLoclistWriter Loc.2); [by apply IH|].
  rewrite IH by done. by rewrite lookup_insert_ne.
Qed.

Lemma layoutLocLists_base Before CU W After : ∀ Buf Off M,
  NoDup (Before ++ (CU, W) :: After).*1 →
  isDebugLoclistWriter W = false →
  (layoutLocLists (Before ++ (CU, W) :: After) Buf Off M).2 !! CU =
    Some (Off + locListsSize Before).
Proof.
  induction Before as [|Loc Before IH]; intros Buf Off M Hnd HW.
  - cbn [app]. rewrite layoutLocLists_cons. cbn [fst snd]. rewrite HW.
    cbn [app fmap list_fmap fst] in Hnd. apply NoDup_cons in Hnd as [Hnot _].
    rewrite layoutLocLists_other by done.
    rewrite lookup_insert_eq. unfold locListsSize. cbn. f_equal. lia.
  - cbn [app]. rewrite layoutLocLists_cons, locListsSize_cons.
    cbn [app fmap list_fmap] in Hnd. apply NoDup_cons in Hnd as [_ Hnd].
    destruct (isDebugLoclistWriter Loc.2).
    + by apply IH.
    + rewrite IH by done. f_equal. lia.
Qed.

Lemma foldl_onPatcher_other {A : Type} (T T' : PatcherRef)
    (g : A → SimpleBinaryPatcher → SimpleBinaryPatcher) (l : list A) : ∀ R,
  T ≠ T' →
  getPatcher (foldl (λ R a, onPatcher T (g a) R) R l) T' = getPatcher R T'.
Proof.
  induction l as [|a l IH]; intros R Hne; [done|].
  cbn [foldl]. rewrite IH by done. unfold onPatcher.
  by apply getPatcher_setPatcher_ne.
Qed.

Lemma foldl_onPatcher_frame {A : Type} (T : PatcherRef)
    (g : A → SimpleBinaryPatcher → SimpleBinaryPatcher) (l : list A) : ∀ R,
  withoutPatchers (foldl (λ R a, onPatcher T (g a) R) R l) = withoutPatchers R.
Proof.
  induction l as [|a l IH]; intros R; [done|].
  cbn [foldl]. rewrite IH. apply withoutPatchers_onPatcher.
Qed.

Lemma foldl_addLE32Patch {A : Type} (T : PatcherRef) (off val : A → Z)
    (l : list A) : ∀ R,
  Patches (getPatcher
             (foldl (λ R a, onPatcher T (λ P, addLE32Patch P (off a) (val a)) R) R l) T) =
  Patches (getPatcher R T) ++ ((λ a, LE32Patch (off a) (to_uint32 (val a))) <$> l).
Proof.
  induction l as [|a l IH]; intros R.
  - cbn. by rewrite app_nil_r.
  - cbn [foldl fmap list_fmap]. rewrite IH. unfold onPatcher.
    rewrite getPatcher_setPatcher_eq. cbn. by rewrite <- app_assoc.
Qed.

(** The split units' deferred entries go to the split units' patchers: the
    patcher of the main binary and the list of its deferred entries are as
    before. *)
Lemma dwo_loc_patches_frame (M : gmap Z Z)
    (l : list (Z * list LocListDebugInfoPatchType)) : ∀ R,
  let R' :=
    foldl (λ R Iter,
             foldl (λ R p,
                      onPatcher (DWODebugInfoPatcher Iter.1)
                        (λ P, addLE32Patch P (DebugInfoOffset p)
                                (default 0 (M !! PatchCUIndex p) + CUWriterOffset p)) R)
                   R Iter.2)
          R l in
  getPatcher R' MainDebugInfoPatcher = getPatcher R MainDebugInfoPatcher ∧
  withoutPatchers R' = withoutPatchers R.
Proof.
  induction l as [|Iter l IH]; intros R; [done|].
  cbn [foldl]. cbn zeta in IH. split.
  - rewrite (proj1 (IH _)).
    by apply (foldl_onPatcher_other (DWODebugInfoPatcher Iter.1) MainDebugInfoPatcher
                (λ p P, addLE32Patch P (DebugInfoOffset p)
                          (default 0 (M !! PatchCUIndex p) + CUWriterOffset p))).
  - rewrite (proj2 (IH _)).
    apply (foldl_onPatcher_frame (DWODebugInfoPatcher Iter.1)
             (λ p P, addLE32Patch P (DebugInfoOffset p)
                       (default 0 (M !! PatchCUIndex p) + CUWriterOffset p))).
Qed.

Lemma makeFinalLocListsSection_main R :
  let Layout :=
    layoutLocLists (map_to_list (LocListWritersByCU R)) (replicate 16 x00) 16 ∅ in
  let Out := makeFinalLocListsSection MainDebugInfoPatcher R in
  Out.1 = replicate 16 x00 ++ locListsBytes (map_to_list (LocListWritersByCU R)) ∧
  Patches (DebugInfoPatcher Out.2) =
    Patches (DebugInfoPatcher R) ++
    (locListPatch Layout.2 <$> LocListDebugInfoPatches R).
Proof.
  cbn zeta. unfold makeFinalLocListsSection.
  pose proof (layoutLocLists_buffer (map_to_list (LocListWritersByCU R))
                (replicate 16 x00) 16 ∅) as HB.
  destruct (layoutLocLists (map_to_list (LocListWritersByCU R)) (replicate 16 x00) 16 ∅)
    as [[Buf Off] M] eqn:HL.
  cbn [fst snd] in *. split; [done|].
  pose proof (dwo_loc_patches_frame M (map_to_list (DwoLocListDebugInfoPatches R)) R)
    as [HP HF].
  cbn zeta in HP, HF.
  set (R1 := foldl _ R (map_to_list (DwoLocListDebugInfoPatches R))) in *.
  assert (LocListDebugInfoPatches R1 = LocListDebugInfoPatches R) as ->
    by exact (f_equal LocListDebugInfoPatches HF).
  change (DebugInfoPatcher ?X) with (getPatcher X MainDebugInfoPatcher).
  rewrite (foldl_addLE32Patch MainDebugInfoPatcher DebugInfoOffset
             (λ p, default 0 (M !! PatchCUIndex p) + CUWriterOffset p)).
  by rewrite HP.
Qed.

Lemma locListsBytes_cons Loc Ws :
  locListsBytes (Loc :: Ws) =
  if isDebugLoclistWriter Loc.2 then locListsBytes Ws
  else finalizeLoc Loc.2 ++ locListsBytes Ws.
Proof. done. Qed.

Lemma locListsBytes_app Ws1 Ws2 :
  locListsBytes (Ws1 ++ Ws2) = locListsBytes Ws1 ++ locListsBytes Ws2.
Proof.
  induction Ws1 as [|Loc Ws1 IH]; [done|].
  cbn [app]. rewrite !locListsBytes_cons, IH.
  destruct (isDebugLoclistWriter Loc.2); [done|]. by rewrite app_assoc.
Qed.

(** C4 (amended).  The final section opens with a 16-byte empty list; the
    buffers of the units' writers follow in the iteration order of the
    writers, those of split units left out.  The offset patched into
    debug-info for a deferred entry of a unit is 16, plus the sizes of the
    buffers placed before the unit's own, plus the unit-local offset recorded
    during the walk, written as a 32-bit value; the unit's buffer lies at
    that base in the section. *)
Theorem loc_list_offset_resolution
    (R : DWARFRewriter) (Before After : list (Z * DebugLocWriter)) (CU : Z)
    (W : DebugLocWriter) (p : LocListDebugInfoPatchType) :
  let Out := makeFinalLocListsSection MainDebugInfoPatcher R in
  let Base := 16 + locListsSize Before in
  map_to_list (LocListWritersByCU R) = Before ++ (CU, W) :: After →
  isDebugLoclistWriter W = false →
  p ∈ LocListDebugInfoPatches R →
  PatchCUIndex p = CU →
  LE32Patch (DebugInfoOffset p) (to_uint32 (Base + CUWriterOffset p))
    ∈ Patches (DebugInfoPatcher Out.2) ∧
  take 16 Out.1 = replicate 16 x00 ∧
  take (length (finalizeLoc W)) (drop (Z.to_nat Base) Out.1) = finalizeLoc W.
Proof.
  intros Out Base HWs HW Hp HCU.
  destruct (makeFinalLocListsSection_main R) as [HBuf HPatches].
  cbn zeta in HBuf, HPatches. fold Out in HBuf, HPatches.
  assert (NoDup (Before ++ (CU, W) :: After).*1) as Hnd.
  { rewrite <- HWs. apply NoDup_fst_map_to_list. }
  split; [|split].
  - rewrite HPatches. apply elem_of_app. right.
    apply list_elem_of_fmap. exists p. split; [|done].
    unfold locListPatch. rewrite HWs, HCU.
    by rewrite layoutLocLists_base.
  - rewrite HBuf. by rewrite take_app_length'.
  - rewrite HBuf, HWs.
    rewrite locListsBytes_app, (locListsBytes_cons (CU, W)). cbn [snd]. rewrite HW.
    rewrite app_assoc. rewrite drop_app_length'.
    + by rewrite take_app_length.
    + rewrite length_app, length_replicate. unfold Base, locListsSize. lia.
Qed.

(** ** The package and the object files of the split units *)

Lemma foldlR_app {S A : Type} (f : S → A → Result S) (l1 l2 : list A) : ∀ s,
  foldlR f s (l1 ++ l2) = (s1 ← foldlR f s l1; foldlR f s1 l2).
Proof.
  induction l1 as [|a l1 IH]; intros s; [done|].
  cbn [app foldlR]. destruct (f s a); try done. cbn [mbind Result_bind]. apply IH.
Qed.

Lemma writeDWP_loop_app CUs1 CUs2 : ∀ Out R,
  writeDWP_loop (CUs1 ++ CUs2) Out R =
  ('(Return, Out1, R1) ← writeDWP_loop CUs1 Out R;
   if (Return : bool) then Ok (true, Out1, R1) else writeDWP_loop CUs2 Out1 R1).
Proof.
  induction CUs1 as [|CU CUs1 IH]; intros Out R; [done|].
  cbn [app writeDWP_loop].
  destruct (writeDWPUnit CU Out R) as [[[[] Out1] R1]| | |]; try done.
  cbn [mbind Result_bind]. apply IH.
Qed.

Lemma writeDWPSection_index DWOEntry DWOId St Section St' :
  writeDWPSection DWOEntry DWOId St Section = Ok St' → sameIndexState St St'.
Proof.
  destruct St as [[Cur Out] R], St' as [[Cur' Out'] R'].
  unfold writeDWPSection, sameIndexState, sameIndex. cbn [fst snd].
  destruct (updateDebugData Section DWOEntry DWOId R) as [[[OutData|] R1]| | |];
    cbn [mbind Result_bind]; try done.
  2: { by intros [= <- <- <-]. }
  case_bool_decide.
  - cbn [mbind Result_bind].
    destruct (_ && _); cbn; by intros [= <- <- <-].
  - destruct (KnownSections (getSectionName Section)) as [Sec|]; [|done].
    destruct (getContributionIndex Sec) as [Index| | |]; cbn [mbind Result_bind];
      try done.
    destruct (_ && _); intros [= <- <- <-]; cbn; by destruct (bool_decide _).
Qed.

Lemma writeDWPUnit_open CU Out R Return Out' R' :
  writeDWPUnit CU Out R = Ok (Return, Out', R') →
  packageOpen Out → packageOpen Out'.
Proof.
  unfold writeDWPUnit.
  destruct (getDWOId (Info CU)) as [DWOId|]; [|by intros [= <- <- <-]].
  destruct (getDWOCU BC DWOId) as [DWOCU|]; [|by intros [= <- <- <-]].
  case_bool_decide; [done|].
  destruct (foldlR _ _ _) as [[[Cur Out1] R1]| | |] eqn:Hfold; try done.
  cbn [mbind Result_bind].
  apply (foldlR_preserves sameIndexState) in Hfold;
    [|intros ???; apply writeDWPSection_index].
  destruct Hfold as (_ & HK & HI). cbn [fst snd] in HK, HI.
  unfold packageOpen.
  destruct (list_find _ _) as [[i P]|]; intros [= <- <- <-]; cbn; by rewrite <- HK, <- HI.
Qed.

Lemma writeDWP_loop_open CUs : ∀ Out R Return Out' R',
  writeDWP_loop CUs Out R = Ok (Return, Out', R') →
  packageOpen Out → packageOpen Out'.
Proof.
  induction CUs as [|CU CUs IH]; intros Out R Return Out' R'; cbn [writeDWP_loop].
  - by intros [= <- <- <-].
  - destruct (writeDWPUnit CU Out R) as [[[Ret1 Out1] R1]| | |] eqn:HU; try done.
    cbn [mbind Result_bind]. intros Hloop Hopen.
    pose proof (writeDWPUnit_open _ _ _ _ _ _ HU Hopen) as Hopen1.
    destruct Ret1.
    + by injection Hloop as <- <- <-.
    + by eapply IH.
Qed.

Lemma writeDWP_open_packageOpen R : packageOpen (writeDWP_open R).1.
Proof. unfold writeDWP_open. by case_bool_decide. Qed.

(** C8 (amended).  For a compile unit that carries a DWO ID whose split unit
    is not among the loaded ones, the rewrite driver does only what it does
    for a unit without a split counterpart: the unit itself (the skeleton)
    is rewritten through the patcher of the main binary, with no ranges
    base, and nothing is done for a split unit.  The two emission passes
    pass over the unit: their state, the diagnostics included, stays as it
    is, so no file is opened, nothing enters the package, and nothing is
    printed; their result is that of the run without the unit. *)
Theorem unloaded_split_unit_is_passed_over (Unit : DWARFUnit) (DWOId : Z) :
  getDWOId (Info Unit) = Some DWOId →
  getDWOCU BC DWOId = None →
  (∀ CUIndex Names R,
     processUnitDIE CUIndex Unit Names R =
     (R' ← updateUnitDebugInfo CUIndex Unit MainDebugInfoPatcher MainAbbrevWriter
             None R;
      Ok (Names, R'))) ∧
  (∀ St, writeDWOFile Unit St = Ok St) ∧
  (∀ Out R, writeDWPUnit Unit Out R = Ok (false, Out, R)) ∧
  (∀ CUs1 CUs2 St,
     foldlR (λ St CU, writeDWOFile CU St) St (CUs1 ++ Unit :: CUs2) =
     foldlR (λ St CU, writeDWOFile CU St) St (CUs1 ++ CUs2)) ∧
  (∀ CUs1 CUs2 Out R,
     writeDWP_loop (CUs1 ++ Unit :: CUs2) Out R = writeDWP_loop (CUs1 ++ CUs2) Out R).
Proof.
  intros HId HCU.
  assert (∀ St, writeDWOFile Unit St = Ok St) as HFile.
  { intros [[Files Names] R]. unfold writeDWOFile. by rewrite HId, HCU. }
  assert (∀ Out R, writeDWPUnit Unit Out R = Ok (false, Out, R)) as HUnit.
  { intros Out R. unfold writeDWPUnit. by rewrite HId, HCU. }
  split; [|split; [done|split; [done|split]]].
  - intros CUIndex Names R. unfold processUnitDIE. rewrite HId.
    cbn [mbind option_bind]. rewrite HCU. cbn [mbind Result_bind]. done.
  - intros CUs1 CUs2 St. rewrite !foldlR_app.
    destruct (foldlR _ St CUs1) as [St1| | |]; try done.
    cbn [mbind Result_bind foldlR]. by rewrite HFile.
  - intros CUs1 CUs2 Out R. rewrite !writeDWP_loop_app.
    destruct (writeDWP_loop CUs1 Out R) as [[[[] Out1] R1]| | |]; try done.
    cbn [mbind Result_bind writeDWP_loop]. by rewrite HUnit.
Qed.

(** * Further properties of the rewriter *)

(** ** The index of the debugger: the ways out *)

Lemma slice_no_exit bs off len msg : slice bs off len ≠ ExitWith msg.
Proof. unfold slice. by destruct (bool_decide _). Qed.

Lemma verifyCUList_mismatch C : ∀ Pre Data Index M o o' Post,
  (∀ (i : nat) (u : Z), Pre !! i = Some u →
     read64le C (Data + 16 * Z.of_nat i) = Ok u) →
  read64le C (Data + 16 * Z.of_nat (length Pre)) = Ok o' →
  o ≠ o' →
  verifyCUList C Data Index (Pre ++ o :: Post) M =
    ExitWith "BOLT-ERROR: .gdb_index CU offset mismatch".
Proof.
  induction Pre as [|u Pre IH]; intros Data Index M o o' Post Hpre Hat Hne.
  - cbn [app verifyCUList length] in *.
    replace (Data + 16 * Z.of_nat 0) with Data in Hat by lia.
    rewrite Hat. cbn [mbind Result_bind]. by rewrite bool_decide_eq_true_2.
  - cbn [app verifyCUList].
    pose proof (Hpre 0%nat u eq_refl) as H0.
    replace (Data + 16 * Z.of_nat 0) with Data in H0 by lia.
    rewrite H0. cbn [mbind Result_bind].
    rewrite bool_decide_eq_false_2 by (intros Hc; by apply Hc).
    apply (IH _ _ _ o o').
    + intros i v Hi. specialize (Hpre (S i) v Hi).
      rewrite <- Hpre. f_equal. lia.
    + rewrite <- Hat. f_equal. cbn [length]. lia.
    + done.
Qed.

Lemma verifyCUList_no_exit C : ∀ Units Data Index M msg,
  (∀ (i : nat) (u : Z), Units !! i = Some u →
     read64le C (Data + 16 * Z.of_nat i) = Ok u) →
  verifyCUList C Data Index Units M ≠ ExitWith msg.
Proof.
  induction Units as [|u Units IH]; intros Data Index M msg Hall; [done|].
  cbn [verifyCUList].
  pose proof (Hall 0%nat u eq_refl) as H0.
  replace (Data + 16 * Z.of_nat 0) with Data in H0 by lia.
  rewrite H0. cbn [mbind Result_bind].
  rewrite bool_decide_eq_false_2 by (intros Hc; by apply Hc).
  apply IH. intros i v Hi. specialize (Hall (S i) v Hi).
  rewrite <- Hall. f_equal. lia.
Qed.

(** The first unit whose offset the CU list does not hold, if there is
    one. *)
Lemma first_mismatch C (Units : list Z) :
  (∀ (i : nat) (u : Z), Units !! i = Some u →
     ∃ v, read64le C (24 + 16 * Z.of_nat i) = Ok v) →
  (∀ (i : nat) (u : Z), Units !! i = Some u →
     read64le C (24 + 16 * Z.of_nat i) = Ok u) ∨
  (∃ Pre o o' Post, Units = Pre ++ o :: Post ∧
     (∀ (i : nat) (u : Z), Pre !! i = Some u →
        read64le C (24 + 16 * Z.of_nat i) = Ok u) ∧
     read64le C (24 + 16 * Z.of_nat (length Pre)) = Ok o' ∧ o ≠ o').
Proof.
  induction Units as [|u Units IH] using rev_ind; intros Hread.
  - left. intros i u Hi. by rewrite lookup_nil in Hi.
  - destruct IH as [Hall|(Pre & o & o' & Post & -> & Hpre & Hat & Hne)].
    + intros i v Hi. apply (Hread i v). by apply lookup_app_l_Some.
    + destruct (Hread (length Units) u) as [v Hv].
      { rewrite lookup_app_r by lia. by rewrite Nat.sub_diag. }
      destruct (decide (u = v)) as [->|Hne].
      * left. intros i w Hi. apply lookup_app_Some in Hi as [Hi|[Hlen Hi]].
        -- by apply Hall.
        -- destruct (i - length Units)%nat as [|n] eqn:Hn; [|by destruct n].
           injection Hi as <-. replace i with (length Units) by lia. done.
      * right. exists Units, u, v, []. done.
    + right. exists Pre, o, o', (Post ++ [u]).
      split; [by rewrite <- app_assoc|done].
Qed.

(** X1.  The run is ended by the index of the debugger exactly when the index
    has a version other than 7 and 8, when the size of its CU list is not
    16 bytes per compile unit, or when an offset in the CU list differs
    from the offset of the unit with that number; in every other case the
    function goes on without an exit. *)
Theorem gdb_index_exit_iff (C : list byte) (Units : list Z)
    (CUAddressRanges : list (Z * DebugAddressRangesVector)) (H : GdbIndexHeader) :
  parseGdbIndexHeader C = Ok H →
  24 + 16 * Z.of_nat (length Units) ≤ Z.of_nat (length C) →
  (∃ msg, updateGdbIndexSection (Some C) Units CUAddressRanges =
            GdbIndexStopped (ExitWith msg)) ↔
  ((Version H ≠ 7 ∧ Version H ≠ 8) ∨
   to_uint32 (CUTypesOffset H - CUListOffset H) ≠
     to_uint32 (Z.of_nat (length Units) * 16) ∨
   ∃ (i : nat) (u : Z), Units !! i = Some u ∧
     read64le C (24 + 16 * Z.of_nat i) ≠ Ok u).
Proof.
  intros HH Hlen.
  assert (∀ (i : nat) (u : Z), Units !! i = Some u →
            ∃ v, read64le C (24 + 16 * Z.of_nat i) = Ok v) as Hread.
  { intros i u Hi. apply lookup_lt_Some in Hi.
    unfold read64le.
    rewrite (slice_Ok C (24 + 16 * Z.of_nat i) 8) by lia.
    cbn [mbind Result_bind]. eauto. }
  unfold updateGdbIndexSection, regenerateGdbIndex. rewrite HH.
  cbn [mbind Result_bind].
  case_bool_decide as Hver.
  { split; [by left|]. intros _. eauto. }
  case_bool_decide as Hcount.
  { split; [by right; left|]. intros _. eauto. }
  destruct (first_mismatch C Units Hread)
    as [Hall|(Pre & o & o' & Post & -> & Hpre & Hat & Hne)].
  - split.
    + intros [msg Hmsg]. exfalso.
      pose proof (verifyCUList_no_exit C Units 24 0 ∅) as Hno.
      destruct (verifyCUList C 24 0 Units ∅) as [[M Data]|msg'| |] eqn:HV;
        cbn [mbind Result_bind] in Hmsg.
      * destruct (slice C 24 _) as [Lists| | |] eqn:HS1; cbn [mbind Result_bind] in Hmsg;
          try discriminate Hmsg; [|by apply slice_no_exit in HS1].
        clear HS1.
        destruct (slice C _ _) as [Trailing| | |] eqn:HS2; cbn [mbind Result_bind] in Hmsg;
          try discriminate Hmsg; [|by apply slice_no_exit in HS2].
        destruct (bool_decide (Z.of_nat (length _) = _)); discriminate Hmsg.
      * by eapply Hno.
      * discriminate Hmsg.
      * discriminate Hmsg.
    + intros [Hc|[Hc|(i & u & Hi & Hc)]]; [done|done|].
      exfalso. apply Hc. by apply Hall.
  - rewrite (verifyCUList_mismatch C Pre 24 0 ∅ o o' Post Hpre Hat Hne).
    cbn [mbind Result_bind]. split; [|eauto].
    intros _. right. right. exists (length Pre), o.
    split.
    + rewrite lookup_app_r by lia. by rewrite Nat.sub_diag.
    + rewrite Hat. congruence.
Qed.

(** ** The names of the split-unit outputs *)

Lemma string_app_length (s t : string) :
  String.length (s +:+ t) = (String.length s + String.length t)%nat.
Proof.
  induction s as [|c s IH]; [done|].
  change (S (String.length (s +:+ t)) = S (String.length s + String.length t)).
  by rewrite IH.
Qed.

Lemma string_app_inj_r (t a b : string) : a +:+ t = b +:+ t → a = b.
Proof.
  revert b. induction a as [|c a IH]; intros [|d b] Heq.
  - done.
  - apply (f_equal String.length) in Heq.
    rewrite !string_app_length in Heq. cbn [String.length] in Heq. lia.
  - apply (f_equal String.length) in Heq.
    rewrite !string_app_length in Heq. cbn [String.length] in Heq. lia.
  - change (String c (a +:+ t) = String d (b +:+ t)) in Heq.
    injection Heq as -> Heq. f_equal. by apply IH.
Qed.

Lemma to_uint32_succ_ne (i : Z) : to_uint32 (i + 1) ≠ i.
Proof.
  unfold to_uint32. intros Heq.
  assert (0 < 2 ^ 32) as Hpos by done.
  pose proof (Z.mod_pos_bound (i + 1) (2 ^ 32) Hpos) as Hb.
  rewrite Heq in Hb.
  destruct (decide (i + 1 < 2 ^ 32)) as [Hlt|Hge].
  - rewrite Z.mod_small in Heq by lia. lia.
  - assert (i + 1 = 2 ^ 32) as Hi by lia.
    rewrite Hi, Z.mod_same in Heq by lia. lia.
Qed.

(** X2.  The name of a split unit is fixed by the first call for the unit: a
    later call for the same unit, with or without the table of name
    counters, returns the same name and changes neither table, in the state
    the first call returned and in every state whose table of names still
    holds what it held then (names are only ever added).  So the file
    [writeDWOFiles] writes bears the name [updateDWONameCompDir] has put
    into the skeleton unit. *)
Theorem getDWOName_stable (CU : DWARFUnit) (UseNameToIndexMap Again : bool)
    (Names Names' : DWONames) (Name : string) :
  getDWOName CU UseNameToIndexMap Names = Ok (Name, Names') →
  getDWOName CU Again Names' = Ok (Name, Names') ∧
  ∀ Later : DWONames,
    DWOIdToName Names' ⊆ DWOIdToName Later →
    getDWOName CU Again Later = Ok (Name, Later).
Proof.
  intros HFirst.
  assert (∃ DWOId, getDWOId (Info CU) = Some DWOId ∧
                   DWOIdToName Names' !! DWOId = Some Name) as (DWOId & HId & HN).
  { unfold getDWOName in HFirst.
    destruct (getDWOId (Info CU)) as [DWOId|]; [|done].
    exists DWOId. split; [done|].
    destruct (DWOIdToName Names !! DWOId) as [Cached|] eqn:HC.
    - by injection HFirst as <- <-.
    - case_bool_decide; [done|].
      destruct (UseNameToIndexMap && _); injection HFirst as <- <-; cbn;
        by rewrite lookup_insert_eq. }
  assert (∀ Later : DWONames,
            DWOIdToName Names' ⊆ DWOIdToName Later →
            getDWOName CU Again Later = Ok (Name, Later)) as HLater.
  { intros Later HSub. unfold getDWOName. rewrite HId.
    by rewrite (lookup_weaken _ _ _ _ HN HSub). }
  split; [by apply HLater|exact HLater].
Qed.

(** X3.  Two units with different DWO IDs and the same DWO name, named one
    after the other through the table of name counters: with an output
    directory given the two names differ, by the counter put in front of
    the extension; without one both units get the same name. *)
Theorem getDWOName_same_dwo_name (CU1 CU2 : DWARFUnit) (Id1 Id2 : Z)
    (Names Names1 Names2 : DWONames) (Name1 Name2 : string) :
  getDWOId (Info CU1) = Some Id1 →
  getDWOId (Info CU2) = Some Id2 →
  Id1 ≠ Id2 →
  UnitDWOName CU1 = UnitDWOName CU2 →
  DWOIdToName Names !! Id1 = None →
  DWOIdToName Names !! Id2 = None →
  getDWOName CU1 true Names = Ok (Name1, Names1) →
  getDWOName CU2 true Names1 = Ok (Name2, Names2) →
  (DwarfOutputPath opts ≠ "" → Name1 ≠ Name2) ∧
  (DwarfOutputPath opts = "" →
   Name1 = UnitDWOName CU1 +:+ ".dwo" ∧ Name2 = Name1).
Proof.
  intros H1 H2 Hne HN HC1 HC2. unfold getDWOName. rewrite H1, H2, HC1, <- HN.
  case_bool_decide as Hempty; [done|].
  destruct (decide (DwarfOutputPath opts = "")) as [Hpath|Hpath].
  - rewrite (bool_decide_eq_true_2 _ Hpath). cbn [andb negb].
    intros [= <- <-]. cbn [DWOIdToName NameToIndexMap].
    rewrite lookup_insert_ne by done. rewrite HC2.
    intros [= <-]. split; [done|]. intros _. done.
  - rewrite (bool_decide_eq_false_2 _ Hpath). cbn [andb negb].
    intros [= <- <-]. cbn [DWOIdToName NameToIndexMap].
    rewrite lookup_insert_ne by done. rewrite HC2, lookup_insert_eq.
    cbn [default]. intros [= <-]. split; [|done]. intros _ Heq.
    apply string_app_inj_r in Heq. apply (inj (String.app _)) in Heq.
    apply (inj pretty) in Heq. symmetry in Heq. by apply to_uint32_succ_ne in Heq.
Qed.

(** ** The names of the sections *)

(** X4.  [getSectionName] looks through any leading dots and underscores: two
    names that differ only in them are the same section. *)
Theorem getSectionName_strip_prefix (Prefix Name : string)
    (Contents Contents' : list byte) :
  Forall (λ c, c = "."%char ∨ c = "_"%char) (String.list_ascii_of_string Prefix) →
  getSectionName (mkSectionRef (Prefix +:+ Name) Contents) =
  getSectionName (mkSectionRef Name Contents').
Proof.
  unfold getSectionName. cbn [SectionName].
  induction Prefix as [|c Prefix IH]; intros HP; [done|].
  cbn [String.list_ascii_of_string] in HP. apply Forall_cons in HP as [Hc HP].
  change (String c Prefix +:+ Name) with (String c (Prefix +:+ Name)).
  cbn [getSectionName_strip]. rewrite bool_decide_eq_true_2 by done. by apply IH.
Qed.

(** ** The entries of a location list *)

Lemma collectInputLL_pairs (Unit : DWARFUnit) (Pairs : list DWARFLocationEntry) :
  ∀ (Rest : list DWARFLocationEntry) (BaseAddress : Z) (InputLL : DebugLocationsVector),
  isDWOUnit (Info Unit) = false →
  Forall (λ Entry, Kind Entry = DW_LLE_offset_pair ∧
                   SectionIndexIsUndef Entry = true) Pairs →
  collectInputLL Unit (Pairs ++ Rest) BaseAddress InputLL =
  collectInputLL Unit Rest BaseAddress
    (InputLL ++
     ((λ Entry, mkLocationEntry (to_uint64 (BaseAddress + Value0 Entry))
                  (to_uint64 (BaseAddress + Value1 Entry)) (Loc Entry)) <$> Pairs)).
Proof.
  induction Pairs as [|Entry Pairs IH]; intros Rest BaseAddress InputLL HU HP.
  - cbn. by rewrite app_nil_r.
  - apply Forall_cons in HP as [[HK HS] HP].
    cbn [app collectInputLL fmap list_fmap]. rewrite HK, HS, HU. cbn [andb negb].
    rewrite IH by done. by rewrite <- app_assoc.
Qed.

(** X5.  In a unit that is not a split unit, offset pairs are taken relative
    to the base address in force: the base address of the unit up to a
    base-address entry, the address of that entry from there on.  The list
    ends at the end-of-list entry; what follows it is not looked at. *)
Theorem collectInputLL_base_address (Unit : DWARFUnit)
    (Pairs1 Pairs2 Rest : list DWARFLocationEntry)
    (Base End : DWARFLocationEntry) (BaseAddress : Z) :
  isDWOUnit (Info Unit) = false →
  Forall (λ Entry, Kind Entry = DW_LLE_offset_pair ∧
                   SectionIndexIsUndef Entry = true) (Pairs1 ++ Pairs2) →
  Kind Base = DW_LLE_base_address →
  SectionIndexIsUndef Base = true →
  Kind End = DW_LLE_end_of_list →
  collectInputLL Unit (Pairs1 ++ Base :: Pairs2 ++ End :: Rest) BaseAddress [] =
  Ok (((λ Entry, mkLocationEntry (to_uint64 (BaseAddress + Value0 Entry))
                   (to_uint64 (BaseAddress + Value1 Entry)) (Loc Entry)) <$> Pairs1) ++
      ((λ Entry, mkLocationEntry (to_uint64 (Value0 Base + Value0 Entry))
                   (to_uint64 (Value0 Base + Value1 Entry)) (Loc Entry)) <$> Pairs2)).
Proof.
  intros HU HP HB HS HE. apply Forall_app in HP as [HP1 HP2].
  rewrite collectInputLL_pairs by done.
  cbn [collectInputLL app]. rewrite HB, HS. cbn [negb].
  rewrite collectInputLL_pairs by done.
  cbn [collectInputLL]. by rewrite HE.
Qed.

(** ** The sections of a split unit *)

(** X6.  [updateDebugData] leaves the rewriter as it is but for the diagnostic
    stream, which it only adds to; and it hands back a section exactly for
    the names [createKnownSectionsMap] lists. *)
Theorem updateDebugData_frame (Section : SectionRef)
    (DWOEntry : option (DWARFSectionKind → Z * Z)) (DWOId : Z)
    (R R' : DWARFRewriter) (OutData : option (list byte)) :
  updateDebugData Section DWOEntry DWOId R = Ok (OutData, R') →
  set_errs (errs R) R' = R ∧
  errs R `prefix_of` errs R' ∧
  (is_Some OutData ↔ is_Some (KnownSections (getSectionName Section))).
Proof.
  unfold updateDebugData.
  destruct (KnownSections (getSectionName Section)) as [Kind|].
  2: { intros [= <- <-]. split; [by destruct R|]. split; [done|].
       split; intros [? ?]; done. }
  assert (set_errs (errs R) R = R) as HR by (by destruct R).
  destruct Kind.
  - intros [= <- <-]. split.
    + case_bool_decide; [done|]. cbn [negb]. by destruct R.
    + split; [|split; eauto]. destruct (negb _); [by apply prefix_app_r|done].
  - destruct (getSliceData _ _ _) as [Data Off].
    destruct (patchBinary _ _ _); cbn [mbind Result_bind]; try done.
    intros [= <- <-]. split; [done|]. split; [done|]. split; eauto.
  - intros [= <- <-]. split; [done|]. split; [done|]. split; eauto.
  - intros [= <- <-]. split; [done|]. split; [done|]. split; eauto.
  - intros [= <- <-]. split; [done|]. split; [done|]. split; eauto.
  - destruct (LocListWritersByCU R !! DWOId); [|done].
    intros [= <- <-]. split; [done|]. split; [done|]. split; eauto.
  - intros [= <- <-]. split; [done|]. split; [done|]. split; eauto.
Qed.

(** X7.  The line section of a split unit is known by name only: it is handed
    back whole, also when the input is a package and the unit owns just a
    part of it, and a warning says that the section is not supported. *)
Theorem debug_line_section_is_not_sliced (Section : SectionRef)
    (DWOEntry : option (DWARFSectionKind → Z * Z)) (DWOId : Z) (R : DWARFRewriter) :
  getSectionName Section = "debug_line.dwo" →
  updateDebugData Section DWOEntry DWOId R =
  Ok (Some (SectionContents Section),
      warn "BOLT-WARNING: Unsupported Debug section: debug_line.dwo" R).
Proof. intros HN. unfold updateDebugData. by rewrite HN. Qed.

(** ** One object file per loaded split unit *)

Lemma writeDWOFile_result (CU : DWARFUnit) (Files Files' : list OutputFile)
    (Names Names' : DWONames) (R R' : DWARFRewriter) :
  writeDWOFile CU (Files, Names, R) = Ok (Files', Names', R') →
  match loadedDWOId CU with
  | None => Files' = Files ∧ Names' = Names ∧ R' = R
  | Some DWOId =>
      ∃ (ObjectName : string) (Emitted : list (list byte)),
        getDWOName CU false Names = Ok (ObjectName, Names') ∧
        Files' = Files ++
          [mkOutputFile
             ((if bool_decide (DwarfOutputPath opts = "")
               then getCompilationDir CU else DwarfOutputPath opts) +:+
              "/" +:+ ObjectName)
             Emitted true]
  end.
Proof.
  unfold writeDWOFile, loadedDWOId.
  destruct (getDWOId (Info CU)) as [DWOId|]; cbn [mbind option_bind];
    [|by intros [= <- <- <-]].
  destruct (getDWOCU BC DWOId) as [DWOCU|]; cbn [mbind option_bind];
    [|by intros [= <- <- <-]].
  destruct (getDWOName CU false Names) as [[ObjectName Names1]| | |];
    cbn [mbind Result_bind]; try done.
  destruct (foldlR _ _ _) as [[Emitted R1]| | |]; cbn [mbind Result_bind]; try done.
  intros [= <- <- <-]. by exists ObjectName, Emitted.
Qed.

(** X8.  [writeDWOFiles] opens one file for every compile unit whose split unit
    is loaded, in the order of the units, and keeps each of them; a unit
    without loaded split unit adds nothing. *)
Theorem writeDWOFiles_one_file_per_loaded_unit (Names Names' : DWONames)
    (R R' : DWARFRewriter) (Files : list OutputFile) :
  writeDWOFiles Names R = Ok (Files, Names', R') →
  length Files = length (omap loadedDWOId (compile_units BC)) ∧
  Forall (λ File, Kept File = true) Files.
Proof.
  unfold writeDWOFiles.
  assert (∀ CUs Files0 Names0 R0,
            foldlR (λ St CU, writeDWOFile CU St) (Files0, Names0, R0) CUs =
              Ok (Files, Names', R') →
            Forall (λ File, Kept File = true) Files0 →
            length Files = (length Files0 + length (omap loadedDWOId CUs))%nat ∧
            Forall (λ File, Kept File = true) Files) as Hgen.
  { induction CUs as [|CU CUs IH]; intros Files0 Names0 R0; cbn [foldlR omap list_omap].
    - intros [= <- <- <-] HK. split; [cbn; lia|done].
    - destruct (writeDWOFile CU (Files0, Names0, R0)) as [[[Files1 Names1] R1]| | |] eqn:HW;
        cbn [mbind Result_bind]; try done.
      intros Hfold HK. apply writeDWOFile_result in HW.
      destruct (loadedDWOId CU) as [DWOId|].
      + destruct HW as (ObjectName & Emitted & _ & ->).
        destruct (IH _ _ _ Hfold) as [Hlen HK'].
        { apply Forall_app. split; [done|]. by apply Forall_singleton. }
        split; [|done]. rewrite Hlen, length_app. cbn. lia.
      + destruct HW as (-> & -> & ->). by apply (IH _ _ _ Hfold). }
  intros Hfold. by apply Hgen in Hfold.
Qed.

(** ** The index of the package *)

Lemma writeDWPUnit_index (CU : DWARFUnit) (Out Out' : DWPOutput)
    (R R' : DWARFRewriter) (Return : bool) :
  writeDWPUnit CU Out R = Ok (Return, Out', R') →
  match loadedDWOId CU with
  | None => Return = false ∧ Out' = Out ∧ R' = R
  | Some DWOId =>
      if Return then (IndexEntries Out').*1 = (IndexEntries Out).*1
      else (IndexEntries Out').*1 = (IndexEntries Out).*1 ++ [DWOId] ∧
           DWOId ∉ (IndexEntries Out).*1
  end.
Proof.
  unfold writeDWPUnit, loadedDWOId.
  destruct (getDWOId (Info CU)) as [DWOId|]; cbn [mbind option_bind];
    [|by intros [= <- <- <-]].
  destruct (getDWOCU BC DWOId) as [DWOCU|]; cbn [mbind option_bind];
    [|by intros [= <- <- <-]].
  case_bool_decide; [done|].
  destruct (foldlR _ _ _) as [[[Cur Out1] R1]| | |] eqn:Hfold; try done.
  cbn [mbind Result_bind Signature].
  apply (foldlR_preserves sameIndexState) in Hfold;
    [|intros ???; apply writeDWPSection_index].
  destruct Hfold as (HE & _ & _). cbn [fst snd] in HE.
  destruct (list_find _ _) as [[i P]|] eqn:Hfind.
  - intros [= <- <- <-]. by rewrite HE.
  - intros [= <- <- <-]. cbn [IndexEntries]. rewrite fmap_app, HE. split; [done|].
    apply list_find_None in Hfind. rewrite HE in Hfind.
    intros (P & HP & Hin)%list_elem_of_fmap.
    rewrite Forall_forall in Hfind. by apply (Hfind P).
Qed.

Lemma writeDWP_loop_index (CUs : list DWARFUnit) : ∀ Out R Return Out' R',
  writeDWP_loop CUs Out R = Ok (Return, Out', R') →
  NoDup (IndexEntries Out).*1 →
  NoDup (IndexEntries Out').*1 ∧
  (Return = false →
   (IndexEntries Out').*1 = (IndexEntries Out).*1 ++ omap loadedDWOId CUs).
Proof.
  induction CUs as [|CU CUs IH]; intros Out R Return Out' R';
    cbn [writeDWP_loop omap list_omap].
  - intros [= <- <- <-] Hnd. split; [done|]. intros _. by rewrite app_nil_r.
  - destruct (writeDWPUnit CU Out R) as [[[Ret1 Out1] R1]| | |] eqn:HU; try done.
    cbn [mbind Result_bind]. intros Hloop Hnd.
    apply writeDWPUnit_index in HU.
    destruct (loadedDWOId CU) as [DWOId|].
    + destruct Ret1.
      * injection Hloop as <- <- <-. split; [by rewrite HU|done].
      * destruct HU as [HE Hnot].
        destruct (IH _ _ _ _ _ Hloop) as [Hnd' Hkeys].
        { rewrite HE. apply NoDup_app. split; [done|].
          split; [|apply NoDup_singleton].
          intros x Hx ->%list_elem_of_singleton. done. }
        split; [done|]. intros HR. rewrite (Hkeys HR), HE. by rewrite <- app_assoc.
    + destruct HU as (-> & -> & ->). by apply (IH _ _ _ _ _ Hloop).
Qed.

(** X9.  Whenever [writeDWP] returns, no signature is in the index of the
    package twice.  If the index was written, the file is kept, and the
    index holds the DWO IDs of the compile units whose split unit is
    loaded, once each, in the order of the units; if not, the file is not
    kept. *)
Theorem writeDWP_index_unique (R R' : DWARFRewriter) (Out : DWPOutput) :
  writeDWP R = Ok (Out, R') →
  NoDup (IndexEntries Out).*1 ∧
  (if IndexWritten Out
   then Kept (DWPFile Out) = true ∧
        (IndexEntries Out).*1 = omap loadedDWOId (compile_units BC)
   else Kept (DWPFile Out) = false).
Proof.
  unfold writeDWP.
  pose proof (writeDWP_open_packageOpen R) as Hopen.
  assert (IndexEntries (writeDWP_open R).1 = []) as Hempty
    by (unfold writeDWP_open; by case_bool_decide).
  destruct (writeDWP_open R) as [Out0 R0]. cbn [fst] in Hopen, Hempty.
  destruct (writeDWP_loop (compile_units BC) Out0 R0)
    as [[[Return Out1] R1]| | |] eqn:Hloop; try done.
  cbn [mbind Result_bind].
  pose proof (writeDWP_loop_open _ _ _ _ _ _ Hloop Hopen) as [HK HI].
  destruct (writeDWP_loop_index _ _ _ _ _ _ Hloop) as [Hnd Hkeys].
  { rewrite Hempty. apply NoDup_nil_2. }
  destruct Return; intros [= <- <-].
  - split; [done|]. by rewrite HI.
  - cbn. split; [done|]. split; [done|]. rewrite (Hkeys eq_refl), Hempty. done.
Qed.

(** ** The walk only adds *)

Lemma extends_same R R' :
  (∀ T, getPatcher R' T = getPatcher R T) →
  (∀ AW, getAbbrevWriter R' AW = getAbbrevWriter R AW) →
  RangesSectionWriter R' = RangesSectionWriter R →
  ConvertedRangesAbbrevs R' = ConvertedRangesAbbrevs R →
  LocListDebugInfoPatches R' = LocListDebugInfoPatches R →
  LocListWritersByCU R' = LocListWritersByCU R →
  errs R' = errs R →
  extends R R'.
Proof.
  intros H1 H2 H3 H4 H5 H6 H7.
  split; [intros T; by rewrite H1|]. split; [intros AW; by rewrite H2|].
  rewrite H3, H4, H5, H6, H7. done.
Qed.

Lemma extends_set_ARangesSectionWriter v R : extends R (set_ARangesSectionWriter v R).
Proof. apply extends_same; try done; by intros []. Qed.
Lemma extends_set_StrWriter v R : extends R (set_StrWriter v R).
Proof. apply extends_same; try done; by intros []. Qed.
Lemma extends_set_AddrWriter v R : extends R (set_AddrWriter v R).
Proof. apply extends_same; try done; by intros []. Qed.
Lemma extends_set_PendingRanges v R : extends R (set_PendingRanges v R).
Proof. apply extends_same; try done; by intros []. Qed.
Lemma extends_set_DwoLocListDebugInfoPatches v R :
  extends R (set_DwoLocListDebugInfoPatches v R).
Proof. apply extends_same; try done; by intros []. Qed.

Lemma extends_warn msg R : extends R (warn msg R).
Proof.
  split; [by intros []|]. split; [by intros []|].
  repeat split; try done. by apply prefix_app_r.
Qed.

Lemma extends_set_RangesSectionWriter W R :
  AddedRanges (RangesSectionWriter R) `prefix_of` AddedRanges W →
  extends R (set_RangesSectionWriter W R).
Proof.
  intros HW. split; [by intros []|]. split; [by intros []|]. by repeat split.
Qed.

Lemma extends_set_ConvertedRangesAbbrevs S R :
  ConvertedRangesAbbrevs R ⊆ S → extends R (set_ConvertedRangesAbbrevs S R).
Proof.
  intros HS. split; [by intros []|]. split; [by intros []|]. by repeat split.
Qed.

Lemma extends_set_LocListDebugInfoPatches l R :
  LocListDebugInfoPatches R `prefix_of` l →
  extends R (set_LocListDebugInfoPatches l R).
Proof.
  intros Hl. split; [by intros []|]. split; [by intros []|]. by repeat split.
Qed.

Lemma extends_set_LocListWritersByCU M R :
  dom (LocListWritersByCU R) ⊆ dom M → extends R (set_LocListWritersByCU M R).
Proof.
  intros HM. split; [by intros []|]. split; [by intros []|]. by repeat split.
Qed.

Lemma extends_setPatcher T P R :
  Patches (getPatcher R T) `prefix_of` Patches P → extends R (setPatcher T P R).
Proof.
  intros HP. split.
  { intros T'. rewrite getPatcher_setPatcher. by case_decide; subst. }
  split; [intros []; by destruct T|]. destruct T; by repeat split.
Qed.

Lemma extends_onPatcher T f R :
  (∀ P, Patches P `prefix_of` Patches (f P)) → extends R (onPatcher T f R).
Proof. intros Hf. apply extends_setPatcher, Hf. Qed.

Lemma extends_onAbbrevWriter AW f R :
  (∀ W, AbbrevPatches W `prefix_of` AbbrevPatches (f W)) →
  extends R (onAbbrevWriter AW f R).
Proof.
  intros Hf. unfold onAbbrevWriter. split; [intros []; by destruct AW|].
  split.
  - intros AW'. destruct AW as [|i], AW' as [|j]; cbn; try done.
    unfold getAbbrevWriter, getBinaryDWOAbbrevWriter. cbn.
    destruct (decide (i = j)) as [->|Hne].
    + rewrite lookup_insert_eq. apply Hf.
    + by rewrite lookup_insert_ne.
  - destruct AW; by repeat split.
Qed.

Lemma addRanges_prefix W Ranges :
  AddedRanges W `prefix_of` AddedRanges (addRanges W Ranges).2.
Proof. unfold addRanges. case_bool_decide; [done|]. by apply prefix_app_r. Qed.

Lemma addRangesCached_prefix W Ranges C :
  AddedRanges W `prefix_of` AddedRanges (addRangesCached W Ranges C).1.2.
Proof.
  unfold addRangesCached. case_bool_decide; [done|].
  destruct (C !! Ranges); [done|].
  pose proof (addRanges_prefix W Ranges) as HP.
  by destruct (addRanges W Ranges).
Qed.

(** One step of a proof that a state extends another: the last thing done
    to the state is split off. *)
Ltac extends_step :=
  first
    [ reflexivity
    | eassumption
    | etrans; [|apply extends_warn]
    | etrans; [|apply extends_set_ARangesSectionWriter]
    | etrans; [|apply extends_set_StrWriter]
    | etrans; [|apply extends_set_AddrWriter]
    | etrans; [|apply extends_set_PendingRanges]
    | etrans; [|apply extends_set_DwoLocListDebugInfoPatches]
    | etrans; [|apply extends_onPatcher; intros ?; cbn; by repeat apply prefix_app_r]
    | etrans; [|apply extends_onAbbrevWriter; intros ?; cbn; by repeat apply prefix_app_r]
    | etrans; [|apply extends_setPatcher; cbn; by repeat apply prefix_app_r] ].

Ltac solve_extends := repeat extends_step.

Lemma getRangeAttrData_extends DIE R D R1 :
  getRangeAttrData DIE R = Ok (D, R1) → extends R R1.
Proof.
  unfold getRangeAttrData.
  destruct (findAttributeInfo DIE DW_AT_low_pc) as [L|]; [|done].
  destruct (findAttributeInfo DIE DW_AT_high_pc) as [H|]; [|done].
  repeat case_bool_decide; intros [= <- <-]; solve_extends.
Qed.

Lemma patchLowHigh_extends DIE Range P R R' :
  patchLowHigh DIE Range P R = Ok R' → extends R R'.
Proof.
  unfold patchLowHigh.
  destruct (getRangeAttrData DIE R) as [[D R1]| | |] eqn:Hdata; try done.
  apply getRangeAttrData_extends in Hdata. cbn [mbind Result_bind].
  destruct (bool_decide (getForm (LowPCFormValue D) = DW_FORM_GNU_addr_index)).
  - destruct (isDWOUnit (getDwarfUnit DIE)); [|done]. cbn [negb].
    destruct (getDWOId (getDwarfUnit DIE)); [|done]. cbn [mbind Result_bind].
    destruct (isHighPcFormEightBytes _); intros [= <-]; solve_extends.
  - cbn [mbind Result_bind].
    destruct (isHighPcFormEightBytes _); intros [= <-]; solve_extends.
Qed.

Lemma convertToRanges_Abbrev_extends Unit Abbrev AW RangesBase R R' :
  convertToRanges_Abbrev Unit Abbrev AW RangesBase R = Ok R' → extends R R'.
Proof.
  unfold convertToRanges_Abbrev.
  destruct (findAttribute Abbrev DW_AT_high_pc) as [hs|]; [|done].
  destruct (findAttribute Abbrev DW_AT_low_pc) as [ls|]; [|done].
  destruct RangesBase as [RB|].
  - case_bool_decide; [done|]. cbn [mbind Result_bind].
    intros [= <-]. solve_extends.
  - destruct (_ && _); cbn [mbind Result_bind]; intros [= <-]; solve_extends.
Qed.

Lemma convertToRanges_Offset_extends DIE off P RangesBase R R' :
  convertToRanges_Offset DIE off P RangesBase R = Ok R' → extends R R'.
Proof.
  unfold convertToRanges_Offset.
  destruct (getRangeAttrData DIE R) as [[D R1]| | |] eqn:Hdata; try done.
  apply getRangeAttrData_extends in Hdata. cbn [mbind Result_bind].
  case_bool_decide; [done|].
  destruct (NumBytesToFill_of _) as [nbf| | |]; try done. cbn [mbind Result_bind].
  case_bool_decide.
  - unfold getRangeBase. cbn [fst snd]. intros [= <-]. solve_extends.
  - destruct RangesBase as [RB|]; [|case_bool_decide]; intros [= <-]; solve_extends.
Qed.

Lemma convertToRanges_Ranges_extends DIE Ranges P R R' :
  convertToRanges_Ranges DIE Ranges P R = Ok R' → extends R R'.
Proof.
  unfold convertToRanges_Ranges.
  pose proof (addRanges_prefix (RangesSectionWriter R) Ranges) as HP.
  case_bool_decide.
  - intros HC%convertToRanges_Offset_extends.
    etrans; [|exact HC]. by apply extends_set_RangesSectionWriter.
  - destruct (addRanges (RangesSectionWriter R) Ranges) as [o W].
    intros HC%convertToRanges_Offset_extends.
    etrans; [|exact HC]. by apply extends_set_RangesSectionWriter.
Qed.

Lemma foldlR_extends {A : Type} (f : DWARFRewriter → A → Result DWARFRewriter)
    (l : list A) R R' :
  (∀ s a s', f s a = Ok s' → extends s s') →
  foldlR f R l = Ok R' → extends R R'.
Proof. intros Hf. by apply (foldlR_preserves extends). Qed.

Lemma convertPending_extends Unit Abbrev P AW R R' :
  convertPending Unit Abbrev P AW R = Ok R' → extends R R'.
Proof.
  unfold convertPending. case_bool_decide; [by intros [= <-]|].
  destruct (convertToRanges_Abbrev Unit Abbrev AW None R) as [R1| | |] eqn:H1;
    try done.
  apply convertToRanges_Abbrev_extends in H1. cbn [mbind Result_bind].
  destruct (PendingRanges R1 !! AbbrevPtr Abbrev) as [Pending|].
  - destruct (foldlR _ R1 Pending) as [R2| | |] eqn:H2; try done.
    apply foldlR_extends in H2;
      [|intros ???; apply convertToRanges_Ranges_extends].
    cbn [mbind Result_bind]. intros [= <-].
    etrans; [exact H1|]. etrans; [exact H2|].
    etrans; [apply extends_set_PendingRanges|].
    apply extends_set_ConvertedRangesAbbrevs. cbn. set_solver.
  - cbn [mbind Result_bind]. intros [= <-].
    etrans; [exact H1|]. apply extends_set_ConvertedRangesAbbrevs. set_solver.
Qed.

Lemma addToPendingRanges_extends Abbrev DIE FunctionRanges DWOId R R' :
  addToPendingRanges Abbrev DIE FunctionRanges DWOId R = Ok R' → extends R R'.
Proof.
  unfold addToPendingRanges.
  destruct (find DIE DW_AT_low_pc) as [LowPc|].
  - case_bool_decide.
    + destruct DWOId as [Id|]; [|done].
      destruct (find DIE DW_AT_high_pc) as [HighPc|]; [|done].
      cbn [mbind Result_bind].
      destruct FunctionRanges; [done|]. intros [= <-]. solve_extends.
    + cbn [mbind Result_bind].
      destruct FunctionRanges; [done|]. intros [= <-]. solve_extends.
  - cbn [mbind Result_bind].
    destruct FunctionRanges; [done|]. intros [= <-]. solve_extends.
Qed.

Lemma delayConversion_extends Unit DIE FunctionRanges P AW R R' :
  delayConversion Unit DIE FunctionRanges P AW R = Ok R' → extends R R'.
Proof.
  unfold delayConversion.
  destruct (getAbbreviationDeclarationPtr (Die DIE)) as [Abbrev|]; [|done].
  case_bool_decide.
  - destruct (convertPending Unit Abbrev P AW R) as [R1| | |] eqn:H1; try done.
    apply convertPending_extends in H1. cbn [mbind Result_bind].
    intros H2%convertToRanges_Ranges_extends. by etrans.
  - case_bool_decide.
    + apply convertToRanges_Ranges_extends.
    + apply addToPendingRanges_extends.
Qed.

Lemma updateDWARFObjectAddressRanges_extends DIE off P AW RangesBase R R' :
  updateDWARFObjectAddressRanges DIE off P AW RangesBase R = Ok R' → extends R R'.
Proof.
  unfold updateDWARFObjectAddressRanges.
  destruct (getAbbreviationDeclarationPtr (Die DIE)) as [Abbrev|].
  2: { case_bool_decide; intros [= <-]; solve_extends. }
  destruct RangesBase as [RB|];
    [destruct (findAttributeInfo DIE DW_AT_GNU_ranges_base) as [RangesBaseAttrInfo|]|].
  all: case_bool_decide;
    [ destruct (findAttributeInfo DIE DW_AT_ranges) as [AttrVal|]; [|done];
      unfold getRangeBase; cbn [fst snd];
      try destruct (findAttributeInfo DIE DW_AT_low_pc);
      intros [= <-]; solve_extends
    | destruct (_ && _);
      [ destruct (convertToRanges_Abbrev _ _ _ _ _) as [R2| | |] eqn:H2; try done;
        apply convertToRanges_Abbrev_extends in H2; cbn [mbind Result_bind];
        intros H3%convertToRanges_Offset_extends;
        (etrans; [|exact H3]); (etrans; [|exact H2]); solve_extends
      | case_bool_decide; intros [= <-]; solve_extends ] ].
Qed.

Lemma updateUnitDebugInfo_compile_unit_extends Unit DIE P AW RangesBase R R' :
  updateUnitDebugInfo_compile_unit Unit DIE P AW RangesBase R = Ok R' →
  extends R R'.
Proof.
  unfold updateUnitDebugInfo_compile_unit.
  destruct (getAddressRanges (Die DIE)) as [ModuleRanges|]; [|by intros [= <-]].
  pose proof (addRanges_prefix (RangesSectionWriter R)
                (translateModuleAddressRanges BC ModuleRanges)) as HP.
  destruct (addRanges _ _) as [o W]. cbn [snd] in HP.
  intros HU%updateDWARFObjectAddressRanges_extends.
  etrans; [|exact HU].
  destruct (negb _); [etrans; [|apply extends_set_ARangesSectionWriter]|];
    by apply extends_set_RangesSectionWriter.
Qed.

Lemma updateUnitDebugInfo_subprogram_extends Unit DIE P AW C R C' R' :
  updateUnitDebugInfo_subprogram Unit DIE P AW C R = Ok (C', R') → extends R R'.
Proof.
  unfold updateUnitDebugInfo_subprogram.
  match goal with
  | |- context [match ?Resolved with Some _ => _ | None => Ok (C, R) end] =>
      destruct Resolved as [[Address UsesRanges]|]
  end; [|by intros [= <- <-]].
  destruct UsesRanges.
  - set (FunctionRanges := match getBinaryFunctionAtAddress BC Address with
                           | Some Function => getOutputAddressRanges Function
                           | None => []
                           end).
    pose proof (addRanges_prefix (RangesSectionWriter R) FunctionRanges) as HP.
    destruct (addRanges _ _) as [o W]. cbn [snd] in HP.
    destruct (updateDWARFObjectAddressRanges _ _ _ _ _ _) as [R1| | |] eqn:HU;
      try done.
    apply updateDWARFObjectAddressRanges_extends in HU.
    cbn [mbind Result_bind]. intros [= <- <-].
    etrans; [|exact HU]. by apply extends_set_RangesSectionWriter.
  - destruct (delayConversion _ _ _ _ _ _) as [R1| | |] eqn:HD; try done.
    apply delayConversion_extends in HD.
    cbn [mbind Result_bind]. by intros [= <- <-].
Qed.

Lemma updateUnitDebugInfo_block_extends DIE P AW C R C' R' :
  updateUnitDebugInfo_block DIE P AW C R = Ok (C', R') → extends R R'.
Proof.
  unfold updateUnitDebugInfo_block.
  destruct (getAddressRanges (Die DIE)) as [[|Front Rest]|];
    try destruct (getBinaryFunctionContainingAddress BC (LowPC Front))
      as [Function|].
  all: try (pose proof (addRangesCached_prefix (RangesSectionWriter R)
                          (translateInputToOutputRanges Function (Front :: Rest)) C)
              as HP;
            destruct (addRangesCached _ _ _) as [[o W] C1]; cbn [fst snd] in HP).
  all: cbv beta iota zeta.
  all: destruct (updateDWARFObjectAddressRanges _ _ _ _ _ _) as [R1| | |] eqn:HU;
    try done;
    apply updateDWARFObjectAddressRanges_extends in HU;
    cbn [mbind Result_bind]; intros [= <- <-];
    (etrans; [|exact HU]); by apply extends_set_RangesSectionWriter.
Qed.

Lemma updateLocationList_extends CUIndex Unit AttrVal P R R' :
  updateLocationList CUIndex Unit AttrVal P R = Ok R' → extends R R'.
Proof.
  unfold updateLocationList.
  destruct (visitLocationList Unit _) as [Visited E].
  destruct (collectInputLL _ _ _ _) as [InputLL| | |]; try done.
  cbn [mbind Result_bind].
  match goal with
  | |- context [mbind _ ?Added] =>
      assert (∀ o R1, Added = Ok (o, R1) → extends R R1) as HA;
      [|destruct Added as [[o R1]| | |]; try done; specialize (HA _ _ eq_refl)]
  end.
  { intros o R1. destruct InputLL as [|Front Rest].
    - intros [= <- <-]. solve_extends.
    - destruct E; [intros [= <- <-]; solve_extends|].
      destruct (getBinaryFunctionContainingAddress BC _) as [Function|];
        [|by intros [= <- <-]].
      destruct (LocListWritersByCU R !! CUIndex) as [W|] eqn:HW; [|done].
      destruct (addList W _) as [ListOffset W1]. intros [= <- <-].
      apply extends_set_LocListWritersByCU. rewrite dom_insert_L.
      apply union_subseteq_r. }
  cbn [mbind Result_bind].
  case_bool_decide.
  - destruct (isDWOUnit (Info Unit)); intros [= <-].
    + etrans; [exact HA|]. apply extends_set_DwoLocListDebugInfoPatches.
    + etrans; [exact HA|]. apply extends_set_LocListDebugInfoPatches.
      by apply prefix_app_r.
  - intros [= <-]. solve_extends.
Qed.

Lemma updateLocationExpr_extends Unit Value R R' :
  updateLocationExpr Unit Value R = Ok R' → extends R R'.
Proof.
  unfold updateLocationExpr. destruct (negb _); [done|].
  destruct (isDWOUnit (Info Unit)); [|by intros [= <-]].
  apply foldlR_extends. intros s Expr s'.
  destruct (negb _); [by intros [= <-]|].
  destruct (getAddrOffsetSectionItem Unit _); [|done].
  destruct (getDWOId (Info Unit)); [|done].
  case_bool_decide; [done|]. intros [= <-]. solve_extends.
Qed.

Lemma updateLowPC_extends Unit AttrVal P R R' :
  updateLowPC Unit AttrVal P R = Ok R' → extends R R'.
Proof.
  unfold updateLowPC.
  destruct (getAsAddress (V AttrVal)) as [Address|].
  - cbv zeta.
    destruct (bool_decide (getForm (V AttrVal) = DW_FORM_LLVM_addrx_offset));
      [done|].
    case_bool_decide.
    + destruct (negb _); [done|].
      destruct (getDWOId (Info Unit)); [|done]. intros [= <-]. solve_extends.
    + intros [= <-]. solve_extends.
  - case_bool_decide; intros [= <-]; solve_extends.
Qed.

Lemma updateUnitDebugInfo_default_extends CUIndex Unit DIE P R R' :
  updateUnitDebugInfo_default CUIndex Unit DIE P R = Ok R' → extends R R'.
Proof.
  unfold updateUnitDebugInfo_default.
  destruct (findAttributeInfo DIE DW_AT_location) as [AttrVal|].
  - destruct (_ || _);
      [apply updateLocationList_extends|apply updateLocationExpr_extends].
  - destruct (findAttributeInfo DIE DW_AT_low_pc);
      [apply updateLowPC_extends|by intros [= <-]].
Qed.

Lemma updateUnitDebugInfo_DIE_extends CUIndex Unit DIE P AW RangesBase C R C' R' :
  updateUnitDebugInfo_DIE CUIndex Unit DIE P AW RangesBase C R = Ok (C', R') →
  extends R R'.
Proof.
  unfold updateUnitDebugInfo_DIE.
  destruct (getTag DIE).
  all: try apply updateUnitDebugInfo_subprogram_extends.
  all: try apply updateUnitDebugInfo_block_extends.
  - destruct (updateUnitDebugInfo_default _ _ _ _ _) as [R1| | |] eqn:HD; try done.
    apply updateUnitDebugInfo_default_extends in HD.
    cbn [mbind Result_bind]. by intros [= <- <-].
  - destruct (updateUnitDebugInfo_compile_unit _ _ _ _ _ _) as [R1| | |] eqn:HD;
      try done.
    apply updateUnitDebugInfo_compile_unit_extends in HD.
    cbn [mbind Result_bind]. by intros [= <- <-].
  - destruct (updateUnitDebugInfo_default _ _ _ _ _) as [R1| | |] eqn:HD; try done.
    apply updateUnitDebugInfo_default_extends in HD.
    cbn [mbind Result_bind]. by intros [= <- <-].
Qed.

Lemma updateUnitDebugInfo_loop_extends CUIndex Unit P AW RangesBase Rest :
  ∀ DIEOffset Depth C R DIEOffset' R',
  updateUnitDebugInfo_loop CUIndex Unit P AW RangesBase Rest DIEOffset Depth C R =
    Ok (DIEOffset', R') →
  extends R R'.
Proof.
  induction Rest as [|E Rest IH]; intros DIEOffset Depth C R DIEOffset' R';
    cbn [updateUnitDebugInfo_loop].
  - by intros [= <- <-].
  - case_bool_decide; [|by intros [= <- <-]].
    destruct (getAbbreviationDeclarationPtr E) as [AbbrDecl|];
      [|destruct (bool_decide (_ = 0)); [by intros [= <- <-]|]];
      cbv beta iota zeta.
    all: destruct (updateUnitDebugInfo_DIE _ _ _ _ _ _ _ _) as [[C1 R1]| | |] eqn:HD;
      try done;
      apply updateUnitDebugInfo_DIE_extends in HD; cbn [mbind Result_bind];
      intros HL%IH; by etrans.
Qed.

Lemma updateUnitDebugInfo_extends CUIndex Unit P AW RangesBase R R' :
  updateUnitDebugInfo CUIndex Unit P AW RangesBase R = Ok R' → extends R R'.
Proof.
  unfold updateUnitDebugInfo.
  destruct (LocListWritersByCU R !! CUIndex); [|done].
  destruct (updateUnitDebugInfo_loop _ _ _ _ _ _ _ _ _ _) as [[o R1]| | |] eqn:HL;
    try done.
  apply updateUnitDebugInfo_loop_extends in HL. cbn [mbind Result_bind].
  case_bool_decide; intros [= <-]; (etrans; [exact HL|]); solve_extends.
Qed.

Lemma updateDWONameCompDir_extends Unit Names R Names' R' :
  updateDWONameCompDir Unit Names R = Ok (Names', R') → extends R R'.
Proof.
  unfold updateDWONameCompDir.
  destruct (getUnitDIE Unit ≫= _) as [AttrInfoVal|]; [|done].
  destruct (getDWOName Unit true Names) as [[ObjectName Names1]| | |]; try done.
  cbn [mbind Result_bind].
  destruct (addString (StrWriter R) ObjectName) as [NewOffset W].
  destruct (getUnitDIE Unit ≫= _) as [CompDirInfo|]; [|done].
  destruct (negb _).
  - destruct (addString _ _) as [NewOffset2 W2]. intros [= <- <-]. solve_extends.
  - intros [= <- <-]. solve_extends.
Qed.

Lemma processUnitDIE_extends CUIndex Unit Names R Names' R' :
  processUnitDIE CUIndex Unit Names R = Ok (Names', R') → extends R R'.
Proof.
  unfold processUnitDIE.
  match goal with
  | |- context [mbind _ ?Split] =>
      assert (∀ RB N1 R1, Split = Ok (RB, N1, R1) → extends R R1) as HS;
      [|destruct Split as [[[RB N1] R1]| | |]; try done; specialize (HS _ _ _ eq_refl)]
  end.
  { intros RB N1 R1.
    destruct (getDWOId (Info Unit) ≫= getDWOCU BC) as [SplitCU|];
      [|by intros [= <- <- <-]].
    destruct (getDWOId (Info Unit)) as [DWOId|]; [|by intros [= <- <- <-]].
    destruct (updateDWONameCompDir Unit Names R) as [[N2 R2]| | |] eqn:HN; try done.
    apply updateDWONameCompDir_extends in HN. cbn [mbind Result_bind].
    case_bool_decide; [done|].
    destruct (updateUnitDebugInfo _ _ _ _ _ _) as [R3| | |] eqn:HU; try done.
    apply updateUnitDebugInfo_extends in HU. cbn [mbind Result_bind].
    intros [= <- <- <-].
    etrans; [exact HN|]. etrans; [|etrans; [exact HU|]].
    - etrans; [apply extends_set_LocListWritersByCU|].
      { rewrite dom_insert_L. apply union_subseteq_r. }
      apply extends_onPatcher. intros P0. done.
    - apply extends_set_LocListWritersByCU. by rewrite dom_alter_L. }
  cbn [mbind Result_bind].
  destruct (updateUnitDebugInfo _ _ _ _ _ _) as [R2| | |] eqn:HU; try done.
  apply updateUnitDebugInfo_extends in HU. cbn [mbind Result_bind].
  intros [= <- <-]. by etrans.
Qed.

Lemma flushPendingRanges_extends P R R' :
  flushPendingRanges P R = Ok R' → extends R R'.
Proof.
  unfold flushPendingRanges.
  destruct (foldlR _ R _) as [R1| | |] eqn:HF; try done.
  apply foldlR_extends in HF.
  - cbn [mbind Result_bind]. intros [= <-]. solve_extends.
  - intros s Pending s'. apply foldlR_extends.
    intros t Pair t'. apply patchLowHigh_extends.
Qed.

Lemma processUnits_loop_extends (CUs : list DWARFUnit) : ∀ Names R Names' R',
  foldlR (λ '(Names, R) CU, processUnitDIE 0 CU Names R) (Names, R) CUs =
    Ok (Names', R') →
  extends R R'.
Proof.
  induction CUs as [|CU CUs IH]; intros Names R Names' R'; cbn [foldlR].
  - by intros [= <- <-].
  - destruct (processUnitDIE 0 CU Names R) as [[N1 R1]| | |] eqn:HP; try done.
    apply processUnitDIE_extends in HP. cbn [mbind Result_bind].
    intros HL%IH. by etrans.
Qed.

(** X10.  Lines 256-272, the units one after the other and the flush: whatever
    the rewriter held before is still there afterwards.  No patch is taken
    back or reordered, no request to an abbreviation writer is withdrawn,
    no list of the ranges section is moved (an offset handed out stays
    valid), no declaration loses its mark, no location-list writer and no
    diagnostic disappears. *)
Theorem processUnits_extends (Names Names' : DWONames) (R R' : DWARFRewriter) :
  processUnits Names R = Ok (Names', R') → extends R R'.
Proof.
  unfold processUnits.
  destruct (foldlR _ (Names, R) _) as [[N1 R1]| | |] eqn:HF; try done.
  cbn [mbind Result_bind].
  destruct (flushPendingRanges MainDebugInfoPatcher R1) as [R2| | |] eqn:HFl;
    try done.
  apply flushPendingRanges_extends in HFl. cbn [mbind Result_bind].
  intros [= <- <-]. etrans; [|exact HFl].
  by apply processUnits_loop_extends in HF.
Qed.

(** ** DWO IDs are taken to be unique *)

Lemma LocListWritersByCU_onPatcher T f R :
  LocListWritersByCU (onPatcher T f R) = LocListWritersByCU R.
Proof. by destruct T. Qed.

Lemma processUnitDIE_registers CUIndex Unit Names R Names' R' DWOId SplitCU :
  getDWOId (Info Unit) = Some DWOId →
  getDWOCU BC DWOId = Some SplitCU →
  processUnitDIE CUIndex Unit Names R = Ok (Names', R') →
  DWOId ∈ dom (LocListWritersByCU R').
Proof.
  intros HId HCU. unfold processUnitDIE. rewrite HId. cbn [mbind option_bind].
  rewrite HCU.
  destruct (updateDWONameCompDir Unit Names R) as [[N2 R2]| | |]; try done.
  cbn [mbind Result_bind]. case_bool_decide; [done|].
  destruct (updateUnitDebugInfo DWOId _ _ _ _ _) as [R3| | |] eqn:HU; try done.
  apply updateUnitDebugInfo_extends in HU. cbn [mbind Result_bind].
  destruct (updateUnitDebugInfo CUIndex _ _ _ _ _) as [R4| | |] eqn:HU2; try done.
  apply updateUnitDebugInfo_extends in HU2. cbn [mbind Result_bind].
  intros [= <- <-].
  destruct HU as (_ & _ & _ & _ & _ & HD & _).
  destruct HU2 as (_ & _ & _ & _ & _ & HD2 & _).
  apply HD2. cbn. rewrite dom_alter_L. apply HD.
  rewrite LocListWritersByCU_onPatcher. cbn.
  rewrite dom_insert_L. set_solver.
Qed.

Lemma getDWOName_outcome CU UseNameToIndexMap Names :
  (∃ Name Names', getDWOName CU UseNameToIndexMap Names = Ok (Name, Names')) ∨
  (∃ msg, getDWOName CU UseNameToIndexMap Names = AssertFail msg).
Proof.
  unfold getDWOName.
  destruct (getDWOId (Info CU)) as [DWOId|]; [|eauto].
  destruct (_ !! DWOId) as [Name|]; [eauto|].
  destruct (bool_decide (UnitDWOName CU = "")); [eauto|].
  destruct (_ && _); eauto.
Qed.

Lemma updateDWONameCompDir_outcome Unit Names R :
  (∃ Names' R', updateDWONameCompDir Unit Names R = Ok (Names', R')) ∨
  (∃ msg, updateDWONameCompDir Unit Names R = AssertFail msg).
Proof.
  unfold updateDWONameCompDir.
  destruct (getUnitDIE Unit ≫= _) as [AttrInfoVal|]; [|eauto].
  destruct (getDWOName_outcome Unit true Names) as [(N & Names' & ->)|[msg ->]];
    cbn [mbind Result_bind]; [|eauto].
  destruct (addString _ _) as [o W].
  destruct (getUnitDIE Unit ≫= _); [|eauto].
  destruct (negb _); [destruct (addString _ _)|]; eauto.
Qed.





(** X11.  Once a unit with a loaded split unit has been processed, a second unit
    that carries the same DWO ID cannot be processed, however far the run
    has gone on in between: the driver stops at an assertion.  It is the
    one about the location-list writer of the split unit, unless the unit
    fails the assertions about its name attributes first. *)
Theorem repeated_dwo_id_asserts (CUIndex1 CUIndex2 : Z)
    (Unit1 Unit2 SplitCU : DWARFUnit) (DWOId : Z)
    (Names Names1 Names2 : DWONames) (R R1 R2 : DWARFRewriter) :
  getDWOId (Info Unit1) = Some DWOId →
  getDWOId (Info Unit2) = Some DWOId →
  getDWOCU BC DWOId = Some SplitCU →
  processUnitDIE CUIndex1 Unit1 Names R = Ok (Names1, R1) →
  extends R1 R2 →
  (∃ msg, processUnitDIE CUIndex2 Unit2 Names2 R2 = AssertFail msg) ∧
  (∀ Names3 R3,
     updateDWONameCompDir Unit2 Names2 R2 = Ok (Names3, R3) →
     processUnitDIE CUIndex2 Unit2 Names2 R2 =
       AssertFail "LocList writer for DWO unit already exists.").
Proof.
  intros HId1 HId2 HCU HP1 HE.
  pose proof (processUnitDIE_registers _ _ _ _ _ _ _ _ HId1 HCU HP1) as Hreg.
  assert (∀ Names3 R3,
            updateDWONameCompDir Unit2 Names2 R2 = Ok (Names3, R3) →
            processUnitDIE CUIndex2 Unit2 Names2 R2 =
              AssertFail "LocList writer for DWO unit already exists.") as Hsecond.
  { intros Names3 R3 HN. unfold processUnitDIE. rewrite HId2.
    cbn [mbind option_bind]. rewrite HCU, HN. cbn [mbind Result_bind].
    apply updateDWONameCompDir_extends in HN.
    rewrite bool_decide_eq_true_2; [done|].
    apply elem_of_dom.
    destruct HE as (_ & _ & _ & _ & _ & HD & _).
    destruct HN as (_ & _ & _ & _ & _ & HD' & _).
    by apply HD', HD. }
  split; [|done].
  destruct (updateDWONameCompDir_outcome Unit2 Names2 R2)
    as [(Names3 & R3 & HN)|[msg HN]].
  - eauto.
  - exists msg. unfold processUnitDIE. rewrite HId2. cbn [mbind option_bind].
    by rewrite HCU, HN.
Qed.

(** ** Location attributes *)

(** X12.  A location list that cannot be read, that holds no entry, or whose
    first address lies in no function is replaced by the empty list right
    away: the attribute is patched with the offset of the empty list,
    nothing is deferred, and the location-list writers are not touched.
    The warning is printed in the first two cases, but not for a list
    without function. *)
Theorem location_list_without_function (CUIndex : Z) (Unit : DWARFUnit)
    (AttrVal : AttrInfo) (P : PatcherRef) (R : DWARFRewriter)
    (Visited : list DWARFLocationEntry) (E : bool) (InputLL : DebugLocationsVector) :
  visitLocationList Unit (getRawUValue (V AttrVal)) = (Visited, E) →
  collectInputLL Unit Visited (default 0 (getBaseAddress (Info Unit))) [] =
    Ok InputLL →
  (E = true ∨ InputLL = [] ∨
   ∃ Front, head InputLL = Some Front ∧
     getBinaryFunctionContainingAddress BC (LocLowPC Front) = None) →
  updateLocationList CUIndex Unit AttrVal P R =
  Ok (onPatcher P (λ P0, addLE32Patch P0 (Offset AttrVal) EmptyListOffset)
        (if E || bool_decide (InputLL = [])
         then warn "BOLT-WARNING: empty location list detected" R else R)).
Proof.
  intros HV HC Hcase. unfold updateLocationList. rewrite HV, HC.
  cbn [mbind Result_bind].
  destruct InputLL as [|Front Rest].
  - rewrite orb_true_r. cbn [mbind Result_bind].
    by rewrite bool_decide_eq_false_2 by (intros Hne; by apply Hne).
  - rewrite (bool_decide_eq_false_2 (Front :: Rest = [])) by done.
    rewrite orb_false_r. destruct E.
    + cbn [mbind Result_bind].
      by rewrite bool_decide_eq_false_2 by (intros Hne; by apply Hne).
    + destruct Hcase as [?|[?|(F & [= <-] & HF)]]; [done|done|].
      rewrite HF. cbn [mbind Result_bind].
      by rewrite bool_decide_eq_false_2 by (intros Hne; by apply Hne).
Qed.

(** X13.  Whenever [updateLocationList] returns, the attribute was either
    patched with the offset of the empty list, and then nothing was
    deferred; or one entry was deferred for it, with the offset of the
    attribute, the index of the unit and the unit-local offset, in the list
    of the unit's kind (split units apart), and then no patch was added. *)
Theorem location_list_patched_or_deferred (CUIndex : Z) (Unit : DWARFUnit)
    (AttrVal : AttrInfo) (P : PatcherRef) (R R' : DWARFRewriter) :
  updateLocationList CUIndex Unit AttrVal P R = Ok R' →
  (Patches (getPatcher R' P) =
     Patches (getPatcher R P) ++ [LE32Patch (Offset AttrVal) 0] ∧
   LocListDebugInfoPatches R' = LocListDebugInfoPatches R ∧
   DwoLocListDebugInfoPatches R' = DwoLocListDebugInfoPatches R) ∨
  (∃ LocalOffset : Z,
     let Entry := mkLocListPatch (Offset AttrVal) CUIndex LocalOffset in
     (∀ T, getPatcher R' T = getPatcher R T) ∧
     if isDWOUnit (Info Unit)
     then DwoLocListDebugInfoPatches R' !! CUIndex =
            Some (default [] (DwoLocListDebugInfoPatches R !! CUIndex) ++ [Entry]) ∧
          LocListDebugInfoPatches R' = LocListDebugInfoPatches R
     else LocListDebugInfoPatches R' = LocListDebugInfoPatches R ++ [Entry] ∧
          DwoLocListDebugInfoPatches R' = DwoLocListDebugInfoPatches R).
Proof.
  unfold updateLocationList.
  destruct (visitLocationList Unit _) as [Visited E].
  destruct (collectInputLL _ _ _ _) as [InputLL| | |]; try done.
  cbn [mbind Result_bind].
  match goal with
  | |- context [mbind _ ?Added] =>
      assert (∀ o R1, Added = Ok (o, R1) →
                (∀ T, getPatcher R1 T = getPatcher R T) ∧
                LocListDebugInfoPatches R1 = LocListDebugInfoPatches R ∧
                DwoLocListDebugInfoPatches R1 = DwoLocListDebugInfoPatches R) as HA;
      [|destruct Added as [[o R1]| | |]; try done;
        destruct (HA _ _ eq_refl) as (HP1 & HL1 & HD1); clear HA]
  end.
  { intros o R1. destruct InputLL as [|Front Rest].
    - intros [= <- <-]. split; [by intros []|done].
    - destruct E; [intros [= <- <-]; split; [by intros []|done]|].
      destruct (getBinaryFunctionContainingAddress BC _) as [Function|];
        [|by intros [= <- <-]].
      destruct (LocListWritersByCU R !! CUIndex) as [W|]; [|done].
      destruct (addList W _) as [ListOffset W1]. intros [= <- <-].
      split; [by intros []|done]. }
  cbn [mbind Result_bind].
  case_bool_decide.
  - intros Heq. right. exists o. cbn zeta.
    destruct (isDWOUnit (Info Unit)); injection Heq as <-.
    + split; [intros T; rewrite <- HP1; by destruct T|].
      cbn. rewrite lookup_insert_eq, HD1. done.
    + split; [intros T; rewrite <- HP1; by destruct T|].
      cbn. by rewrite HL1, HD1.
  - intros [= <-]. left. unfold onPatcher.
    rewrite getPatcher_setPatcher_eq, HP1. split; [done|].
    by destruct P.
Qed.

(** ** A low-pc of its own *)

(** X14.  An entry that is neither a unit, a subprogram nor a block, that has no
    location attribute, and whose low-pc address lies in no function: a
    low-pc of the form [DW_FORM_LLVM_addrx_offset] stops the run at an
    assertion; an indexed low-pc of a split unit keeps its old address in
    the address table, under the index it had, and nothing is patched; a
    low-pc of any other form is patched to 0. *)
Theorem low_pc_outside_functions (CUIndex : Z) (Unit : DWARFUnit) (DIE : DWARFDie)
    (P : PatcherRef) (R : DWARFRewriter) (AttrVal : AttrInfo) (Address : Z) :
  findAttributeInfo DIE DW_AT_location = None →
  findAttributeInfo DIE DW_AT_low_pc = Some AttrVal →
  getAsAddress (V AttrVal) = Some Address →
  getBinaryFunctionContainingAddress BC Address = None →
  (getForm (V AttrVal) ≠ DW_FORM_LLVM_addrx_offset →
   getForm (V AttrVal) ≠ DW_FORM_GNU_addr_index →
   updateUnitDebugInfo_default CUIndex Unit DIE P R =
     Ok (onPatcher P (λ P0, addLE64Patch P0 (Offset AttrVal) 0) R)) ∧
  (getForm (V AttrVal) = DW_FORM_LLVM_addrx_offset →
   updateUnitDebugInfo_default CUIndex Unit DIE P R =
     AssertFail "DW_FORM_LLVM_addrx_offset is not supported") ∧
  (∀ DWOId,
     getForm (V AttrVal) = DW_FORM_GNU_addr_index →
     isDWOUnit (Info Unit) = true →
     getDWOId (Info Unit) = Some DWOId →
     updateUnitDebugInfo_default CUIndex Unit DIE P R =
       Ok (set_AddrWriter
             (addIndexAddress (AddrWriter R) Address (getRawUValue (V AttrVal)) DWOId)
             R)).
Proof.
  intros HLoc HLow HAddr HFun.
  unfold updateUnitDebugInfo_default, updateLowPC. rewrite HLoc, HLow, HAddr, HFun.
  cbv zeta. split; [|split].
  - intros HOff HForm. by rewrite !bool_decide_eq_false_2.
  - intros HOff. by rewrite bool_decide_eq_true_2.
  - intros DWOId HForm HDWO HId.
    rewrite bool_decide_eq_false_2 by (by rewrite HForm).
    rewrite bool_decide_eq_true_2 by done. rewrite HDWO, HId. cbn [negb].
    by rewrite bool_decide_eq_false_2 by (intros Hne; by apply Hne).
Qed.

(** ** The ranges base of a skeleton unit *)

(** X15.  The root entry of a skeleton unit has a ranges attribute and is handed
    a ranges base.  If it has a [DW_AT_GNU_ranges_base] attribute, that
    attribute is patched with the base and the declaration stays as it is.
    If not, and it has a low-pc, the declaration's low-pc becomes the
    ranges base, of the indirect form, and the 8 bytes of the low-pc field
    are overwritten by the form code of [DW_FORM_udata] and the base on 7
    bytes.  If it has neither, an error is printed.  In all three cases the
    ranges attribute is patched, relative to the range base of the
    patcher. *)
Theorem skeleton_ranges_base (DIE : DWARFDie) (A : DWARFAbbreviationDeclaration)
    (RangesSectionOffset RB : Z) (P : PatcherRef) (AW : AbbrevWriterRef)
    (R : DWARFRewriter) (AttrVal : AttrInfo) :
  getAbbreviationDeclarationPtr (Die DIE) = Some A →
  is_Some (findAttributeIndex A DW_AT_ranges) →
  findAttributeInfo DIE DW_AT_ranges = Some AttrVal →
  let RangesPatch :=
    LE32Patch (Offset AttrVal)
      (to_uint32 (RangesSectionOffset - RangeBase (getPatcher R P))) in
  ∃ R',
    updateDWARFObjectAddressRanges DIE RangesSectionOffset P AW (Some RB) R = Ok R' ∧
    withoutPatchers (withoutAbbrevWriters R') =
      withoutPatchers (withoutAbbrevWriters R) ∧
    match findAttributeInfo DIE DW_AT_GNU_ranges_base,
          findAttributeInfo DIE DW_AT_low_pc with
    | Some RangesBaseAttrInfo, _ =>
        Patches (getPatcher R' P) =
          Patches (getPatcher R P) ++
          [LE32Patch (Offset RangesBaseAttrInfo) (to_uint32 RB); RangesPatch] ∧
        getAbbrevWriter R' AW = getAbbrevWriter R AW ∧
        errs R' = errs R
    | None, Some LowPCAttrInfo =>
        Patches (getPatcher R' P) =
          Patches (getPatcher R P) ++
          [RangesPatch;
           UDataPatch (Offset LowPCAttrInfo) (FormCode DW_FORM_udata) 1;
           UDataPatch (Offset LowPCAttrInfo + 1) (to_uint64 RB) 7] ∧
        tiles [UDataPatch (Offset LowPCAttrInfo) (FormCode DW_FORM_udata) 1;
               UDataPatch (Offset LowPCAttrInfo + 1) (to_uint64 RB) 7]
          (Offset LowPCAttrInfo) (Offset LowPCAttrInfo + 8) ∧
        AbbrevPatches (getAbbrevWriter R' AW) =
          AbbrevPatches (getAbbrevWriter R AW) ++
          [mkAbbrevPatch (getOffset (getDwarfUnit DIE)) (AbbrevPtr A) DW_AT_low_pc
             DW_AT_GNU_ranges_base DW_FORM_indirect] ∧
        errs R' = errs R
    | None, None =>
        Patches (getPatcher R' P) = Patches (getPatcher R P) ++ [RangesPatch] ∧
        getAbbrevWriter R' AW = getAbbrevWriter R AW ∧
        errs R' =
          errs R ++
          ["BOLT-ERROR: skeleton CU does not have DW_AT_GNU_ranges_base or DW_AT_low_pc to convert to update ranges base"]
    end.
Proof.
  intros HA Hidx HV RangesPatch. unfold updateDWARFObjectAddressRanges.
  rewrite HA.
  destruct (findAttributeInfo DIE DW_AT_GNU_ranges_base) as [RBI|].
  - rewrite bool_decide_eq_true_2 by done. rewrite HV. unfold getRangeBase.
    eexists. split; [reflexivity|].
    unfold onPatcher. rewrite !getPatcher_setPatcher_eq.
    split; [by destruct P|]. split; [|split; by destruct P, AW].
    cbn. by rewrite <- app_assoc.
  - rewrite bool_decide_eq_true_2 by done. rewrite HV. unfold getRangeBase.
    destruct (findAttributeInfo DIE DW_AT_low_pc) as [L|].
    + eexists. split; [reflexivity|].
      split; [by destruct P, AW|].
      split.
      { unfold onPatcher. rewrite !getPatcher_setPatcher_eq.
        assert (∀ T f R0, getPatcher (onAbbrevWriter AW f R0) T = getPatcher R0 T)
          as HG by (intros T f R0; by destruct AW, T).
        rewrite HG, getPatcher_setPatcher_eq. cbn.
        rewrite <- !app_assoc. reflexivity. }
      split; [cbn; lia|].
      split; [|by destruct P, AW].
      assert (∀ f R0, getAbbrevWriter (onPatcher P f R0) AW = getAbbrevWriter R0 AW)
        as HG by (intros f R0; by destruct AW, P).
      assert (∀ p R0, getAbbrevWriter (setPatcher P p R0) AW = getAbbrevWriter R0 AW)
        as HG2 by (intros p R0; by destruct AW, P).
      rewrite HG, getAbbrevWriter_onAbbrevWriter, decide_True by done.
      by rewrite HG2.
    + eexists. split; [reflexivity|].
      split; [by destruct P|]. split; [|split; by destruct P, AW].
      rewrite getPatcher_warn, getPatcher_setPatcher_eq. done.
Qed.

(** ** The flush leaves the declarations alone *)

Lemma errs_onPatcher T f R : errs (onPatcher T f R) = errs R.
Proof. by destruct T. Qed.

Lemma getRangeAttrData_errs DIE R D R1 :
  getRangeAttrData DIE R = Ok (D, R1) →
  errs R1 = errs R ++ rangeAttrWarnings DIE.
Proof.
  unfold getRangeAttrData, rangeAttrWarnings.
  destruct (findAttributeInfo DIE DW_AT_low_pc) as [L|]; [|done].
  destruct (findAttributeInfo DIE DW_AT_high_pc) as [H|]; [|done].
  cbv zeta. repeat case_bool_decide; intros [= <- <-]; cbn;
    by rewrite ?app_nil_r.
Qed.

Lemma patchLowHigh_errs DIE Range P R R' :
  patchLowHigh DIE Range P R = Ok R' →
  errs R' = errs R ++ rangeAttrWarnings DIE.
Proof.
  unfold patchLowHigh.
  destruct (getRangeAttrData DIE R) as [[D R1]| | |] eqn:Hdata; try done.
  apply getRangeAttrData_errs in Hdata. cbn [mbind Result_bind].
  destruct (bool_decide (getForm (LowPCFormValue D) = DW_FORM_GNU_addr_index)).
  - destruct (isDWOUnit (getDwarfUnit DIE)); [|done]. cbn [negb].
    destruct (getDWOId (getDwarfUnit DIE)); [|done]. cbn [mbind Result_bind].
    destruct (isHighPcFormEightBytes _); intros [= <-];
      by rewrite !errs_onPatcher.
  - cbn [mbind Result_bind].
    destruct (isHighPcFormEightBytes _); intros [= <-];
      by rewrite !errs_onPatcher.
Qed.

Lemma foldlR_errs {A : Type} (f : DWARFRewriter → A → Result DWARFRewriter)
    (g : A → list string) :
  (∀ s a s', f s a = Ok s' → errs s' = errs s ++ g a) →
  ∀ l s s', foldlR f s l = Ok s' → errs s' = errs s ++ (l ≫= g).
Proof.
  intros Hstep. induction l as [|a l IH]; intros s s'; cbn [foldlR].
  - intros [= <-]. cbn. by rewrite app_nil_r.
  - destruct (f s a) as [s1| | |] eqn:Hf; try done. cbn [mbind Result_bind].
    intros Hl. rewrite (IH _ _ Hl), (Hstep _ _ _ Hf).
    cbn [mbind list_bind]. by rewrite <- app_assoc.
Qed.

(** X16.  When [flushPendingRanges] returns, it has emptied the pending set and
    added patches, and the diagnostics have grown by the warnings of
    [getRangeAttrData]: one for every pending entry whose low-pc/high-pc
    pair has unexpected forms or is not adjacent, in the order of the flush
    (such an entry is patched all the same).  Apart from the patchers and
    the diagnostics everything is as before: no declaration was rewritten or
    marked converted, and nothing was added to the ranges section or to the
    address table.  No patch that was there is lost. *)
Theorem flushPendingRanges_frame (P : PatcherRef) (R R' : DWARFRewriter) :
  flushPendingRanges P R = Ok R' →
  withoutPatchers R' = withoutPatchers (set_PendingRanges ∅ R) ∧
  errs R' =
    errs R ++
    (map_to_list (PendingRanges R) ≫= λ Pending,
       Pending.2 ≫= λ RangePair, rangeAttrWarnings RangePair.1) ∧
  ∀ T p, p ∈ Patches (getPatcher R T) → p ∈ Patches (getPatcher R' T).
Proof.
  unfold flushPendingRanges.
  destruct (foldlR _ R _) as [R1| | |] eqn:HF; try done.
  cbn [mbind Result_bind]. intros [= <-].
  pose proof HF as HE.
  apply (foldlR_errs _
           (λ Pending : Z * list (DWARFDie * DebugAddressRange),
              Pending.2 ≫= λ RangePair, rangeAttrWarnings RangePair.1)) in HE.
  2: { intros s Pending s'.
       apply (foldlR_errs _
                (λ RangePair : DWARFDie * DebugAddressRange,
                   rangeAttrWarnings RangePair.1)).
       intros t Pair t'. apply patchLowHigh_errs. }
  apply (foldlR_preserves patchesGrow) in HF.
  - destruct HF as [HW HG]. split; [|split].
    + change (withoutPatchers (set_PendingRanges ∅ ?X))
        with (set_PendingRanges ∅ (withoutPatchers X)).
      by rewrite HW.
    + exact HE.
    + intros T p Hp. apply HG in Hp. by destruct T.
  - intros s Pending s'. apply (foldlR_preserves patchesGrow).
    intros t Pair t'. apply patchLowHigh_grows.
Qed.

(** ** The final location-list section and the split units *)

Lemma layoutLocLists_skipped Ws k : ∀ Buf Off M,
  (∀ W, (k, W) ∈ Ws → isDebugLoclistWriter W = true) →
  (layoutLocLists Ws Buf Off M).2 !! k = M !! k.
Proof.
  induction Ws as [|Loc Ws IH]; intros Buf Off M Hk; [done|].
  rewrite layoutLocLists_cons.
  destruct (isDebugLoclistWriter Loc.2) eqn:HL.
  - apply IH. intros W HW. apply Hk. by right.
  - rewrite IH by (intros W HW; apply Hk; by right).
    rewrite lookup_insert_ne; [done|]. intros Heq.
    destruct Loc as [k' W]. cbn in *. subst k'.
    rewrite (Hk W) in HL; [done|by left].
Qed.

Lemma dwo_loc_patches_of (M : gmap Z Z) (DWOId : Z)
    (l : list (Z * list LocListDebugInfoPatchType)) : ∀ R,
  Patches (getPatcher
    (foldl (λ R Iter,
             foldl (λ R p,
                      onPatcher (DWODebugInfoPatcher Iter.1)
                        (λ P, addLE32Patch P (DebugInfoOffset p)
                                (default 0 (M !! PatchCUIndex p) + CUWriterOffset p)) R)
                   R Iter.2)
          R l) (DWODebugInfoPatcher DWOId)) =
  Patches (getPatcher R (DWODebugInfoPatcher DWOId)) ++
  (l ≫= λ Iter,
     if bool_decide (Iter.1 = DWOId)
     then (λ p, LE32Patch (DebugInfoOffset p)
                  (to_uint32 (default 0 (M !! PatchCUIndex p) + CUWriterOffset p)))
            <$> Iter.2
     else []).
Proof.
  induction l as [|Iter l IH]; intros R.
  - cbn. by rewrite app_nil_r.
  - cbn [foldl mbind list_bind]. rewrite IH. rewrite app_assoc. f_equal.
    case_bool_decide as Hid.
    + rewrite Hid.
      apply (foldl_addLE32Patch (DWODebugInfoPatcher DWOId) DebugInfoOffset
               (λ p, default 0 (M !! PatchCUIndex p) + CUWriterOffset p)).
    + rewrite app_nil_r. f_equal.
      apply (foldl_onPatcher_other (DWODebugInfoPatcher Iter.1)
               (DWODebugInfoPatcher DWOId)
               (λ p P, addLE32Patch P (DebugInfoOffset p)
                         (default 0 (M !! PatchCUIndex p) + CUWriterOffset p))).
      congruence.
Qed.

Lemma bind_own_key {A B : Type} (g : list A → list B) (k : Z)
    (l : list (Z * list A)) :
  k ∉ l.*1 →
  (l ≫= λ Iter, if bool_decide (Iter.1 = k) then g Iter.2 else []) = [].
Proof.
  induction l as [|[k' es] l IH]; intros Hk; [done|].
  cbn [fmap list_fmap fst] in Hk. apply not_elem_of_cons in Hk as [Hne Hk].
  cbn [mbind list_bind fst snd]. rewrite bool_decide_eq_false_2 by congruence.
  cbn [app]. by apply IH.
Qed.

Lemma bind_own_key_elem {A B : Type} (g : list A → list B) (k : Z) (es : list A)
    (l : list (Z * list A)) :
  NoDup l.*1 → (k, es) ∈ l →
  (l ≫= λ Iter, if bool_decide (Iter.1 = k) then g Iter.2 else []) = g es.
Proof.
  induction l as [|[k' es'] l IH]; intros Hnd Hin.
  - by apply elem_of_nil in Hin.
  - cbn [fmap list_fmap fst] in Hnd. apply NoDup_cons in Hnd as [Hnot Hnd].
    cbn [mbind list_bind fst snd].
    apply elem_of_cons in Hin as [[= <- <-]|Hin].
    + rewrite bool_decide_eq_true_2 by done.
      rewrite (bind_own_key g k l Hnot). by rewrite app_nil_r.
    + assert (k' ≠ k) as Hne.
      { intros ->. apply Hnot. apply list_elem_of_fmap. by exists (k, es). }
      rewrite bool_decide_eq_false_2 by done. cbn [app]. by apply IH.
Qed.

(** X17.  The deferred location lists of a split unit.  A split unit's lists are
    kept by a writer of the loclists kind, which the layout of the final
    section leaves out; [SectionOffsetByCU] then gives 0 for the unit, and the
    value patched into the split unit's debug-info is the offset within the
    unit's own lists, as a 32-bit value.  The patches are appended to the
    patcher of that split unit, and apart from the patchers the rewriter is as
    before. *)
Theorem split_unit_location_offsets_stay_local
    (R : DWARFRewriter) (DWOId : Z) (Lists : list LocListDebugInfoPatchType) :
  let Out := makeFinalLocListsSection MainDebugInfoPatcher R in
  DwoLocListDebugInfoPatches R !! DWOId = Some Lists →
  (∀ p W, p ∈ Lists → LocListWritersByCU R !! PatchCUIndex p = Some W →
          isDebugLoclistWriter W = true) →
  Patches (getPatcher Out.2 (DWODebugInfoPatcher DWOId)) =
    Patches (getPatcher R (DWODebugInfoPatcher DWOId)) ++
    ((λ p, LE32Patch (DebugInfoOffset p) (to_uint32 (CUWriterOffset p))) <$> Lists) ∧
  withoutPatchers Out.2 = withoutPatchers R.
Proof.
  intros Out HLists HW. subst Out. unfold makeFinalLocListsSection.
  pose proof (layoutLocLists_skipped (map_to_list (LocListWritersByCU R))) as Hskip.
  destruct (layoutLocLists (map_to_list (LocListWritersByCU R))
              (replicate 16 x00) 16 ∅) as [[Buf Off] M] eqn:HL.
  cbn [snd].
  assert (∀ p, p ∈ Lists → M !! PatchCUIndex p = None) as HM.
  { intros p Hp. specialize (Hskip (PatchCUIndex p) (replicate 16 x00) 16 ∅).
    rewrite HL in Hskip. cbn [snd] in Hskip. rewrite Hskip; [done|].
    intros W HWin. apply elem_of_map_to_list in HWin. by apply (HW p W). }
  split.
  - rewrite (foldl_onPatcher_other MainDebugInfoPatcher (DWODebugInfoPatcher DWOId)
               (λ p P, addLE32Patch P (DebugInfoOffset p)
                         (default 0 (M !! PatchCUIndex p) + CUWriterOffset p)))
      by done.
    rewrite dwo_loc_patches_of. f_equal.
    rewrite (bind_own_key_elem
               (fmap (λ p, LE32Patch (DebugInfoOffset p)
                  (to_uint32 (default 0 (M !! PatchCUIndex p) + CUWriterOffset p))))
               DWOId Lists).
    + apply Forall_fmap_ext_1, Forall_forall. intros p Hp. by rewrite (HM p Hp).
    + apply NoDup_fst_map_to_list.
    + by apply elem_of_map_to_list.
  - rewrite (foldl_onPatcher_frame MainDebugInfoPatcher
               (λ p P, addLE32Patch P (DebugInfoOffset p)
                         (default 0 (M !! PatchCUIndex p) + CUWriterOffset p))).
    apply (dwo_loc_patches_frame M).
Qed.

(** ** The offsets of the line tables *)

Lemma to_uint64_add_l a b : to_uint64 (to_uint64 a + b) = to_uint64 (a + b).
Proof. unfold to_uint64. by rewrite Z.add_mod_idemp_l. Qed.

Lemma foldr_sizes_acc (l : list MCFragment) (a : Z) :
  foldr (λ F s, getContentsSize F + s) a l =
  foldr (λ F s, getContentsSize F + s) 0 l + a.
Proof. induction l as [|F l IH]; cbn [foldr]; [lia|]. rewrite IH. lia. Qed.

Lemma fragmentStart_S Fs k F :
  Fs !! k = Some F →
  fragmentStart Fs (S k) = fragmentStart Fs k + getContentsSize F.
Proof.
  intros HF. unfold fragmentStart. rewrite (take_S_r _ _ _ HF), foldr_app.
  cbn [foldr]. rewrite foldr_sizes_acc. lia.
Qed.

Lemma advanceToFragment_spec Fs Fragment : ∀ Rest k CurOff Off k' CurOff' Off',
  Rest = drop k Fs →
  Off = to_uint64 (fragmentStart Fs k + CurOff) →
  advanceToFragment Rest k Fragment CurOff Off = Ok (k', CurOff', Off') →
  k' = Fragment ∧ (k ≤ k')%nat ∧ (k' < length Fs)%nat ∧
  Off' = to_uint64 (fragmentStart Fs k' + CurOff').
Proof.
  induction Rest as [|F Rest IH]; intros k CurOff Off k' CurOff' Off' HRest HOff;
    cbn [advanceToFragment]; [done|].
  assert (Fs !! k = Some F) as HF.
  { pose proof (lookup_drop Fs k 0) as HL. rewrite <- HRest in HL.
    cbn in HL. by rewrite Nat.add_0_r in HL. }
  case_bool_decide as Hk.
  - intros [= <- <- <-]. split; [done|]. split; [lia|]. split; [|done].
    by apply lookup_lt_Some in HF.
  - assert (advanceToFragment Rest (S k) Fragment 0
              (to_uint64 (Off + (getContentsSize F - CurOff))) =
            Ok (k', CurOff', Off') →
            k' = Fragment ∧ (k ≤ k')%nat ∧ (k' < length Fs)%nat ∧
            Off' = to_uint64 (fragmentStart Fs k' + CurOff')) as Hrec.
    { intros HA. apply IH in HA as (H1 & H2 & H3 & H4).
      - repeat split; [done|lia|done|done].
      - rewrite (drop_S _ _ _ HF) in HRest. by injection HRest.
      - rewrite HOff, to_uint64_add_l, (fragmentStart_S _ _ _ HF).
        f_equal. lia. }
    destruct (getKind F); [exact Hrec|exact Hrec|done].
Qed.

Lemma GetStatementListValue_Ok Unit AttrVal v :
  (getUnitDIE Unit ≫= λ DIE, findAttributeInfo DIE DW_AT_stmt_list) = Some AttrVal →
  GetStatementListValue Unit = Ok v →
  v = statementList AttrVal ∧ isSectionOffsetClass (getForm (V AttrVal)) = true.
Proof.
  unfold GetStatementListValue, statementList, find.
  destruct (getUnitDIE Unit) as [DIE|]; cbn [mbind option_bind]; [|done].
  intros ->. cbn [fmap option_fmap option_map].
  destruct (isSectionOffsetClass (getForm (V AttrVal))); [|done].
  by intros [= <-].
Qed.

Lemma updateLineTableOffsetsCU_spec LT St CU St' :
  lineOffsetKept LT St →
  updateLineTableOffsetsCU LT St CU = Ok St' →
  lineOffsetKept LT St' ∧
  (CurrentFragment St ≤ CurrentFragment St')%nat ∧
  DebugTypesRelocations St' = DebugTypesRelocations St ∧
  match lineTableOf LT CU with
  | None => St' = St
  | Some T =>
      CurrentFragment St' = getFragment T.2 ∧
      (getFragment T.2 < length (LineSection LT))%nat ∧
      DebugInfoRelocations St' =
        DebugInfoRelocations St ++ [mkRelocation (Offset T.1) (labelOffset LT T.2)] ∧
      DebugLineOffsetMap St' =
        <[statementList T.1 := labelOffset LT T.2]> (DebugLineOffsetMap St) ∧
      isSectionOffsetClass (getForm (V T.1)) = true ∧
      HasDebugInfoSection LT = true
  end.
Proof.
  intros HInv. unfold updateLineTableOffsetsCU, lineTableOf.
  destruct (getLabel LT (to_uint32 (getOffset (Info CU)))) as [Label|];
    cbn [mbind option_bind]; [|by intros [= <-]].
  destruct (getUnitDIE CU ≫= λ DIE, findAttributeInfo DIE DW_AT_stmt_list)
    as [AttrVal|] eqn:HAttr; cbn [mbind option_bind]; [|by intros [= <-]].
  destruct (advanceToFragment (drop (CurrentFragment St) (LineSection LT))
              (CurrentFragment St) (getFragment Label) (CurrentOffset St)
              (LineOffset St)) as [[[k' CurOff'] Off']| | |] eqn:HAdv;
    cbn [mbind Result_bind]; try done.
  apply (advanceToFragment_spec (LineSection LT)) in HAdv
    as (Hk' & Hle & Hlt & HOff'); [|done|exact HInv].
  destruct (GetStatementListValue CU) as [v| | |] eqn:HStmt;
    cbn [mbind Result_bind]; try done.
  apply (GetStatementListValue_Ok _ _ _ HAttr) in HStmt as [-> HClass].
  destruct (HasDebugInfoSection LT); [|done].
  intros [= <-]. cbn.
  assert (to_uint64 (Off' + (getSymbolOffset Label - CurOff')) =
          labelOffset LT Label) as HL.
  { unfold labelOffset. rewrite HOff', to_uint64_add_l, <- Hk'. f_equal. lia. }
  rewrite HL. unfold lineOffsetKept. cbn. subst k'.
  repeat split; try done.
Qed.

Lemma updateLineTableOffsets_CUs LT : ∀ CUs St St',
  lineOffsetKept LT St →
  foldlR (updateLineTableOffsetsCU LT) St CUs = Ok St' →
  lineOffsetKept LT St' ∧
  (CurrentFragment St ≤ CurrentFragment St')%nat ∧
  DebugTypesRelocations St' = DebugTypesRelocations St ∧
  DebugInfoRelocations St' =
    DebugInfoRelocations St ++
    ((λ T, mkRelocation (Offset T.1) (labelOffset LT T.2)) <$>
     omap (lineTableOf LT) CUs) ∧
  DebugLineOffsetMap St' =
    foldl (λ M T, <[statementList T.1 := labelOffset LT T.2]> M)
      (DebugLineOffsetMap St) (omap (lineTableOf LT) CUs) ∧
  (omap (lineTableOf LT) CUs ≠ [] → HasDebugInfoSection LT = true) ∧
  (∀ i j T1 T2, (i ≤ j)%nat →
     omap (lineTableOf LT) CUs !! i = Some T1 →
     omap (lineTableOf LT) CUs !! j = Some T2 →
     (CurrentFragment St ≤ getFragment T1.2)%nat ∧
     (getFragment T1.2 ≤ getFragment T2.2)%nat ∧
     (getFragment T2.2 ≤ CurrentFragment St')%nat ∧
     (getFragment T2.2 < length (LineSection LT))%nat).
Proof.
  induction CUs as [|CU CUs IH]; intros St St' HInv; cbn [foldlR].
  - intros [= <-]. cbn. rewrite app_nil_r. repeat split; try done.
  - destruct (updateLineTableOffsetsCU LT St CU) as [St1| | |] eqn:HStep;
      cbn [mbind Result_bind]; try done.
    intros HLoop.
    apply updateLineTableOffsetsCU_spec in HStep
      as (HInv1 & Hle1 & HTy1 & HCU); [|done].
    apply IH in HLoop as (HInv' & Hle' & HTy' & HRel' & HMap' & HSec' & HSorted);
      [|done].
    cbn [omap list_omap].
    destruct (lineTableOf LT CU) as [T|].
    + destruct HCU as (HFrag & HLen & HRel & HMap & _ & HSec).
      split; [done|]. split; [lia|]. split; [congruence|].
      split; [|split; [|split]].
      * rewrite HRel', HRel. cbn [fmap list_fmap]. by rewrite <- app_assoc.
      * rewrite HMap', HMap. done.
      * done.
      * intros [|i] [|j] T1 T2 Hij H1 H2; cbn in H1, H2.
        -- injection H1 as <-. injection H2 as <-. lia.
        -- injection H1 as <-.
           destruct (HSorted j j T2 T2) as (? & ? & ? & ?); [lia|done|done|]. lia.
        -- lia.
        -- destruct (HSorted i j T1 T2) as (? & ? & ? & ?); [lia|done|done|]. lia.
    + subst St1. done.
Qed.

Lemma offset_map_lookup {A : Type} (key val : A → Z) (M : gmap Z Z) (v : Z)
    (l : list A) :
  foldl (λ M T, <[key T := val T]> M) M l !! v =
  match last (filter (λ T, key T = v) l) with
  | Some T => Some (val T)
  | None => M !! v
  end.
Proof.
  induction l as [|T l IH] using rev_ind; [done|].
  rewrite foldl_app, filter_app. cbn [foldl].
  rewrite filter_cons, filter_nil.
  destruct (decide (key T = v)) as [<-|Hne].
  - rewrite last_snoc. by rewrite lookup_insert_eq.
  - rewrite app_nil_r. by rewrite lookup_insert_ne.
Qed.

Lemma updateLineTableOffsets_TUs LT : ∀ TUs St St',
  foldlR (updateLineTableOffsetsTU LT) St TUs = Ok St' →
  DebugInfoRelocations St' = DebugInfoRelocations St ∧
  ∃ Rels,
    DebugTypesRelocations St' = DebugTypesRelocations St ++ Rels ∧
    Forall2 (λ AttrVal Rel,
               RelocationOffset Rel = Offset AttrVal ∧
               isSectionOffsetClass (getForm (V AttrVal)) = true ∧
               DebugLineOffsetMap St !! statementList AttrVal = Some (Addend Rel))
      (omap (λ TU, getUnitDIE TU ≫= λ DIE, findAttributeInfo DIE DW_AT_stmt_list)
         TUs)
      Rels.
Proof.
  induction TUs as [|TU TUs IH]; intros St St'; cbn [foldlR].
  - intros [= <-]. split; [done|]. exists []. rewrite app_nil_r.
    split; [done|]. cbn. constructor.
  - destruct (updateLineTableOffsetsTU LT St TU) as [St1| | |] eqn:HStep;
      cbn [mbind Result_bind]; try done.
    intros HLoop. apply IH in HLoop as (HInfo & Rels & HRels & HAll).
    unfold updateLineTableOffsetsTU in HStep. cbn [omap list_omap].
    destruct (getUnitDIE TU ≫= λ DIE, findAttributeInfo DIE DW_AT_stmt_list)
      as [AttrVal|] eqn:HAttr.
    + destruct (GetStatementListValue TU) as [v| | |] eqn:HStmt;
        cbn [mbind Result_bind] in HStep; try done.
      apply (GetStatementListValue_Ok _ _ _ HAttr) in HStmt as [-> HClass].
      destruct (DebugLineOffsetMap St !! statementList AttrVal)
        as [NewOffset|] eqn:HMap; [|done].
      destruct (HasDebugTypesSection LT); [|done].
      injection HStep as <-. cbn in *. split; [done|].
      exists (mkRelocation (Offset AttrVal) NewOffset :: Rels).
      split; [by rewrite HRels, <- app_assoc|].
      constructor; [done|exact HAll].
    + injection HStep as <-. split; [done|]. by exists Rels.
Qed.

(** X18.  The relocations of debug-info.  When the function returns, every
    compile unit that has a line-table label and a statement-list attribute
    got one relocation, in the order of the units and no other: at the offset
    of the attribute, with the offset of the label in the line section of the
    output as addend (the sizes of the fragments in front of the label's
    fragment plus the offset in it, as a 64-bit value).  The labels of these
    units lie in fragments of the section, in non-decreasing order; the
    debug-info section exists if there is such a unit, and it is marked
    finalized exactly when it exists. *)
Theorem line_table_offsets (LT : LineTables) (Out : LineTableUpdate) :
  let Tables := omap (lineTableOf LT) (compile_units BC) in
  updateLineTableOffsets LT = Ok Out →
  InfoRelocations Out =
    (λ T, mkRelocation (Offset T.1) (labelOffset LT T.2)) <$> Tables ∧
  (∀ i j T1 T2, (i ≤ j)%nat → Tables !! i = Some T1 → Tables !! j = Some T2 →
     (getFragment T1.2 ≤ getFragment T2.2 < length (LineSection LT))%nat) ∧
  (Tables ≠ [] → HasDebugInfoSection LT = true) ∧
  DebugInfoFinalized Out = HasDebugInfoSection LT.
Proof.
  intros Tables. unfold updateLineTableOffsets.
  destruct (bool_decide (getNumTypeUnits LT = 0%nat) || HasDebugTypesSection LT);
    [|done].
  destruct (foldlR (updateLineTableOffsetsCU LT) (mkLineTableState 0 0 0 ∅ [] [])
              (compile_units BC)) as [St| | |] eqn:HCUs;
    cbn [mbind Result_bind]; try done.
  destruct (foldlR (updateLineTableOffsetsTU LT) St (types_section_units LT))
    as [St'| | |] eqn:HTUs; cbn [mbind Result_bind]; try done.
  intros [= <-]. cbn.
  apply updateLineTableOffsets_CUs in HCUs
    as (_ & _ & _ & HRel & _ & HSec & HSorted); [|done].
  apply updateLineTableOffsets_TUs in HTUs as (HInfo & _).
  split; [by rewrite HInfo, HRel|]. split; [|done].
  intros i j T1 T2 Hij H1 H2.
  destruct (HSorted i j T1 T2 Hij H1 H2) as (_ & ? & _ & ?). done.
Qed.

(** X19.  The relocations of debug-types.  When the function returns, the type
    units with a statement-list attribute got one relocation each, in their
    order and no other: at the offset of the attribute, with the new
    line-table offset of the last compile unit (among those with a label and
    a statement list) whose statement list has the same old value; such a
    compile unit exists for each of them. *)
Theorem type_unit_line_table_offsets (LT : LineTables) (Out : LineTableUpdate) :
  let Tables := omap (lineTableOf LT) (compile_units BC) in
  let TypeLists :=
    omap (λ TU, getUnitDIE TU ≫= λ DIE, findAttributeInfo DIE DW_AT_stmt_list)
      (types_section_units LT) in
  updateLineTableOffsets LT = Ok Out →
  Forall2 (λ AttrVal Rel,
             RelocationOffset Rel = Offset AttrVal ∧
             ∃ T, last (filter (λ T, statementList T.1 = statementList AttrVal)
                          Tables) = Some T ∧
                  Addend Rel = labelOffset LT T.2)
    TypeLists (TypesRelocations Out).
Proof.
  intros Tables TypeLists. unfold updateLineTableOffsets.
  destruct (bool_decide (getNumTypeUnits LT = 0%nat) || HasDebugTypesSection LT);
    [|done].
  destruct (foldlR (updateLineTableOffsetsCU LT) (mkLineTableState 0 0 0 ∅ [] [])
              (compile_units BC)) as [St| | |] eqn:HCUs;
    cbn [mbind Result_bind]; try done.
  destruct (foldlR (updateLineTableOffsetsTU LT) St (types_section_units LT))
    as [St'| | |] eqn:HTUs; cbn [mbind Result_bind]; try done.
  intros [= <-]. cbn.
  apply updateLineTableOffsets_CUs in HCUs
    as (_ & _ & HTy & _ & HMap & _); [|done].
  apply updateLineTableOffsets_TUs in HTUs as (_ & Rels & HRels & HAll).
  rewrite HRels, HTy. cbn [app DebugTypesRelocations].
  eapply Forall2_impl; [exact HAll|].
  intros AttrVal Rel (HOff & _ & HLook). split; [done|].
  rewrite HMap in HLook. cbn in HLook.
  rewrite (offset_map_lookup (λ T : AttrInfo * MCSymbol, statementList T.1)
             (λ T, labelOffset LT T.2)) in HLook.
  fold Tables in HLook.
  destruct (last (filter (λ T : AttrInfo * MCSymbol,
                            statementList T.1 = statementList AttrVal) Tables))
    as [T|]; [|done].
  exists T. split; [done|]. by injection HLook.
Qed.

Lemma advanceToFragment_Ok Fs Fragment : ∀ Rest k CurOff Off,
  Rest = drop k Fs →
  (k ≤ Fragment < length Fs)%nat →
  Forall (λ F, getKind F ≠ FT_other) Fs →
  ∃ CurOff' Off',
    advanceToFragment Rest k Fragment CurOff Off = Ok (Fragment, CurOff', Off').
Proof.
  intros Rest k CurOff Off HRest Hk HKinds. revert k CurOff Off HRest Hk.
  induction Rest as [|F Rest IH]; intros k CurOff Off HRest Hk.
  - apply (f_equal length) in HRest. rewrite length_drop in HRest. cbn in HRest. lia.
  - assert (Fs !! k = Some F) as HF.
    { pose proof (lookup_drop Fs k 0) as HL. rewrite <- HRest in HL.
      cbn in HL. by rewrite Nat.add_0_r in HL. }
    cbn [advanceToFragment]. case_bool_decide as Heq.
    + subst k. by eexists _, _.
    + assert (getKind F ≠ FT_other) as HKind.
      { by apply (Forall_lookup_1 _ _ _ _ HKinds HF). }
      assert (∃ CurOff' Off',
                advanceToFragment Rest (S k) Fragment 0
                  (to_uint64 (Off + (getContentsSize F - CurOff))) =
                Ok (Fragment, CurOff', Off')) as Hrec.
      { apply IH; [|lia].
        rewrite (drop_S _ _ _ HF) in HRest. by injection HRest. }
      destruct (getKind F); [exact Hrec|exact Hrec|done].
Qed.

Lemma GetStatementListValue_total Unit AttrVal :
  (getUnitDIE Unit ≫= λ DIE, findAttributeInfo DIE DW_AT_stmt_list) = Some AttrVal →
  isSectionOffsetClass (getForm (V AttrVal)) = true →
  GetStatementListValue Unit = Ok (statementList AttrVal).
Proof.
  unfold GetStatementListValue, statementList, find.
  destruct (getUnitDIE Unit) as [DIE|]; cbn [mbind option_bind]; [|done].
  intros -> HClass. cbn [fmap option_fmap option_map]. by rewrite HClass.
Qed.

Lemma updateLineTableOffsetsCU_Ok LT St CU :
  Forall (λ F, getKind F ≠ FT_other) (LineSection LT) →
  match lineTableOf LT CU with
  | None => True
  | Some T =>
      (CurrentFragment St ≤ getFragment T.2 < length (LineSection LT))%nat ∧
      isSectionOffsetClass (getForm (V T.1)) = true ∧
      HasDebugInfoSection LT = true
  end →
  ∃ St', updateLineTableOffsetsCU LT St CU = Ok St' ∧
         CurrentFragment St' =
           match lineTableOf LT CU with
           | None => CurrentFragment St
           | Some T => getFragment T.2
           end.
Proof.
  intros HKinds. unfold updateLineTableOffsetsCU, lineTableOf.
  destruct (getLabel LT (to_uint32 (getOffset (Info CU)))) as [Label|];
    cbn [mbind option_bind]; [|by eexists].
  destruct (getUnitDIE CU ≫= λ DIE, findAttributeInfo DIE DW_AT_stmt_list)
    as [AttrVal|] eqn:HAttr; cbn [mbind option_bind]; [|by eexists].
  cbn [fst snd]. intros (HFrag & HClass & HSec).
  destruct (advanceToFragment_Ok (LineSection LT) (getFragment Label)
              (drop (CurrentFragment St) (LineSection LT)) (CurrentFragment St)
              (CurrentOffset St) (LineOffset St) eq_refl HFrag HKinds)
    as (CurOff' & Off' & ->).
  cbn [mbind Result_bind].
  rewrite (GetStatementListValue_total _ _ HAttr HClass), HSec.
  cbn [mbind Result_bind]. by eexists.
Qed.

Lemma updateLineTableOffsets_CUs_Ok LT : ∀ CUs St,
  Forall (λ F, getKind F ≠ FT_other) (LineSection LT) →
  (omap (lineTableOf LT) CUs ≠ [] → HasDebugInfoSection LT = true) →
  Forall (λ T, isSectionOffsetClass (getForm (V T.1)) = true)
    (omap (lineTableOf LT) CUs) →
  (∀ i j T1 T2, (i ≤ j)%nat →
     omap (lineTableOf LT) CUs !! i = Some T1 →
     omap (lineTableOf LT) CUs !! j = Some T2 →
     (CurrentFragment St ≤ getFragment T1.2)%nat ∧
     (getFragment T1.2 ≤ getFragment T2.2 < length (LineSection LT))%nat) →
  ∃ St', foldlR (updateLineTableOffsetsCU LT) St CUs = Ok St'.
Proof.
  induction CUs as [|CU CUs IH]; intros St HKinds HSec HClass HSorted;
    cbn [foldlR]; [by eexists|].
  cbn [omap list_omap] in HSec, HClass, HSorted.
  destruct (updateLineTableOffsetsCU_Ok LT St CU HKinds) as (St1 & -> & HCur).
  { destruct (lineTableOf LT CU) as [T|]; [|done].
    apply Forall_cons in HClass as [HT _].
    destruct (HSorted 0%nat 0%nat T T) as (? & ? & ?); [lia|done|done|].
    split; [lia|]. split; [done|]. by apply HSec. }
  cbn [mbind Result_bind]. apply IH; [done|..].
  - intros HNe. apply HSec. destruct (lineTableOf LT CU); [done|exact HNe].
  - destruct (lineTableOf LT CU); [|done]. by apply Forall_cons in HClass as [_ ?].
  - intros i j T1 T2 Hij H1 H2. rewrite HCur.
    destruct (lineTableOf LT CU) as [T|].
    + destruct (HSorted (S i) (S j) T1 T2) as (_ & ?); [lia|done|done|].
      destruct (HSorted 0%nat (S i) T T1) as (_ & ? & _); [lia|done|done|].
      split; [lia|done].
    + by apply (HSorted i j).
Qed.

Lemma updateLineTableOffsetsTU_Ok LT St TU :
  match getUnitDIE TU ≫= λ DIE, findAttributeInfo DIE DW_AT_stmt_list with
  | None => True
  | Some AttrVal =>
      HasDebugTypesSection LT = true ∧
      isSectionOffsetClass (getForm (V AttrVal)) = true ∧
      is_Some (DebugLineOffsetMap St !! statementList AttrVal)
  end →
  ∃ St', updateLineTableOffsetsTU LT St TU = Ok St' ∧
         DebugLineOffsetMap St' = DebugLineOffsetMap St.
Proof.
  unfold updateLineTableOffsetsTU.
  destruct (getUnitDIE TU ≫= λ DIE, findAttributeInfo DIE DW_AT_stmt_list)
    as [AttrVal|] eqn:HAttr; [|by eexists].
  intros (HSec & HClass & [NewOffset HMap]).
  rewrite (GetStatementListValue_total _ _ HAttr HClass).
  cbn [mbind Result_bind]. rewrite HMap, HSec. by eexists.
Qed.

Lemma updateLineTableOffsets_TUs_Ok LT : ∀ TUs St,
  (omap (λ TU, getUnitDIE TU ≫= λ DIE, findAttributeInfo DIE DW_AT_stmt_list) TUs
     ≠ [] → HasDebugTypesSection LT = true) →
  Forall (λ AttrVal,
            isSectionOffsetClass (getForm (V AttrVal)) = true ∧
            is_Some (DebugLineOffsetMap St !! statementList AttrVal))
    (omap (λ TU, getUnitDIE TU ≫= λ DIE, findAttributeInfo DIE DW_AT_stmt_list) TUs) →
  ∃ St', foldlR (updateLineTableOffsetsTU LT) St TUs = Ok St'.
Proof.
  induction TUs as [|TU TUs IH]; intros St HSec HAll; cbn [foldlR]; [by eexists|].
  cbn [omap list_omap] in HSec, HAll.
  destruct (updateLineTableOffsetsTU_Ok LT St TU) as (St1 & -> & HMap1).
  { destruct (getUnitDIE TU ≫= λ DIE, findAttributeInfo DIE DW_AT_stmt_list);
      [|done].
    apply Forall_cons in HAll as [[? ?] _]. split; [by apply HSec|done]. }
  cbn [mbind Result_bind]. apply IH.
  - intros HNe. apply HSec.
    destruct (getUnitDIE TU ≫= λ DIE, findAttributeInfo DIE DW_AT_stmt_list);
      [done|exact HNe].
  - rewrite HMap1.
    destruct (getUnitDIE TU ≫= λ DIE, findAttributeInfo DIE DW_AT_stmt_list);
      [|done].
    by apply Forall_cons in HAll as [_ ?].
Qed.

(** X20.  When the function returns.  Let the units with a line table be the
    compile units that have a label and a statement-list attribute.  The
    function returns if: the debug-types section exists or there is no type
    unit; the debug-info section exists or no unit has a line table; the
    line section holds only data and line-address fragments; the statement
    lists are of the section-offset class; the labels of the units with a
    line table lie in fragments of the section, in the order of the units;
    and every type unit with a statement list shares its value with a unit
    that has a line table. *)
Theorem line_tables_in_order_are_accepted (LT : LineTables) :
  let Tables := omap (lineTableOf LT) (compile_units BC) in
  let TypeLists :=
    omap (λ TU, getUnitDIE TU ≫= λ DIE, findAttributeInfo DIE DW_AT_stmt_list)
      (types_section_units LT) in
  (getNumTypeUnits LT = 0%nat ∨ HasDebugTypesSection LT = true) →
  (TypeLists ≠ [] → HasDebugTypesSection LT = true) →
  (Tables ≠ [] → HasDebugInfoSection LT = true) →
  Forall (λ F, getKind F ≠ FT_other) (LineSection LT) →
  Forall (λ T, isSectionOffsetClass (getForm (V T.1)) = true) Tables →
  (∀ i j T1 T2, (i ≤ j)%nat → Tables !! i = Some T1 → Tables !! j = Some T2 →
     (getFragment T1.2 ≤ getFragment T2.2 < length (LineSection LT))%nat) →
  Forall (λ AttrVal,
            isSectionOffsetClass (getForm (V AttrVal)) = true ∧
            ∃ T, T ∈ Tables ∧ statementList T.1 = statementList AttrVal)
    TypeLists →
  ∃ Out, updateLineTableOffsets LT = Ok Out.
Proof.
  intros Tables TypeLists HTypes HTySec HSec HKinds HClass HSorted HTUs.
  unfold updateLineTableOffsets.
  assert (bool_decide (getNumTypeUnits LT = 0%nat) || HasDebugTypesSection LT = true)
    as ->.
  { destruct HTypes as [->| ->]; [done|]. by rewrite orb_true_r. }
  destruct (updateLineTableOffsets_CUs_Ok LT (compile_units BC)
              (mkLineTableState 0 0 0 ∅ [] []) HKinds HSec HClass) as [St HSt].
  { intros i j T1 T2 Hij H1 H2. cbn. split; [lia|]. by apply (HSorted i j). }
  rewrite HSt. cbn [mbind Result_bind].
  apply updateLineTableOffsets_CUs in HSt as (_ & _ & _ & _ & HMap & _); [|done].
  destruct (updateLineTableOffsets_TUs_Ok LT (types_section_units LT) St HTySec)
    as [St' ->]; [|by eexists].
  eapply Forall_impl; [exact HTUs|].
  intros AttrVal (HC & T & HT & HKey). split; [done|].
  rewrite HMap.
  rewrite (offset_map_lookup (λ T : AttrInfo * MCSymbol, statementList T.1)
             (λ T, labelOffset LT T.2)).
  fold Tables.
  destruct (last (filter (λ T : AttrInfo * MCSymbol,
                            statementList T.1 = statementList AttrVal) Tables))
    as [T'|] eqn:HLast; [done|].
  apply last_None in HLast.
  assert (T ∈ filter (λ T : AttrInfo * MCSymbol,
                        statementList T.1 = statementList AttrVal) Tables) as HIn.
  { by apply list_elem_of_filter. }
  rewrite HLast in HIn. by apply elem_of_nil in HIn.
Qed.

End Rewriter.

(** * The statements at concrete inputs *)

(** The size invariant on an index with one unit whose single range becomes
    two. *)
Lemma gdb_index_example :
  ∃ New : list byte,
    updateGdbIndexSection (Some exampleGdbIndex) [0]
      [(0, [mkRange 4096 4100; mkRange 8192 8200])] = GdbIndexRegistered New 88 ∧
    Z.of_nat (length New) = 88 ∧
    drop 80 New = drop 60 exampleGdbIndex ∧
    parseGdbIndexHeader New = Ok (mkGdbIndexHeader 7 24 40 40 80 84) ∧
    read64le New 60 = Ok 8192 ∧ read64le New 68 = Ok 8200.
Proof.
  destruct (gdb_index_size_invariant exampleGdbIndex [0]
              [(0, [mkRange 4096 4100; mkRange 8192 8200])]
              (mkGdbIndexHeader 7 24 40 40 60 64))
    as (New & M & HU & HL & _ & _ & HD & _ & HP & HE & _).
  - reflexivity.
  - left. reflexivity.
  - cbn. lia.
  - cbn. lia.
  - reflexivity.
  - intros [|i] o Ho; [|destruct i; discriminate Ho].
    injection Ho as <-. reflexivity.
  - vm_compute. discriminate.
  - vm_compute. reflexivity.
  - vm_compute. reflexivity.
  - exists New. split; [exact HU|]. split; [exact HL|]. split; [exact HD|].
    split; [exact HP|].
    destruct (HE 1%nat 0 (mkRange 8192 8200) eq_refl) as (HLow & HHigh & _).
    split; [exact HLow|exact HHigh].
Defined.

(** Two equal lists and two unequal lists in one scope, with another list
    added in between. *)
Lemma cached_ranges_example :
  let A := [mkRange 0 4] in
  let B := [mkRange 4 8] in
  let First := addRangesCached (mkRangesWriter []) A ∅ in
  let W' := (addRanges First.1.2 [mkRange 8 12]).2 in
  ((addRangesCached W' A First.2).1.1 = First.1.1 ∧
   (addRangesCached W' A First.2).1.2 = W') ∧
  (addRangesCached W' B First.2).1.1 ≠ First.1.1.
Proof.
  intros A B First W'. split.
  - refine (proj1 (cached_ranges_offsets (mkRangesWriter []) (mkRangesWriter []) W'
                     ∅ First.2 A A (rtc_refl _ _) _) eq_refl).
    apply rtc_once. exact (scope_addRanges First.1.2 First.2 [mkRange 8 12]).
  - refine (proj2 (cached_ranges_offsets (mkRangesWriter []) (mkRangesWriter []) W'
                     ∅ First.2 A B (rtc_refl _ _) _) _).
    + apply rtc_once. exact (scope_addRanges First.1.2 First.2 [mkRange 8 12]).
    + discriminate.
Defined.

Lemma exampleSubprogram_flushable At Low Size :
  flushable (exampleDie (exampleSubprogram At Low Size)).
Proof.
  split; [by eexists|]. split; [by eexists|]. intros Hc. discriminate Hc.
Qed.

(** The flush of one deferred subprogram: its low-pc receives the low
    address of the range and its 4-byte high-pc the length. *)
Lemma flush_example :
  ∃ R' : DWARFRewriter,
    flushPendingRanges exampleIndexFromAddress MainDebugInfoPatcher
      examplePendingRewriter = Ok R' ∧
    PendingRanges R' = ∅ ∧
    LE64Patch 12 8192 ∈ Patches (DebugInfoPatcher R') ∧
    LE32Patch 20 32 ∈ Patches (DebugInfoPatcher R').
Proof.
  destruct (flushPendingRanges_patches_low_high exampleIndexFromAddress
              MainDebugInfoPatcher examplePendingRewriter)
    as (R' & HF & HE & Hall).
  - intros a Pending DIE Range Ha Hin.
    unfold examplePendingRewriter in Ha. cbn [PendingRanges set_PendingRanges] in Ha.
    apply lookup_singleton_Some in Ha as [_ <-].
    apply list_elem_of_singleton in Hin. injection Hin as -> _.
    apply exampleSubprogram_flushable.
  - exists R'. split; [exact HF|]. split; [exact HE|].
    destruct (Hall 1 _ (exampleDie (exampleSubprogram 11 4096 16)) (mkRange 8192 8224)
                eq_refl) as (L & H & HL & HH & Hlow & Hhigh).
    + apply list_elem_of_singleton. reflexivity.
    + injection HL as <-. injection HH as <-. split; [exact Hlow|exact Hhigh].
Defined.

(** A subprogram without output ranges is deferred with the range (0,0),
    and the flush writes zeros into its two fields. *)
Lemma deferred_empty_example :
  let DIE := exampleDie (exampleSubprogram 11 4096 16) in
  ∃ R' R'' : DWARFRewriter,
    delayConversion exampleUnitInfo DIE [] MainDebugInfoPatcher MainAbbrevWriter
      emptyRewriter = Ok R' ∧
    PendingRanges R' = {[ 1 := [(DIE, mkRange 0 0)] ]} ∧
    flushPendingRanges exampleIndexFromAddress MainDebugInfoPatcher R' = Ok R'' ∧
    LE64Patch 12 0 ∈ Patches (DebugInfoPatcher R'') ∧
    LE32Patch 20 0 ∈ Patches (DebugInfoPatcher R'').
Proof.
  intros DIE.
  destruct (deferred_entry_has_one_range exampleIndexFromAddress exampleUnitInfo
              (exampleSubprogram 11 4096 16) exampleSubprogramAbbrev []
              MainDebugInfoPatcher MainAbbrevWriter emptyRewriter)
    as (R' & Range & HD & HP & HR & _ & Hflush).
  - reflexivity.
  - cbn. lia.
  - apply not_elem_of_empty.
  - apply exampleSubprogram_flushable.
  - intros a Pending DIE' Range' Ha. discriminate Ha.
  - destruct (Hflush MainDebugInfoPatcher)
      as (R'' & L & H & HF & HL & HH & Hlow & Hhigh & _).
    exists R', R''. split; [exact HD|]. subst Range.
    split; [exact HP|]. split; [exact HF|].
    injection HL as <-. injection HH as <-. split; [exact Hlow|exact Hhigh].
Defined.

(** Two subprograms of one declaration, the first with one range and the
    second with three: the declaration is converted once, and both entries
    point into the ranges section. *)
Lemma shared_declaration_example :
  let DIE1 := exampleDie (exampleSubprogram 11 4096 16) in
  let DIE2 := exampleDie (exampleSubprogram 24 4112 16) in
  let Ranges2 := [mkRange 8224 8232; mkRange 8300 8304; mkRange 8400 8404] in
  ∃ R1 R2 : DWARFRewriter,
    delayConversion exampleUnitInfo DIE1 [mkRange 8192 8224] MainDebugInfoPatcher
      MainAbbrevWriter emptyRewriter = Ok R1 ∧
    delayConversion exampleUnitInfo DIE2 Ranges2 MainDebugInfoPatcher
      MainAbbrevWriter R1 = Ok R2 ∧
    conversionsOf 1 (AbbrevWriter R2) = 1%nat ∧
    AddedRanges (RangesSectionWriter R2) = [[mkRange 8192 8224]; Ranges2] ∧
    LE32Patch 20 16 ∈ Patches (DebugInfoPatcher R2) ∧
    LE32Patch 33 48 ∈ Patches (DebugInfoPatcher R2).
Proof.
  intros DIE1 DIE2 Ranges2.
  destruct (shared_declaration_converted_once exampleIndexFromAddress exampleUnitInfo
              (exampleSubprogram 11 4096 16) (exampleSubprogram 24 4112 16)
              exampleSubprogramAbbrev (mkRange 8192 8224) Ranges2
              MainDebugInfoPatcher MainAbbrevWriter emptyRewriter
              (mkAttributeSpec DW_AT_low_pc DW_FORM_addr)
              (mkAttributeSpec DW_AT_high_pc DW_FORM_data4)
              (mkAttrInfo (mkFormValue DW_FORM_addr 4096 (Some 4096) []) 12)
              (mkAttrInfo (mkFormValue DW_FORM_data4 16 None []) 20)
              (mkAttrInfo (mkFormValue DW_FORM_addr 4112 (Some 4112) []) 25)
              (mkAttrInfo (mkFormValue DW_FORM_data4 16 None []) 33)
              8 8)
    as [(R1 & R2 & H1 & H2 & _ & _ & _ & _ & _ & _ & HA & _ & HC & HP1 & HP2 & _) _].
  1-11: reflexivity.
  - intros Hc. discriminate Hc.
  - apply not_elem_of_empty.
  - reflexivity.
  - cbn. lia.
  - exists R1, R2. split; [exact H1|]. split; [exact H2|].
    split; [exact HC|]. split; [exact HA|]. split; [exact HP1|exact HP2].
Defined.



(** The deferred entry of the second of two units: its offset is the 16
    bytes of the empty list, the 8 bytes of the unit in front, and the local
    offset 4. *)
Lemma loc_list_offset_example :
  let Out := makeFinalLocListsSection MainDebugInfoPatcher exampleLocRewriter in
  LE32Patch 100 28 ∈ Patches (DebugInfoPatcher Out.2) ∧
  take 16 Out.1 = replicate 16 x00 ∧
  take 24 (drop 24 Out.1) = replicate 24 x01.
Proof.
  exact (loc_list_offset_resolution exampleLocRewriter
           [(1, mkLocWriter false (replicate 8 x02))] [] 0
           (mkLocWriter false (replicate 24 x01)) (mkLocListPatch 100 0 4)
           eq_refl eq_refl (list_elem_of_here _ _) eq_refl).
Defined.

(** The same run against the words of the specification: the sum of the
    preceding units' buffer sizes and the local offset is 12 for the entry
    of the second unit and 0 for the entry of the first; the offsets
    patched in are 28 and 16. *)
Lemma loc_list_offset_misses_empty_list :
  map_to_list (LocListWritersByCU exampleLocRewriter) =
    [(1, mkLocWriter false (replicate 8 x02));
     (0, mkLocWriter false (replicate 24 x01))] ∧
  specResolvedOffset [(1, mkLocWriter false (replicate 8 x02))]
    (mkLocListPatch 100 0 4) = 12 ∧
  specResolvedOffset [] (mkLocListPatch 50 1 0) = 0 ∧
  Patches (DebugInfoPatcher
             (makeFinalLocListsSection MainDebugInfoPatcher exampleLocRewriter).2) =
    [LE32Patch 100 28; LE32Patch 50 16].
Proof. repeat split. Qed.



(** A skeleton unit whose split unit is not loaded: the emission passes
    leave their state as it is. *)
Lemma unloaded_split_unit_example :
  let Unit := exampleSkeleton 9 "c.dwo" in
  let Out := mkDWPOutput (mkOutputFile "a.out.dwp" [] false) ∅ [] [] false in
  writeDWOFile exampleUnloadedContext exampleOptions exampleFinalizeAbbrev Unit
    ([], mkDWONames ∅ ∅, exampleStartRewriter) =
    Ok ([], mkDWONames ∅ ∅, exampleStartRewriter) ∧
  writeDWPUnit exampleUnloadedContext exampleFinalizeAbbrev exampleDuplicateError
    Unit Out exampleStartRewriter = Ok (false, Out, exampleStartRewriter).
Proof.
  intros Unit Out.
  destruct (unloaded_split_unit_is_passed_over exampleUnloadedContext exampleOptions
              exampleSerializeLocList exampleFinalizeAbbrev exampleDuplicateError
              Unit 9 eq_refl eq_refl) as (_ & HFile & HUnit & _).
  split; [apply HFile|apply HUnit].
Defined.

(** The same unit in the rewrite driver: its root entry is patched with the
    offset of its ranges, and nothing is printed. *)
Lemma unloaded_split_unit_is_patched :
  getDWOId (Info (exampleSkeleton 9 "c.dwo")) = Some 9 ∧
  getDWOCU exampleUnloadedContext 9 = None ∧
  ∃ R' : DWARFRewriter,
    processUnitDIE exampleUnloadedContext exampleOptions exampleSerializeLocList 0
      (exampleSkeleton 9 "c.dwo") (mkDWONames ∅ ∅) exampleStartRewriter =
      Ok (mkDWONames ∅ ∅, R') ∧
    Patches (DebugInfoPatcher R') = [LE32Patch 12 16] ∧
    errs R' = [] ∧
    writeDWOFiles exampleUnloadedContext exampleOptions exampleFinalizeAbbrev
      (mkDWONames ∅ ∅) R' = Ok ([], mkDWONames ∅ ∅, R').
Proof.
  split; [reflexivity|]. split; [reflexivity|].
  eexists. split; [reflexivity|]. split; [reflexivity|]. split; reflexivity.
Qed.



(** * The further properties at concrete inputs *)

(** The example index against a context whose only unit is at offset 4. *)
Lemma gdb_index_exit_example :
  ∃ msg, updateGdbIndexSection (Some exampleGdbIndex) [4] [] =
           GdbIndexStopped (ExitWith msg).
Proof.
  apply (proj2 (gdb_index_exit_iff exampleGdbIndex [4] []
                  (mkGdbIndexHeader 7 24 40 40 60 64) eq_refl
                  ltac:(vm_compute; discriminate))).
  right. right. exists 0%nat, 4. split; [reflexivity|].
  vm_compute. discriminate.
Defined.

(** The name of the split unit 7, asked for a second time without the
    table of name counters. *)
Lemma getDWOName_stable_example :
  getDWOName exampleOptions (exampleSkeleton 7 "a") false
    (mkDWONames ∅ {[ 7 := "a.dwo" ]}) =
  Ok ("a.dwo", mkDWONames ∅ {[ 7 := "a.dwo" ]}).
Proof.
  exact (proj1 (getDWOName_stable exampleOptions (exampleSkeleton 7 "a") true false
                  (mkDWONames ∅ ∅) (mkDWONames ∅ {[ 7 := "a.dwo" ]}) "a.dwo"
                  eq_refl)).
Defined.

(** Two split units that are both called [a], with an output directory. *)
Lemma getDWOName_same_dwo_name_example :
  let Names1 := mkDWONames {[ "a" := 1 ]} {[ 7 := "a0.dwo" ]} in
  let Names2 := mkDWONames {[ "a" := 2 ]} {[ 9 := "a1.dwo"; 7 := "a0.dwo" ]} in
  getDWOName exampleOutputPathOptions (exampleSkeleton 7 "a") true
    (mkDWONames ∅ ∅) = Ok ("a0.dwo", Names1) ∧
  getDWOName exampleOutputPathOptions (exampleSkeleton 9 "a") true Names1 =
    Ok ("a1.dwo", Names2) ∧
  "a0.dwo" ≠ "a1.dwo".
Proof.
  intros Names1 Names2.
  assert (getDWOName exampleOutputPathOptions (exampleSkeleton 7 "a") true
            (mkDWONames ∅ ∅) = Ok ("a0.dwo", Names1)) as H1
    by (vm_compute; reflexivity).
  assert (getDWOName exampleOutputPathOptions (exampleSkeleton 9 "a") true Names1 =
            Ok ("a1.dwo", Names2)) as H2
    by (vm_compute; reflexivity).
  split; [exact H1|]. split; [exact H2|].
  apply (proj1 (getDWOName_same_dwo_name exampleOutputPathOptions
                  (exampleSkeleton 7 "a") (exampleSkeleton 9 "a") 7 9
                  (mkDWONames ∅ ∅) Names1 Names2 "a0.dwo" "a1.dwo"
                  eq_refl eq_refl ltac:(discriminate) eq_refl eq_refl eq_refl H1 H2)).
  discriminate.
Defined.

(** The section of the information entries under its two spellings. *)
Lemma getSectionName_example :
  getSectionName (mkSectionRef "__debug_info.dwo" []) =
  getSectionName (mkSectionRef "debug_info.dwo" []).
Proof.
  apply (getSectionName_strip_prefix "__" "debug_info.dwo" [] []).
  repeat (apply Forall_cons; split; [right; reflexivity|]). by apply Forall_nil.
Defined.

(** The example list in the example unit. *)
Lemma collectInputLL_example :
  collectInputLL (exampleUnit []) exampleLocationList 4096 [] =
  Ok [mkLocationEntry 4096 4100 [x50]; mkLocationEntry 8208 8224 [x50]].
Proof.
  apply (collectInputLL_base_address (exampleUnit []) [exampleOffsetPair 0 4]
           [exampleOffsetPair 16 32] [exampleOffsetPair 64 128]
           (mkDWARFLocationEntry DW_LLE_base_address 8192 0 true [])
           (mkDWARFLocationEntry DW_LLE_end_of_list 0 0 true []) 4096).
  - reflexivity.
  - repeat constructor.
  - reflexivity.
  - reflexivity.
  - reflexivity.
Defined.

(** The types section of a split unit that is not part of a package. *)
Lemma updateDebugData_example :
  let Section := mkSectionRef ".debug_types.dwo" [x01; x02] in
  set_errs (errs emptyRewriter) emptyRewriter = emptyRewriter ∧
  errs emptyRewriter `prefix_of` errs emptyRewriter ∧
  (is_Some (Some [x01; x02]) ↔ is_Some (KnownSections (getSectionName Section))).
Proof.
  intros Section.
  exact (updateDebugData_frame exampleFinalizeAbbrev Section None 7
           emptyRewriter emptyRewriter (Some [x01; x02]) eq_refl).
Defined.

(** A line section of four bytes in a package that gives the unit the
    first byte of each section. *)
Lemma debug_line_section_example :
  updateDebugData exampleFinalizeAbbrev
    (mkSectionRef ".debug_line.dwo" [x01; x02; x03; x04])
    (Some (λ _, (0, 1))) 7 emptyRewriter =
  Ok (Some [x01; x02; x03; x04],
      warn "BOLT-WARNING: Unsupported Debug section: debug_line.dwo" emptyRewriter).
Proof.
  exact (debug_line_section_is_not_sliced exampleFinalizeAbbrev
           (mkSectionRef ".debug_line.dwo" [x01; x02; x03; x04])
           (Some (λ _, (0, 1))) 7 emptyRewriter eq_refl).
Defined.

(** Two skeleton units, one split unit loaded: one file. *)
Lemma writeDWOFiles_example :
  let Files := [mkOutputFile "/build/a.dwo" [] true] in
  writeDWOFiles exampleLoadedContext exampleOptions exampleFinalizeAbbrev
    (mkDWONames ∅ ∅) emptyRewriter =
    Ok (Files, mkDWONames ∅ {[ 7 := "a.dwo" ]}, emptyRewriter) ∧
  length Files =
    length (omap (loadedDWOId exampleLoadedContext)
              (compile_units exampleLoadedContext)) ∧
  Forall (λ File, Kept File = true) Files.
Proof.
  intros Files.
  assert (writeDWOFiles exampleLoadedContext exampleOptions exampleFinalizeAbbrev
            (mkDWONames ∅ ∅) emptyRewriter =
          Ok (Files, mkDWONames ∅ {[ 7 := "a.dwo" ]}, emptyRewriter)) as HW
    by (vm_compute; reflexivity).
  split; [exact HW|].
  exact (writeDWOFiles_one_file_per_loaded_unit exampleLoadedContext exampleOptions
           exampleFinalizeAbbrev _ _ _ _ _ HW).
Defined.

(** The package of the same two units. *)
Lemma writeDWP_index_example :
  let Out :=
    mkDWPOutput (mkOutputFile "a.out.dwp" [] true) {[ 1 := 0 ]} []
      [(7, mkUnitIndexEntry "a" "a" ∅)] true in
  writeDWP exampleLoadedContext exampleOptions exampleFinalizeAbbrev
    exampleDuplicateError emptyRewriter = Ok (Out, emptyRewriter) ∧
  NoDup (IndexEntries Out).*1 ∧
  (IndexEntries Out).*1 =
    omap (loadedDWOId exampleLoadedContext) (compile_units exampleLoadedContext).
Proof.
  intros Out.
  assert (writeDWP exampleLoadedContext exampleOptions exampleFinalizeAbbrev
            exampleDuplicateError emptyRewriter = Ok (Out, emptyRewriter)) as HW
    by (vm_compute; reflexivity).
  split; [exact HW|].
  destruct (writeDWP_index_unique exampleLoadedContext exampleOptions
              exampleFinalizeAbbrev exampleDuplicateError _ _ _ HW) as [Hnd [_ Hkeys]].
  split; [exact Hnd|exact Hkeys].
Defined.

(** The skeleton unit without loaded split unit, from a rewriter that
    already holds a patch. *)
Lemma processUnits_extends_example :
  let R := onPatcher MainDebugInfoPatcher (λ P, addLE32Patch P 4 1)
             exampleStartRewriter in
  ∃ R' : DWARFRewriter,
    processUnits exampleUnloadedContext exampleOptions exampleIndexFromAddress
      exampleSerializeLocList (mkDWONames ∅ ∅) R = Ok (mkDWONames ∅ ∅, R') ∧
    Patches (DebugInfoPatcher R') = [LE32Patch 4 1; LE32Patch 12 16] ∧
    extends R R'.
Proof.
  intros R.
  assert (∃ R', processUnits exampleUnloadedContext exampleOptions
                  exampleIndexFromAddress exampleSerializeLocList
                  (mkDWONames ∅ ∅) R = Ok (mkDWONames ∅ ∅, R') ∧
                Patches (DebugInfoPatcher R') = [LE32Patch 4 1; LE32Patch 12 16])
    as (R' & HR' & HP) by (eexists; split; vm_compute; reflexivity).
  exists R'. split; [exact HR'|]. split; [exact HP|].
  exact (processUnits_extends exampleUnloadedContext exampleOptions
           exampleIndexFromAddress exampleSerializeLocList _ _ _ _ HR').
Defined.

(** Two skeleton units with the DWO ID 7: the first is processed, the
    second stops the driver. *)
Lemma repeated_dwo_id_example :
  ∃ (Names1 : DWONames) (R1 : DWARFRewriter),
    processUnitDIE exampleRepeatedContext exampleOptions exampleSerializeLocList 0
      (exampleNamedSkeleton 7 "a") (mkDWONames ∅ ∅) exampleStartRewriter =
      Ok (Names1, R1) ∧
    processUnitDIE exampleRepeatedContext exampleOptions exampleSerializeLocList 0
      (exampleNamedSkeleton 7 "b") Names1 R1 =
      AssertFail "LocList writer for DWO unit already exists.".
Proof.
  assert (∃ Names1 R1,
            processUnitDIE exampleRepeatedContext exampleOptions
              exampleSerializeLocList 0 (exampleNamedSkeleton 7 "a")
              (mkDWONames ∅ ∅) exampleStartRewriter = Ok (Names1, R1))
    as (Names1 & R1 & H1) by (eexists _, _; vm_compute; reflexivity).
  exists Names1, R1. split; [exact H1|].
  assert (∃ Names3 R3,
            updateDWONameCompDir exampleOptions (exampleNamedSkeleton 7 "b")
              Names1 R1 = Ok (Names3, R3)) as (Names3 & R3 & H3).
  { vm_compute in H1. injection H1 as <- <-. eexists _, _. vm_compute. reflexivity. }
  exact (proj2 (repeated_dwo_id_asserts exampleRepeatedContext exampleOptions
                  exampleSerializeLocList 0 0 (exampleNamedSkeleton 7 "a")
                  (exampleNamedSkeleton 7 "b") exampleSplitUnit 7
                  (mkDWONames ∅ ∅) Names1 Names1 exampleStartRewriter R1 R1
                  eq_refl eq_refl eq_refl H1 (reflexivity R1)) Names3 R3 H3).
Defined.

(** The example list where no address belongs to a function. *)
Lemma location_list_without_function_example :
  updateLocationList exampleNoFunctionContext exampleSerializeLocList 0
    exampleLocationUnit exampleLocationAttr MainDebugInfoPatcher
    exampleStartRewriter =
  Ok (onPatcher MainDebugInfoPatcher (λ P, addLE32Patch P 30 0) exampleStartRewriter).
Proof.
  apply (location_list_without_function exampleNoFunctionContext
           exampleSerializeLocList 0 exampleLocationUnit exampleLocationAttr
           MainDebugInfoPatcher exampleStartRewriter exampleLocationList false
           [mkLocationEntry 4096 4100 [x50]; mkLocationEntry 8208 8224 [x50]]).
  - reflexivity.
  - reflexivity.
  - right. right. exists (mkLocationEntry 4096 4100 [x50]). split; reflexivity.
Defined.

(** The example list where every address belongs to a function: the entry
    is deferred. *)
Lemma location_list_deferred_example :
  ∃ R' : DWARFRewriter,
    updateLocationList exampleKeptContext exampleSerializeLocList 0
      exampleLocationUnit exampleLocationAttr MainDebugInfoPatcher
      exampleStartRewriter = Ok R' ∧
    LocListDebugInfoPatches R' = [mkLocListPatch 30 0 0] ∧
    Patches (DebugInfoPatcher R') = [].
Proof.
  assert (∃ R', updateLocationList exampleKeptContext exampleSerializeLocList 0
                  exampleLocationUnit exampleLocationAttr MainDebugInfoPatcher
                  exampleStartRewriter = Ok R' ∧
                LocListDebugInfoPatches R' = [mkLocListPatch 30 0 0])
    as (R' & HR' & HL) by (eexists; split; vm_compute; reflexivity).
  exists R'. split; [exact HR'|]. split; [exact HL|].
  destruct (location_list_patched_or_deferred exampleKeptContext
              exampleSerializeLocList 0 exampleLocationUnit exampleLocationAttr
              MainDebugInfoPatcher exampleStartRewriter R' HR')
    as [(_ & HSame & _)|(o & HT & _)].
  - rewrite HL in HSame. discriminate HSame.
  - exact (f_equal Patches (HT MainDebugInfoPatcher)).
Defined.

(** The entry with a low-pc of its own, in the context without
    functions. *)
Lemma low_pc_outside_functions_example :
  updateUnitDebugInfo_default exampleNoFunctionContext exampleOptions
    exampleSerializeLocList 0 (exampleUnit []) exampleLabel MainDebugInfoPatcher
    exampleStartRewriter =
  Ok (onPatcher MainDebugInfoPatcher (λ P, addLE64Patch P 31 0) exampleStartRewriter).
Proof.
  apply (proj1 (low_pc_outside_functions exampleNoFunctionContext exampleOptions
                  exampleSerializeLocList 0 (exampleUnit []) exampleLabel
                  MainDebugInfoPatcher exampleStartRewriter
                  (mkAttrInfo (mkFormValue DW_FORM_addr 4096 (Some 4096) []) 31) 4096
                  eq_refl eq_refl eq_refl eq_refl)).
  - discriminate.
  - discriminate.
Defined.

(** The root entry with a low-pc, the ranges at offset 16 and the ranges
    base 32. *)
Lemma skeleton_ranges_base_example :
  ∃ R' : DWARFRewriter,
    updateDWARFObjectAddressRanges exampleOptions exampleRoot 16 MainDebugInfoPatcher
      MainAbbrevWriter (Some 32) emptyRewriter = Ok R' ∧
    Patches (DebugInfoPatcher R') =
      [LE32Patch 20 16; UDataPatch 12 15 1; UDataPatch 13 32 7] ∧
    AbbrevPatches (AbbrevWriter R') =
      [mkAbbrevPatch 0 8 DW_AT_low_pc DW_AT_GNU_ranges_base DW_FORM_indirect].
Proof.
  destruct (skeleton_ranges_base exampleOptions exampleRoot exampleRootAbbrev 16 32
              MainDebugInfoPatcher MainAbbrevWriter emptyRewriter
              (mkAttrInfo (mkFormValue DW_FORM_sec_offset 0 None []) 20)
              eq_refl ltac:(by eexists) eq_refl)
    as (R' & HR' & _ & HP & _ & HA & _).
  exists R'. split; [exact HR'|]. split; [exact HP|exact HA].
Defined.

(** The flush of two deferred subprograms, the first with a gap between
    its low-pc and its high-pc: it draws the warning, and both are
    patched. *)
Lemma flushPendingRanges_frame_example :
  ∃ R' : DWARFRewriter,
    flushPendingRanges exampleIndexFromAddress MainDebugInfoPatcher
      exampleGapPendingRewriter = Ok R' ∧
    errs R' =
      ["BOLT-WARNING: high_pc expected immediately after low_pc. Cannot update DIE"] ∧
    Patches (DebugInfoPatcher R') =
      [LE64Patch 12 8192; LE32Patch 24 32; LE64Patch 41 8300; LE32Patch 49 16] ∧
    AbbrevWriter R' = emptyAbbrevWriter ∧
    ConvertedRangesAbbrevs R' = ∅ ∧
    RangesSectionWriter R' = mkRangesWriter [].
Proof.
  assert (∃ R', flushPendingRanges exampleIndexFromAddress MainDebugInfoPatcher
                  exampleGapPendingRewriter = Ok R' ∧
                Patches (DebugInfoPatcher R') =
                  [LE64Patch 12 8192; LE32Patch 24 32; LE64Patch 41 8300;
                   LE32Patch 49 16])
    as (R' & HR' & HP) by (eexists; split; vm_compute; reflexivity).
  exists R'. split; [exact HR'|].
  destruct (flushPendingRanges_frame exampleIndexFromAddress MainDebugInfoPatcher
              exampleGapPendingRewriter R' HR') as (HF & HE & _).
  split; [exact HE|]. split; [exact HP|].
  split; [exact (f_equal AbbrevWriter HF)|].
  split; [exact (f_equal ConvertedRangesAbbrevs HF)|
          exact (f_equal RangesSectionWriter HF)].
Defined.

(** The split unit 7 with one deferred location list at the local offset
    12. *)
Lemma split_unit_location_offsets_example :
  Patches (getPatcher (makeFinalLocListsSection MainDebugInfoPatcher
                         exampleSplitLocRewriter).2
             (DWODebugInfoPatcher 7)) =
  [LE32Patch 30 12].
Proof.
  destruct (split_unit_location_offsets_stay_local exampleSplitLocRewriter 7
              [mkLocListPatch 30 7 12]) as [HP _].
  - vm_compute. reflexivity.
  - intros p W Hp HW. apply list_elem_of_singleton in Hp. subst p.
    vm_compute in HW. injection HW as <-. reflexivity.
  - etrans; [exact HP|]. vm_compute. reflexivity.
Defined.

(** The two example units and the type unit. *)
Lemma line_table_offsets_example :
  ∃ Out : LineTableUpdate,
    updateLineTableOffsets exampleLineContext exampleLineTables = Ok Out ∧
    InfoRelocations Out = [mkRelocation 12 0; mkRelocation 76 36].
Proof.
  assert (∃ Out, updateLineTableOffsets exampleLineContext exampleLineTables = Ok Out)
    as [Out HOut] by (eexists; vm_compute; reflexivity).
  exists Out. split; [exact HOut|].
  exact (proj1 (line_table_offsets exampleLineContext exampleLineTables Out HOut)).
Defined.

Lemma type_unit_line_table_offsets_example :
  ∃ Out : LineTableUpdate,
    updateLineTableOffsets exampleLineContext exampleLineTables = Ok Out ∧
    ∃ Rel, TypesRelocations Out = [Rel] ∧ RelocationOffset Rel = 140 ∧
           Addend Rel = 36.
Proof.
  assert (∃ Out, updateLineTableOffsets exampleLineContext exampleLineTables = Ok Out)
    as [Out HOut] by (eexists; vm_compute; reflexivity).
  exists Out. split; [exact HOut|].
  pose proof (type_unit_line_table_offsets exampleLineContext exampleLineTables
                Out HOut) as HAll.
  cbv zeta in HAll.
  apply Forall2_cons_inv_l in HAll as (Rel & Rels & (HOff & T & HT & HAdd) & HRest & ->).
  apply Forall2_nil_inv_l in HRest as ->.
  exists Rel. split; [done|]. split; [exact HOff|].
  rewrite HAdd. vm_compute in HT. injection HT as <-. reflexivity.
Defined.

(** The example line tables satisfy the conditions. *)
Lemma line_tables_in_order_example :
  ∃ Out : LineTableUpdate,
    updateLineTableOffsets exampleLineContext exampleLineTables = Ok Out.
Proof.
  apply (line_tables_in_order_are_accepted exampleLineContext exampleLineTables).
  - by right.
  - done.
  - done.
  - repeat (apply Forall_cons; split; [done|]). by apply Forall_nil.
  - repeat (apply Forall_cons; split; [reflexivity|]). by apply Forall_nil.
  - intros [|[|i]] [|[|j]] T1 T2 Hij H1 H2; vm_compute in H1, H2;
      try discriminate; try lia;
      injection H1 as <-; injection H2 as <-; vm_compute; lia.
  - apply Forall_cons. split; [|by apply Forall_nil].
    split; [reflexivity|].
    eexists. split; [apply list_elem_of_further, list_elem_of_here|reflexivity].
Defined.
